(** * OracleMint: name normalizer, card resolver, Scryfall client and bulk sync

    A shallow embedding of the TypeScript sources
    - [src/lib/utils/card-names.ts]
                           (normalizeName, parseCardNameVariants)
    - the Scryfall client  (rateLimiter, fetchWithBackoff)
    - the card resolver    (resolveCardName, fetchAndCacheFromScryfall,
                            upsertCardFromScryfall)
    - the bulk sync        (startSync, processSyncRun, upsertCardBatch,
                            upsertCard)
    followed by the properties of the specification stated against them.

    JavaScript strings are sequences of UTF-16 code units; they are modelled
    as lists of numbers.  Asynchronous functions are modelled in
    state-passing style: every [await] of the sources is sequential. *)

From Stdlib Require Import Strings.String Strings.Ascii.
From Stdlib Require Import List NArith ZArith Lia Bool Arith.
Import ListNotations.

Set Implicit Arguments.

(* ===================================================================== *)
(** * Part I: definitions                                                  *)
(* ===================================================================== *)

(** ** JavaScript strings *)

Module JsString.

Local Open Scope N_scope.

Definition code_unit := N.
Definition jsstring := list code_unit.

(** An ASCII literal as a JavaScript string. *)
Definition lit (s : string) : jsstring :=
  map N_of_ascii (list_ascii_of_string s).

Definition eqb (a b : jsstring) : bool :=
  if list_eq_dec N.eq_dec a b then true else false.

Definition in_range (lo hi c : code_unit) : bool :=
  (N.leb lo c && N.leb c hi)%bool.

Definition is_ascii (c : code_unit) : bool := N.ltb c 128.

Definition is_upper (c : code_unit) : bool := in_range 65 90 c.
Definition is_lower (c : code_unit) : bool := in_range 97 122 c.
Definition is_digit (c : code_unit) : bool := in_range 48 57 c.

(** The regular-expression class [\w] (no [u] or [i] flag): [A-Za-z0-9_]. *)
Definition is_word (c : code_unit) : bool :=
  (is_upper c || is_lower c || is_digit c || N.eqb c 95)%bool.

(** The class [\s], which is also the set removed by [String.prototype.trim]:
    WhiteSpace and LineTerminator of ECMAScript. *)
Definition is_space (c : code_unit) : bool :=
  (in_range 9 13 c || N.eqb c 32 || N.eqb c 160 || N.eqb c 5760
   || in_range 8192 8202 c || N.eqb c 8232 || N.eqb c 8233
   || N.eqb c 8239 || N.eqb c 8287 || N.eqb c 12288 || N.eqb c 65279)%bool.

(** The class [\u0300-\u036f] of combining diacritical marks. *)
Definition is_combining_mark (c : code_unit) : bool := in_range 768 879 c.

Definition SPACE : code_unit := 32.
Definition APOSTROPHE : code_unit := 39.
Definition HYPHEN : code_unit := 45.
Definition SLASH : code_unit := 47.
Definition COMMA : code_unit := 44.
Definition NEWLINE : code_unit := 10.

(** Lower-casing of one ASCII code unit. *)
Definition ascii_lower (c : code_unit) : code_unit :=
  if is_upper c then (c + 32)%N else c.

(** [s.trimStart()], [s.trimEnd()] and [s.trim()]. *)
Fixpoint trimStart (s : jsstring) : jsstring :=
  match s with
  | [] => []
  | c :: r => if is_space c then trimStart r else s
  end.

Fixpoint trimEnd (s : jsstring) : jsstring :=
  match s with
  | [] => []
  | c :: r =>
      match trimEnd r with
      | [] => if is_space c then [] else [c]
      | r' => c :: r'
      end
  end.

Definition trim (s : jsstring) : jsstring := trimEnd (trimStart s).

(** [s.startsWith(p)]. *)
Fixpoint startsWith (s p : jsstring) : bool :=
  match p, s with
  | [], _ => true
  | _ :: _, [] => false
  | a :: p', b :: s' => (N.eqb a b && startsWith s' p')%bool
  end.

(** [s.endsWith(p)]. *)
Definition endsWith (s p : jsstring) : bool :=
  startsWith (rev s) (rev p).

(** [s.includes(p)]. *)
Fixpoint includes (s p : jsstring) : bool :=
  (startsWith s p ||
   match s with
   | [] => false
   | _ :: r => includes r p
   end)%bool.

(** [s.slice(0, n)] for a non-negative integer [n]. *)
Definition slice0 (n : nat) (s : jsstring) : jsstring := firstn n s.

(** [s.slice(0, -1)]. *)
Definition dropLast (s : jsstring) : jsstring := removelast s.

(** [s.split(sep)] for a non-empty separator: the pieces between the
    successive left-to-right, non-overlapping occurrences of [sep].
    [skip] counts the code units of a just-matched separator that are
    still to be passed over; [cur] is the piece being read, reversed. *)
Fixpoint split_from (sep : jsstring) (skip : nat) (cur s : jsstring)
  : list jsstring :=
  match s with
  | [] => [rev cur]
  | c :: r =>
      match skip with
      | S k => split_from sep k cur r
      | O =>
          if startsWith s sep
          then rev cur :: split_from sep (Nat.pred (length sep)) [] r
          else split_from sep 0 (c :: cur) r
      end
  end.

Definition split (s sep : jsstring) : list jsstring :=
  split_from sep 0 [] s.

(** [[...new Set(xs)]]: a Set keeps the insertion order of first
    occurrences; a value already present is not inserted again. *)
Definition set_add (seen : list jsstring) (x : jsstring) : list jsstring :=
  if existsb (eqb x) seen then seen else seen ++ [x].

Definition set_spread (xs : list jsstring) : list jsstring :=
  fold_left set_add xs [].

End JsString.

Import JsString.

(** ** Name normalizer ([src/lib/utils/card-names.ts]) *)

(** [String.prototype.toLowerCase] and [String.prototype.normalize('NFD')]
    are built-ins whose tables belong to the JavaScript runtime, not to the
    repository: the normalizer takes them as a parameter. *)
Record UnicodeRuntime : Type := {
  toLowerCase : jsstring -> jsstring;
  normalizeNFD : jsstring -> jsstring
}.

(** What the proofs use of the runtime: on ASCII strings lower-casing is
    ASCII lower-casing and canonical decomposition changes nothing, and no
    capital ASCII letter survives lower-casing followed by canonical
    decomposition. *)
Record RuntimeLaws (rt : UnicodeRuntime) : Prop := {
  toLowerCase_ascii :
    forall s, forallb is_ascii s = true -> toLowerCase rt s = map ascii_lower s;
  normalizeNFD_ascii :
    forall s, forallb is_ascii s = true -> normalizeNFD rt s = s;
  lowered_nfd_no_upper :
    forall s,
      forallb (fun c => negb (is_upper c)) (normalizeNFD rt (toLowerCase rt s))
      = true
}.

Module Normalizer.

Local Open Scope N_scope.

(** [.replace(/[\u0300-\u036f]/g, '')] *)
Definition strip_marks (s : jsstring) : jsstring :=
  filter (fun c => negb (is_combining_mark c)) s.

(** [.replace(/['']/g, "'")]: both members of the class are the code unit
    39 in the source file. *)
Definition fold_apostrophes (s : jsstring) : jsstring :=
  map (fun c => if (N.eqb c 39 || N.eqb c 39)%bool then APOSTROPHE else c) s.

(** The complement of the class [[^\w\s'/-]]. *)
Definition kept (c : code_unit) : bool :=
  (is_word c || is_space c || N.eqb c APOSTROPHE || N.eqb c SLASH
   || N.eqb c HYPHEN)%bool.

(** [.replace(/[^\w\s'/-]/g, '')] *)
Definition remove_special (s : jsstring) : jsstring := filter kept s.

(** [.replace(/\s+/g, ' ')]: every maximal run of white space becomes one
    space; [in_run] tells that the previous code unit was white space. *)
Fixpoint collapse_from (in_run : bool) (s : jsstring) : jsstring :=
  match s with
  | [] => []
  | c :: r =>
      if is_space c
      then if in_run then collapse_from true r
           else SPACE :: collapse_from true r
      else c :: collapse_from false r
  end.

Definition collapse_whitespace (s : jsstring) : jsstring :=
  collapse_from false s.

Section WithRuntime.

Variable rt : UnicodeRuntime.

Definition normalizeName (name : jsstring) : jsstring :=
  trim
    (collapse_whitespace
       (remove_special
          (fold_apostrophes
             (strip_marks (normalizeNFD rt (toLowerCase rt name)))))).

Definition FACE_SEPARATOR : jsstring := [SLASH; SLASH].

Definition parseCardNameVariants (input : jsstring) : list jsstring :=
  let normalized := normalizeName input in
  let variants := [normalized] in
  let variants :=
    if includes normalized FACE_SEPARATOR
    then variants ++ map trim (split normalized FACE_SEPARATOR)
    else variants in
  set_spread variants.

End WithRuntime.

(** The specification's wording of the de-duplication: keep a value the
    first time it is seen, drop it afterwards. *)
Fixpoint first_seen (seen xs : list jsstring) : list jsstring :=
  match xs with
  | [] => []
  | x :: r =>
      if existsb (JsString.eqb x) seen then first_seen seen r
      else x :: first_seen (x :: seen) r
  end.

(** The shape of a normalized name: only [a-z0-9_'/-] and single spaces. *)
Definition final_char (c : code_unit) : bool :=
  (is_lower c || is_digit c || N.eqb c 95 || N.eqb c APOSTROPHE
   || N.eqb c SLASH || N.eqb c HYPHEN || N.eqb c SPACE)%bool.

Fixpoint single_spaced (in_run : bool) (s : jsstring) : bool :=
  match s with
  | [] => true
  | c :: r =>
      if is_space c
      then (negb in_run && N.eqb c SPACE && single_spaced true r)%bool
      else single_spaced false r
  end.

Definition starts_clean (s : jsstring) : bool :=
  match s with
  | [] => true
  | c :: _ => negb (is_space c)
  end.

Definition canonical (s : jsstring) : Prop :=
  forallb final_char s = true /\ single_spaced false s = true /\ trim s = s.

End Normalizer.

(** A runtime for the Latin-1 range: the lower-case mapping and the
    canonical decompositions of the code units below 256, as in the Unicode
    tables; other code units are left as they are. *)
Module Latin1.

Local Open Scope N_scope.

Definition lower (c : code_unit) : code_unit :=
  if (is_upper c || (in_range 192 222 c && negb (N.eqb c 215)))%bool
  then c + 32 else c.

Definition decompositions : list (code_unit * jsstring) :=
  [ (192, [65; 768]); (193, [65; 769]); (194, [65; 770]); (195, [65; 771]);
    (196, [65; 776]); (197, [65; 778]); (199, [67; 807]); (200, [69; 768]);
    (201, [69; 769]); (202, [69; 770]); (203, [69; 776]); (204, [73; 768]);
    (205, [73; 769]); (206, [73; 770]); (207, [73; 776]); (209, [78; 771]);
    (210, [79; 768]); (211, [79; 769]); (212, [79; 770]); (213, [79; 771]);
    (214, [79; 776]); (217, [85; 768]); (218, [85; 769]); (219, [85; 770]);
    (220, [85; 776]); (221, [89; 769]); (224, [97; 768]); (225, [97; 769]);
    (226, [97; 770]); (227, [97; 771]); (228, [97; 776]); (229, [97; 778]);
    (231, [99; 807]); (232, [101; 768]); (233, [101; 769]); (234, [101; 770]);
    (235, [101; 776]); (236, [105; 768]); (237, [105; 769]); (238, [105; 770]);
    (239, [105; 776]); (241, [110; 771]); (242, [111; 768]); (243, [111; 769]);
    (244, [111; 770]); (245, [111; 771]); (246, [111; 776]); (249, [117; 768]);
    (250, [117; 769]); (251, [117; 770]); (252, [117; 776]); (253, [121; 769]);
    (255, [121; 776]) ].

Fixpoint lookup (c : code_unit) (t : list (code_unit * jsstring))
  : option jsstring :=
  match t with
  | [] => None
  | (k, v) :: r => if N.eqb k c then Some v else lookup c r
  end.

Definition decompose (c : code_unit) : jsstring :=
  match lookup c decompositions with
  | Some d => d
  | None => [c]
  end.

(** The code units that [lower] can give. *)
Definition reachable (c : code_unit) : bool :=
  negb (is_upper c || (in_range 192 222 c && negb (N.eqb c 215))).

Definition runtime : UnicodeRuntime :=
  {| toLowerCase := map lower;
     normalizeNFD := flat_map decompose |}.

End Latin1.

(** ** Errors and results shared by the client, the resolver and the sync *)

Inductive Error : Type :=
| ScryfallError (message : jsstring) (status : Z) (details : option jsstring)
| JsError (message : jsstring).

Inductive Result (A : Type) : Type :=
| Ok (a : A)
| Throw (e : Error).

Arguments Ok {A} a.
Arguments Throw {A} e.

(** ** Rate-limited Scryfall client *)

Module Client.

Local Open Scope Z_scope.

Record Response : Type := {
  status : Z;
  retryAfterHeader : option jsstring;   (* headers.get('Retry-After') *)
  body : jsstring
}.

(** What the network does with one request: the promise of [fetch]
    resolves or rejects, some milliseconds after the request left. *)
Inductive FetchOutcome : Type :=
| Resolves (after : N) (r : Response)
| Rejects (after : N) (message : jsstring).

(** The environment of the client: the outcome of the [k]-th call of
    [fetch] (for its URL), and by how many milliseconds the [k]-th timer of
    [sleep] fires late ([setTimeout] never fires early). *)
Record Network : Type := {
  outcome : nat -> jsstring -> FetchOutcome;
  lag : nat -> N
}.

Inductive SleepReason : Type := Throttled | RateLimited | Backoff.

Inductive Event : Type :=
| Slept (why : SleepReason) (ms : option Z)   (* [None] is NaN *)
| Departed (at_ms : Z)     (* [fetchWithBackoff] calls [fetch] *)
| Streamed (at_ms : Z)     (* [streamBulkData] calls [fetch] *)
| Settled (at_ms : Z).     (* the promise of [fetch] settles *)

(** The clock, the module-level [rateLimiter.lastRequest], the number of
    [fetch] calls and timers so far, and the events so far, oldest first. *)
Record World : Type := {
  now : Z;
  lastRequest : Z;
  fetches : nat;
  timers : nat;
  trace : list Event
}.

Definition minDelay : Z := 100.

Definition initial (t0 : Z) : World :=
  {| now := t0; lastRequest := 0; fetches := 0; timers := 0; trace := [] |}.

(** The delay of [setTimeout(f, ms)] in the runtime of the server
    (Node.js): a delay that is NaN, below 1 or above [TIMEOUT_MAX]
    (2^31 - 1) is set to 1. *)
Definition TIMEOUT_MAX : Z := 2147483647.

Definition timer_delay (ms : option Z) : Z :=
  match ms with
  | Some d => if (d <? 1) || (TIMEOUT_MAX <? d) then 1 else d
  | None => 1
  end.

(** [sleep(ms)] *)
Definition sleep (net : Network) (why : SleepReason) (ms : option Z)
  (w : World) : World :=
  let delay := timer_delay ms in
  {| now := now w + delay + Z.of_N (lag net (timers w));
     lastRequest := lastRequest w;
     fetches := fetches w;
     timers := S (timers w);
     trace := trace w ++ [Slept why ms] |}.

(** [rateLimiter.throttle()] *)
Definition throttle (net : Network) (w : World) : World :=
  let elapsed := now w - lastRequest w in
  let w1 :=
    if elapsed <? minDelay
    then sleep net Throttled (Some (minDelay - elapsed)) w
    else w in
  {| now := now w1;
     lastRequest := now w1;
     fetches := fetches w1;
     timers := timers w1;
     trace := trace w1 |}.

Inductive Fetched : Type :=
| Got (r : Response)
| AbortError
| OtherError (message : jsstring).

(** The promise of [fetch] settles before the abort timer
    [setTimeout(() => controller.abort(), timeout)] fires. *)
Definition in_time (timeout : Z) (d : N) : bool :=
  Z.of_N d <? timer_delay (Some timeout).

(** [fetch(url, { signal })] raced against the abort timer of [timeout]
    milliseconds. *)
Definition fetch (net : Network) (url : jsstring) (timeout : Z) (w : World)
  : Fetched * World :=
  let leave := now w in
  let settle (d : Z) (f : Fetched) :=
    (f, {| now := leave + d;
           lastRequest := lastRequest w;
           fetches := S (fetches w);
           timers := timers w;
           trace := trace w ++ [Departed leave; Settled (leave + d)] |}) in
  match outcome net (fetches w) url with
  | Resolves d r =>
      if in_time timeout d then settle (Z.of_N d) (Got r)
      else settle (timer_delay (Some timeout)) AbortError
  | Rejects d m =>
      if in_time timeout d then settle (Z.of_N d) (OtherError m)
      else settle (timer_delay (Some timeout)) AbortError
  end.

(** [parseInt(s, 10)]: leading white space, an optional sign, then the
    longest run of decimal digits; NaN ([None]) without a digit. *)
Fixpoint digits_value (acc : Z) (s : jsstring) : Z :=
  match s with
  | [] => acc
  | c :: r =>
      if is_digit c then digits_value (acc * 10 + (Z.of_N c - 48)) r
      else acc
  end.

Definition parseInt10 (s : jsstring) : option Z :=
  let t := trimStart s in
  let '(sign, t') :=
    match t with
    | c :: r =>
        if N.eqb c 45 then (-1, r)
        else if N.eqb c 43 then (1, r)
        else (1, t)
    | [] => (1, [])
    end in
  match t' with
  | c :: _ => if is_digit c then Some (sign * digits_value 0 t') else None
  | [] => None
  end.

(** [parseInt(response.headers.get('Retry-After') || '1', 10)] *)
Definition retryAfter (r : Response) : option Z :=
  parseInt10
    match retryAfterHeader r with
    | None | Some [] => lit "1"
    | Some h => h
    end.

Definition MAX_RETRIES_EXCEEDED : Error :=
  ScryfallError (lit "Max retries exceeded") 503
    (Some (lit "Failed to fetch from Scryfall after multiple attempts")).

Definition REQUEST_TIMEOUT : Error :=
  ScryfallError (lit "Request timeout") 408
    (Some (lit "The request to Scryfall timed out")).

(** The loop [for (let attempt = 0; attempt < retries; attempt++)] of
    [fetchWithBackoff], entered at [attempt]: [left] is
    [retries - attempt], so [left = 0] is the loop condition failing.  The
    [continue] of the 429 branch and the end of the [catch] block both run
    [attempt++]. *)
Fixpoint attempts (net : Network) (url : jsstring) (retries : nat)
  (timeout : Z) (left attempt : nat) (w : World) : Result Response * World :=
  match left with
  | O => (Throw MAX_RETRIES_EXCEEDED, w)
  | S left' =>
      let w := throttle net w in
      let '(f, w) := fetch net url timeout w in
      match f with
      | Got r =>
          if status r =? 429
          then
            let ms := option_map (fun s => s * 1000) (retryAfter r) in
            let w := sleep net RateLimited ms w in
            attempts net url retries timeout left' (S attempt) w
          else (Ok r, w)
      | AbortError => (Throw REQUEST_TIMEOUT, w)
      | OtherError m =>
          if Nat.eqb attempt (retries - 1) then (Throw (JsError m), w)
          else
            let w :=
              sleep net Backoff (Some (1000 * (Z.of_nat attempt + 1))) w in
            attempts net url retries timeout left' (S attempt) w
      end
  end.

Definition fetchWithBackoff (net : Network) (url : jsstring)
  (retries : option nat) (timeout : option Z) (w : World)
  : Result Response * World :=
  let retries := match retries with Some n => n | None => 3%nat end in
  let timeout := match timeout with Some t => t | None => 30000 end in
  attempts net url retries timeout retries 0 w.

(** [response.ok]: the status is in the range 200-299. *)
Definition ok (r : Response) : bool :=
  (200 <=? status r) && (status r <=? 299).

(** [!response.body]: the body of the response to a GET request is null
    exactly for the null-body statuses of the Fetch standard; 204 and 205
    are the ones in the [ok] range. *)
Definition null_body (r : Response) : bool :=
  (status r =? 101) || (status r =? 103) || (status r =? 204)
  || (status r =? 205) || (status r =? 304).

Definition DOWNLOAD_FAILED (status : Z) : Error :=
  ScryfallError (lit "Failed to start bulk data download") status
    (Some (lit "Response body is not available")).

(** [streamBulkData(downloadUrl)]: a bare [fetch], without the throttle,
    without an abort timer and without retries; [lastRequest] is not
    touched. *)
Definition streamBulkData (net : Network) (downloadUrl : jsstring)
  (w : World) : Result Response * World :=
  let leave := now w in
  let settle (d : N) :=
    {| now := leave + Z.of_N d;
       lastRequest := lastRequest w;
       fetches := S (fetches w);
       timers := timers w;
       trace := trace w ++ [Streamed leave; Settled (leave + Z.of_N d)] |} in
  match outcome net (fetches w) downloadUrl with
  | Resolves d r =>
      (if negb (ok r) || null_body r then Throw (DOWNLOAD_FAILED (status r))
       else Ok r, settle d)
  | Rejects d m => (Throw (JsError m), settle d)
  end.

(** A caller's use of the shared client: calls of [fetchWithBackoff] (all
    the operations of the client but the download) and of
    [streamBulkData], one after the other, with idle time in between. *)
Inductive Action : Type :=
| Call (url : jsstring) (retries : option nat) (timeout : option Z)
| Download (downloadUrl : jsstring)
| Idle (ms : N).

Definition idle (ms : N) (w : World) : World :=
  {| now := now w + Z.of_N ms;
     lastRequest := lastRequest w;
     fetches := fetches w;
     timers := timers w;
     trace := trace w |}.

Fixpoint run (net : Network) (acts : list Action) (w : World) : World :=
  match acts with
  | [] => w
  | Call url r t :: rest => run net rest (snd (fetchWithBackoff net url r t w))
  | Download url :: rest => run net rest (snd (streamBulkData net url w))
  | Idle ms :: rest => run net rest (idle ms w)
  end.

(** Two callers whose calls of [throttle()] overlap: the second one enters
    [later] milliseconds after the first, while the first is still asleep
    and has not yet written [lastRequest]; both decide their sleep on the
    same [lastRequest], and each request leaves when its caller wakes up.
    The result is the two times of leaving. *)
Definition overlapping_departures (net : Network) (later : N) (w : World)
  : Z * Z :=
  (now (throttle net w), now (throttle net (idle later w))).

(** Observations on a trace: the times at which the requests of
    [fetchWithBackoff] left, and the times at which all requests left,
    those of [streamBulkData] included. *)
Fixpoint departures (tr : list Event) : list Z :=
  match tr with
  | [] => []
  | Departed t :: r => t :: departures r
  | _ :: r => departures r
  end.

Fixpoint requests (tr : list Event) : list Z :=
  match tr with
  | [] => []
  | Departed t :: r | Streamed t :: r => t :: requests r
  | _ :: r => requests r
  end.

Fixpoint spaced (gap : Z) (ts : list Z) : bool :=
  match ts with
  | a :: (b :: _) as r => (a + gap <=? b) && spaced gap r
  | _ => true
  end.

(** Every request leaves at least [gap] after the latest earlier
    settlement ([settled] is the time of that settlement, if any). *)
Fixpoint after_settlement (gap : Z) (settled : option Z) (tr : list Event)
  : bool :=
  match tr with
  | [] => true
  | Settled t :: r => after_settlement gap (Some t) r
  | Departed t :: r | Streamed t :: r =>
      match settled with
      | Some s => (s + gap <=? t) && after_settlement gap settled r
      | None => after_settlement gap settled r
      end
  | Slept _ _ :: r => after_settlement gap settled r
  end.

Fixpoint rate_limit_sleeps (tr : list Event) : list (option Z) :=
  match tr with
  | [] => []
  | Slept RateLimited ms :: r => ms :: rate_limit_sleeps r
  | _ :: r => rate_limit_sleeps r
  end.

(** The delay that a rate-limit answer asks for, in milliseconds:
    [retryAfter * 1000]. *)
Definition rate_limit_wait (o : FetchOutcome) : option Z :=
  match o with
  | Resolves _ r => option_map (fun s => s * 1000) (retryAfter r)
  | Rejects _ _ => None
  end.

(** The answer is a 429 that arrives before the abort timer fires. *)
Definition is_rate_limit (timeout : Z) (o : FetchOutcome) : bool :=
  match o with
  | Resolves d r => in_time timeout d && (status r =? 429)
  | Rejects _ _ => false
  end.

(** What the world must keep for the requests of [fetchWithBackoff] to
    stay spaced: [lastRequest] is a reading of the clock (not negative, not
    in the future), none of these requests left after it, and the ones so
    far are spaced. *)
Definition well_spaced (w : World) : Prop :=
  spaced minDelay (departures (trace w)) = true
  /\ (forall t, In t (departures (trace w)) -> t <= lastRequest w)
  /\ 0 <= lastRequest w <= now w.

(** The world 50 ms after a request left. *)
Definition just_after_request : World :=
  {| now := 1000; lastRequest := 950; fetches := 1; timers := 0;
     trace := [Departed 950; Settled 990] |}.

(** A network whose every answer is a rate-limit response without a
    Retry-After header, one that answers 200 after half a second, and one
    that answers 429 three times before it answers 200. *)
Definition three_429_then_200 : Network :=
  {| outcome := fun k _ =>
       Resolves 20
         {| status := if Nat.ltb k 3 then 429 else 200;
            retryAfterHeader := if Nat.eqb k 0 then Some (lit "2") else None;
            body := [] |};
     lag := fun _ => 0%N |}.

Definition always_429 : Network :=
  {| outcome := fun _ _ =>
       Resolves 20 {| status := 429; retryAfterHeader := None; body := [] |};
     lag := fun _ => 0%N |}.

Definition slow_200 : Network :=
  {| outcome := fun _ _ =>
       Resolves 500 {| status := 200; retryAfterHeader := None; body := [] |};
     lag := fun _ => 0%N |}.

(** A network that answers 200 after 20 ms. *)
Definition fast_200 : Network :=
  {| outcome := fun _ _ =>
       Resolves 20 {| status := 200; retryAfterHeader := None; body := [] |};
     lag := fun _ => 0%N |}.

End Client.

(** ** Payloads of the Scryfall API (the interfaces of the client) *)

(** JavaScript numbers that are only copied, never computed with. *)
Definition number := Z.

Module ScryfallCardFace.
Record t : Type := {
  name : jsstring;
  mana_cost : option jsstring;
  type_line : jsstring;
  oracle_text : option jsstring;
  power : option jsstring;
  toughness : option jsstring;
  loyalty : option jsstring;
  defense : option jsstring
}.
End ScryfallCardFace.

Module ScryfallCard.
Record t : Type := {
  id : jsstring;
  oracle_id : jsstring;
  name : jsstring;
  layout : jsstring;
  mana_cost : option jsstring;
  cmc : number;
  type_line : jsstring;
  oracle_text : option jsstring;
  colors : option (list jsstring);
  color_identity : list jsstring;
  keywords : list jsstring;
  released_at : option jsstring;
  rulings_uri : jsstring;
  card_faces : option (list ScryfallCardFace.t)
}.
End ScryfallCard.

Module ScryfallRuling.
Record t : Type := {
  oracle_id : jsstring;
  source : jsstring;
  published_at : jsstring;
  comment : jsstring
}.
End ScryfallRuling.

(** ** The store: the tables [card], [cardFace] and [ruling]

    The Prisma schema is not among the sources: the columns are those that
    the sources write and read.  Rows are kept in insertion order; a query
    without [orderBy] returns them in that order.  Dates are carried as the
    strings they are built from. *)

Module Card.
Record t : Type := {
  id : nat;
  oracleId : jsstring;
  scryfallId : jsstring;
  name : jsstring;
  normalizedName : jsstring;
  layout : jsstring;
  manaCost : option jsstring;
  cmc : number;
  typeLine : jsstring;
  oracleText : option jsstring;
  colors : list jsstring;
  colorIdentity : list jsstring;
  keywords : list jsstring;
  releasedAt : option jsstring
}.
End Card.

Module CardFace.
Record t : Type := {
  cardId : nat;
  faceIndex : nat;
  name : jsstring;
  normalizedName : jsstring;
  manaCost : option jsstring;
  typeLine : jsstring;
  oracleText : option jsstring;
  power : option jsstring;
  toughness : option jsstring;
  loyalty : option jsstring;
  defense : option jsstring
}.
End CardFace.

Module Ruling.
Record t : Type := {
  oracleId : jsstring;
  publishedAt : jsstring;
  comment : jsstring;
  source : jsstring
}.
End Ruling.

Module Catalog.
Record t : Type := {
  cards : list Card.t;
  cardFaces : list CardFace.t;
  rulings : list Ruling.t;
  nextCardId : nat            (* the next fresh [Card.id] *)
}.
End Catalog.

(** The writes that the upsert of a card sends to the store, one after
    the other and outside any transaction. *)
Inductive Write : Type :=
| CardUpsert (scryfallCard : ScryfallCard.t)      (* [db.card.upsert] *)
| FaceDeleteMany (cardId : nat)               (* [db.cardFace.deleteMany] *)
| FaceCreate (row : CardFace.t).                  (* [db.cardFace.create] *)

(** The schema of the store is not part of the sources.  Whether the store
    refuses a write (a violated constraint, a lost connection), given what
    it holds when the write arrives, is a parameter.  A refused write
    throws; the writes made before it stay. *)
Definition Constraints : Type := Catalog.t -> Write -> bool.

Definition no_constraints : Constraints := fun _ _ => false.

Definition WRITE_REFUSED : Error :=
  JsError (lit "PrismaClientKnownRequestError").

Module Store.

Section WithRuntime.

Variable rt : UnicodeRuntime.

(** The [create] and [update] payloads of [db.card.upsert], which carry
    the same values. *)
Definition card_row (id : nat) (c : ScryfallCard.t) : Card.t :=
  {| Card.id := id;
     Card.oracleId := ScryfallCard.oracle_id c;
     Card.scryfallId := ScryfallCard.id c;
     Card.name := ScryfallCard.name c;
     Card.normalizedName := Normalizer.normalizeName rt (ScryfallCard.name c);
     Card.layout := ScryfallCard.layout c;
     Card.manaCost := ScryfallCard.mana_cost c;
     Card.cmc := ScryfallCard.cmc c;
     Card.typeLine := ScryfallCard.type_line c;
     Card.oracleText := ScryfallCard.oracle_text c;
     Card.colors :=
       match ScryfallCard.colors c with Some l => l | None => [] end;
     Card.colorIdentity := ScryfallCard.color_identity c;
     Card.keywords := ScryfallCard.keywords c;
     Card.releasedAt := ScryfallCard.released_at c |}.

(** [db.card.upsert({ where: { oracleId }, create, update })]: the row
    with that [oracleId] is overwritten in place and keeps its [id];
    without one, a row with the fresh id is added.  The result is the
    row, the table, and whether a row was created. *)
Fixpoint card_upsert (fresh : nat) (c : ScryfallCard.t) (rows : list Card.t)
  : Card.t * list Card.t * bool :=
  match rows with
  | [] => let r := card_row fresh c in (r, [r], true)
  | x :: rest =>
      if JsString.eqb (Card.oracleId x) (ScryfallCard.oracle_id c)
      then let r := card_row (Card.id x) c in (r, r :: rest, false)
      else
        let '(r, rest', created) := card_upsert fresh c rest in
        (r, x :: rest', created)
  end.

(** The payload of [db.cardFace.create] for the face at index [i]. *)
Definition face_row (cardId i : nat) (f : ScryfallCardFace.t) : CardFace.t :=
  {| CardFace.cardId := cardId;
     CardFace.faceIndex := i;
     CardFace.name := ScryfallCardFace.name f;
     CardFace.normalizedName :=
       Normalizer.normalizeName rt (ScryfallCardFace.name f);
     CardFace.manaCost := ScryfallCardFace.mana_cost f;
     CardFace.typeLine := ScryfallCardFace.type_line f;
     CardFace.oracleText := ScryfallCardFace.oracle_text f;
     CardFace.power := ScryfallCardFace.power f;
     CardFace.toughness := ScryfallCardFace.toughness f;
     CardFace.loyalty := ScryfallCardFace.loyalty f;
     CardFace.defense := ScryfallCardFace.defense f |}.

(** The loop [for (let i = 0; i < card_faces.length; i++)] from index [i]. *)
Fixpoint face_rows (cardId i : nat) (fs : list ScryfallCardFace.t)
  : list CardFace.t :=
  match fs with
  | [] => []
  | f :: r => face_row cardId i f :: face_rows cardId (S i) r
  end.

End WithRuntime.

(** [db.cardFace.deleteMany({ where: { cardId } })] *)
Definition cardFace_deleteMany (cardId : nat) (rows : list CardFace.t)
  : list CardFace.t :=
  filter (fun f => negb (Nat.eqb (CardFace.cardId f) cardId)) rows.

(** The catalog with another table of faces. *)
Definition with_faces (faces : list CardFace.t) (cat : Catalog.t)
  : Catalog.t :=
  {| Catalog.cards := Catalog.cards cat; Catalog.cardFaces := faces;
     Catalog.rulings := Catalog.rulings cat;
     Catalog.nextCardId := Catalog.nextCardId cat |}.

(** The faces of a card, as [include: { faces: true }] returns them. *)
Definition faces_of (cardId : nat) (rows : list CardFace.t)
  : list CardFace.t :=
  filter (fun f => Nat.eqb (CardFace.cardId f) cardId) rows.

Definition rulings_of (oracleId : jsstring) (rows : list Ruling.t)
  : list Ruling.t :=
  filter (fun r => JsString.eqb (Ruling.oracleId r) oracleId) rows.

(** [db.card.findUnique({ where: { oracleId } })] *)
Definition card_findUnique (oracleId : jsstring) (rows : list Card.t)
  : option Card.t :=
  find (fun c => JsString.eqb (Card.oracleId c) oracleId) rows.

(** The writes of [db.card.upsert] and of the loop of
    [db.cardFace.create], which [upsertCard] of the sync and
    [upsertCardFromScryfall] of the resolver both make. *)
Section Writes.

Variable rt : UnicodeRuntime.
Variable refuses : Constraints.

(** The catalog after [db.card.upsert] for the record, and the row. *)
Definition card_written (cat : Catalog.t) (scryfallCard : ScryfallCard.t)
  : Card.t * Catalog.t :=
  let '(card, rows, created) :=
    card_upsert rt (Catalog.nextCardId cat) scryfallCard
      (Catalog.cards cat) in
  (card,
   {| Catalog.cards := rows; Catalog.cardFaces := Catalog.cardFaces cat;
      Catalog.rulings := Catalog.rulings cat;
      Catalog.nextCardId :=
        if created then S (Catalog.nextCardId cat)
        else Catalog.nextCardId cat |}).

(** The loop [for (let i = 0; i < card_faces.length; i++)] of
    [db.cardFace.create], from the index [i]. *)
Fixpoint createFaces (cardId i : nat) (faces : list ScryfallCardFace.t)
  (cat : Catalog.t) : Result unit * Catalog.t :=
  match faces with
  | [] => (Ok tt, cat)
  | face :: rest =>
      let row := face_row rt cardId i face in
      if refuses cat (FaceCreate row) then (Throw WRITE_REFUSED, cat)
      else
        createFaces cardId (S i) rest
          (with_faces (Catalog.cardFaces cat ++ [row]) cat)
  end.

End Writes.

End Store.

(** ** Bulk sync, part 1: [upsertCard] and [upsertCardBatch] *)

Module SyncUpsert.

Section WithRuntime.

Variable rt : UnicodeRuntime.
Variable refuses : Constraints.

(** [upsertCard(scryfallCard)]: the result and the catalog afterwards,
    also when a write throws. *)
Definition upsertCard (cat : Catalog.t) (scryfallCard : ScryfallCard.t)
  : Result unit * Catalog.t :=
  (* const card = await db.card.upsert(...) *)
  if refuses cat (CardUpsert scryfallCard) then (Throw WRITE_REFUSED, cat)
  else
    let '(card, cat) := Store.card_written rt cat scryfallCard in
    match ScryfallCard.card_faces scryfallCard with
    | Some (f :: fs) =>
        (* card_faces && card_faces.length > 0 *)
        if refuses cat (FaceDeleteMany (Card.id card))
        then (Throw WRITE_REFUSED, cat)
        else
          Store.createFaces rt refuses (Card.id card) 0 (f :: fs)
            (Store.with_faces
               (Store.cardFace_deleteMany (Card.id card)
                  (Catalog.cardFaces cat)) cat)
    | Some [] | None => (Ok tt, cat)
    end.

(** The catalog after the writes of [upsertCard] when none is refused. *)
Definition upsertCard_writes (cat : Catalog.t) (scryfallCard : ScryfallCard.t)
  : Catalog.t :=
  let '(card, rows, created) :=
    Store.card_upsert rt (Catalog.nextCardId cat) scryfallCard
      (Catalog.cards cat) in
  let fresh :=
    if created then S (Catalog.nextCardId cat) else Catalog.nextCardId cat in
  let faces :=
    match ScryfallCard.card_faces scryfallCard with
    | Some (f :: fs) =>
        (* card_faces && card_faces.length > 0 *)
        Store.cardFace_deleteMany (Card.id card) (Catalog.cardFaces cat)
        ++ Store.face_rows rt (Card.id card) 0 (f :: fs)
    | Some [] | None => Catalog.cardFaces cat
    end in
  {| Catalog.cards := rows; Catalog.cardFaces := faces;
     Catalog.rulings := Catalog.rulings cat; Catalog.nextCardId := fresh |}.

(** [upsertCardBatch]: the loop over the batch, from the counters
    [(success, failures)]; a throwing upsert is caught and counted, and
    what it wrote before it threw stays. *)
Fixpoint upsertCardBatch_from (acc : nat * nat) (cat : Catalog.t)
  (cards : list ScryfallCard.t) : (nat * nat) * Catalog.t :=
  match cards with
  | [] => (acc, cat)
  | card :: rest =>
      match upsertCard cat card with
      | (Ok _, cat') => upsertCardBatch_from (S (fst acc), snd acc) cat' rest
      | (Throw _, cat') =>
          upsertCardBatch_from (fst acc, S (snd acc)) cat' rest
      end
  end.

Definition upsertCardBatch (cat : Catalog.t) (cards : list ScryfallCard.t)
  : (nat * nat) * Catalog.t :=
  upsertCardBatch_from (0, 0) cat cards.

End WithRuntime.

End SyncUpsert.

(** ** Card resolver *)

Module Resolver.

Inductive ResolveStatus : Type :=
| exact | normalized | face_match | fuzzy | ambiguous | not_found.

Record CardWithRelations : Type := {
  row : Card.t;
  faces : list CardFace.t;
  rulings : list Ruling.t
}.

(** [select: { name: true, oracleId: true, typeLine: true }] *)
Record Candidate : Type := {
  name : jsstring;
  oracleId : jsstring;
  typeLine : jsstring
}.

Record ResolveResult : Type := {
  status : ResolveStatus;
  card : option CardWithRelations;
  candidates : option (list Candidate);
  matchedFace : option nat;
  input : jsstring
}.

(** The two calls of the client made by the resolver, as the environment
    answers them: [getCardByName(input, { fuzzy: true })] gives a card,
    [null] (a 404) or throws; [getRulingsByCardId(id)] gives the rulings or
    throws. *)
Record Remote : Type := {
  getCardByName : jsstring -> Result (option ScryfallCard.t);
  getRulingsByCardId : jsstring -> Result (list ScryfallRuling.t)
}.

(** [include: { faces: true, rulings: true }] *)
Definition with_relations (cat : Catalog.t) (c : Card.t) : CardWithRelations :=
  {| row := c;
     faces := Store.faces_of (Card.id c) (Catalog.cardFaces cat);
     rulings := Store.rulings_of (Card.oracleId c) (Catalog.rulings cat) |}.

Definition candidate_of (c : Card.t) : Candidate :=
  {| name := Card.name c; oracleId := Card.oracleId c;
     typeLine := Card.typeLine c |}.

(** [db.card.findFirst({ where: { normalizedName } , include })] *)
Definition card_findFirst (cat : Catalog.t) (normalizedName : jsstring)
  : option CardWithRelations :=
  option_map (with_relations cat)
    (find (fun c => JsString.eqb (Card.normalizedName c) normalizedName)
       (Catalog.cards cat)).

(** [db.cardFace.findFirst({ where: { normalizedName } })] *)
Definition cardFace_findFirst (cat : Catalog.t) (normalizedName : jsstring)
  : option CardFace.t :=
  find (fun f => JsString.eqb (CardFace.normalizedName f) normalizedName)
    (Catalog.cardFaces cat).

(** The parent of a face, [include: { card: { include } }]. *)
Definition face_card (cat : Catalog.t) (f : CardFace.t)
  : option CardWithRelations :=
  option_map (with_relations cat)
    (find (fun c => Nat.eqb (Card.id c) (CardFace.cardId f))
       (Catalog.cards cat)).

(** The loop [for (const variant of variants)] of the face stage: the
    first variant that names a stored face decides. *)
Fixpoint first_face (cat : Catalog.t) (variants : list jsstring)
  : option CardFace.t :=
  match variants with
  | [] => None
  | v :: rest =>
      match cardFace_findFirst cat v with
      | Some f => Some f
      | None => first_face cat rest
      end
  end.

(** [Math.max(3, Math.floor(primaryNormalized.length / 2))] *)
Definition prefix_length (primaryNormalized : jsstring) : nat :=
  Nat.max 3 (Nat.div (length primaryNormalized) 2).

(** [db.card.findMany({ where: { normalizedName: { startsWith } },
    take: 10, select })] *)
Definition prefix_candidates (cat : Catalog.t) (primaryNormalized : jsstring)
  : list Candidate :=
  let prefix := slice0 (prefix_length primaryNormalized) primaryNormalized in
  map candidate_of
    (firstn 10
       (filter (fun c => startsWith (Card.normalizedName c) prefix)
          (Catalog.cards cat))).

(** [db.ruling.deleteMany] then one [db.ruling.create] per ruling. *)
Definition upsertRulings (cat : Catalog.t) (oracleId : jsstring)
  (rs : list ScryfallRuling.t) : Catalog.t :=
  {| Catalog.cards := Catalog.cards cat;
     Catalog.cardFaces := Catalog.cardFaces cat;
     Catalog.rulings :=
       filter (fun r => negb (JsString.eqb (Ruling.oracleId r) oracleId))
         (Catalog.rulings cat)
       ++ map (fun r =>
                 {| Ruling.oracleId := oracleId;
                    Ruling.publishedAt := ScryfallRuling.published_at r;
                    Ruling.comment := ScryfallRuling.comment r;
                    Ruling.source := ScryfallRuling.source r |}) rs;
     Catalog.nextCardId := Catalog.nextCardId cat |}.

Section WithEnvironment.

Variable rt : UnicodeRuntime.
Variable refuses : Constraints.
Variable remote : Remote.

(** The card row and the catalog after the writes of
    [upsertCardFromScryfall] when none is refused. *)
Definition upsertCardFromScryfall_writes (cat : Catalog.t)
  (scryfallCard : ScryfallCard.t) : Card.t * Catalog.t :=
  let '(card, rows, created) :=
    Store.card_upsert rt (Catalog.nextCardId cat) scryfallCard
      (Catalog.cards cat) in
  let fresh :=
    if created then S (Catalog.nextCardId cat) else Catalog.nextCardId cat in
  let faces :=
    match ScryfallCard.card_faces scryfallCard with
    | Some (f :: fs) =>
        Store.cardFace_deleteMany (Card.id card) (Catalog.cardFaces cat)
        ++ Store.face_rows rt (Card.id card) 0 (f :: fs)
    | Some [] | None => Catalog.cardFaces cat
    end in
  (card,
   {| Catalog.cards := rows; Catalog.cardFaces := faces;
      Catalog.rulings := Catalog.rulings cat; Catalog.nextCardId := fresh |}).

(** [upsertCardFromScryfall(scryfallCard)]: the same writes as
    [upsertCard] of the sync, in the same order; the result is the card
    row. *)
Definition upsertCardFromScryfall (cat : Catalog.t)
  (scryfallCard : ScryfallCard.t) : Result Card.t * Catalog.t :=
  if refuses cat (CardUpsert scryfallCard) then (Throw WRITE_REFUSED, cat)
  else
    let '(card, cat) := Store.card_written rt cat scryfallCard in
    match ScryfallCard.card_faces scryfallCard with
    | Some (f :: fs) =>
        if refuses cat (FaceDeleteMany (Card.id card))
        then (Throw WRITE_REFUSED, cat)
        else
          match
            Store.createFaces rt refuses (Card.id card) 0 (f :: fs)
              (Store.with_faces
                 (Store.cardFace_deleteMany (Card.id card)
                    (Catalog.cardFaces cat)) cat)
          with
          | (Ok _, cat) => (Ok card, cat)
          | (Throw e, cat) => (Throw e, cat)
          end
    | Some [] | None => (Ok card, cat)
    end.

Definition fetchAndCacheFromScryfall (cat : Catalog.t) (input : jsstring)
  : Result ResolveResult * Catalog.t :=
  match getCardByName remote input with
  | Throw e => (Throw e, cat)
  | Ok None =>
      (Ok {| status := not_found; card := None; candidates := None;
             matchedFace := None; input := input |}, cat)
  | Ok (Some scryfallCard) =>
      match upsertCardFromScryfall cat scryfallCard with
      | (Throw e, cat) => (Throw e, cat)
      | (Ok card, cat) =>
          let cat :=
            match getRulingsByCardId remote (ScryfallCard.id scryfallCard) with
            | Ok rs =>
                if Nat.ltb 0 (length rs)
                then upsertRulings cat (ScryfallCard.oracle_id scryfallCard) rs
                else cat
            | Throw _ => cat      (* caught and logged *)
            end in
          let fullCard :=
            option_map (with_relations cat)
              (Store.card_findUnique (Card.oracleId card)
                 (Catalog.cards cat)) in
          (Ok {| status := fuzzy; card := fullCard; candidates := None;
                 matchedFace := None; input := input |}, cat)
      end
  end.

Definition resolveCardName (cat : Catalog.t) (input : jsstring)
  : Result ResolveResult * Catalog.t :=
  let variants := Normalizer.parseCardNameVariants rt input in
  let primaryNormalized := hd [] variants in
  (* 1. exact match on the full normalized name *)
  match card_findFirst cat primaryNormalized with
  | Some card =>
      (Ok {| status := exact; card := Some card; candidates := None;
             matchedFace := None; input := input |}, cat)
  | None =>
      (* 2. match on the names of card faces *)
      match first_face cat variants with
      | Some face =>
          (Ok {| status := face_match; card := face_card cat face;
                 candidates := None;
                 matchedFace := Some (CardFace.faceIndex face);
                 input := input |}, cat)
      | None =>
          (* 3. prefix matching *)
          let candidates := prefix_candidates cat primaryNormalized in
          let exactCandidate :=
            find (fun c =>
                    JsString.eqb (Normalizer.normalizeName rt (name c))
                      primaryNormalized) candidates in
          let found :=
            match exactCandidate with
            | Some c =>
                option_map (with_relations cat)
                  (Store.card_findUnique (oracleId c) (Catalog.cards cat))
            | None => None
            end in
          match found with
          | Some card =>
              (Ok {| status := normalized; card := Some card;
                     candidates := None; matchedFace := None;
                     input := input |}, cat)
          | None =>
              if Nat.ltb 1 (length candidates)
              then
                (Ok {| status := ambiguous; card := None;
                       candidates := Some candidates; matchedFace := None;
                       input := input |}, cat)
              else
                (* 4. fall back to the Scryfall API *)
                fetchAndCacheFromScryfall cat input
          end
      end
  end.

(** [resolveCardNames]: one after the other, in input order. *)
Fixpoint resolveCardNames (cat : Catalog.t) (inputs : list jsstring)
  : Result (list ResolveResult) * Catalog.t :=
  match inputs with
  | [] => (Ok [], cat)
  | input :: rest =>
      match resolveCardName cat input with
      | (Throw e, cat) => (Throw e, cat)
      | (Ok result, cat) =>
          match resolveCardNames cat rest with
          | (Throw e, cat) => (Throw e, cat)
          | (Ok results, cat) => (Ok (result :: results), cat)
          end
      end
  end.

End WithEnvironment.

End Resolver.

(** ** Bulk sync, part 2: [startSync] and [processSyncRun] *)

Module Sync.

Inductive SyncStatus : Type :=
| DOWNLOADING | PROCESSING | PAUSED | COMPLETED | FAILED.

Inductive SyncType : Type := oracle_cards | rulings | full.

Definition SyncStatus_eqb (a b : SyncStatus) : bool :=
  match a, b with
  | DOWNLOADING, DOWNLOADING | PROCESSING, PROCESSING | PAUSED, PAUSED
  | COMPLETED, COMPLETED | FAILED, FAILED => true
  | _, _ => false
  end.

Definition SyncType_eqb (a b : SyncType) : bool :=
  match a, b with
  | oracle_cards, oracle_cards | rulings, rulings | full, full => true
  | _, _ => false
  end.

Definition BATCH_SIZE : nat := 500.
Definition MAX_RUNTIME_MS : Z := 55000.

(** A row of the table [syncRun]. *)
Module SyncRun.
Record t : Type := {
  id : jsstring;
  type : SyncType;
  status : SyncStatus;
  processed : nat;
  failed : nat;
  totalRecords : option nat;
  lastOracleId : option jsstring;
  blobUrl : option jsstring;
  blobSize : option number;
  errorMessage : option jsstring;
  startedAt : Z;
  completedAt : option Z
}.
End SyncRun.

(** The [data] of [db.syncRun.update]: a column is written when the
    payload names it; [lastOracleId: null] writes NULL. *)
Module Data.
Record t : Type := {
  status : option SyncStatus;
  processed : option nat;
  failed : option nat;
  lastOracleId : option (option jsstring);
  blobUrl : option jsstring;
  blobSize : option number;
  errorMessage : option jsstring;
  completedAt : option Z
}.

Definition or_keep {A : Type} (new : option A) (old : A) : A :=
  match new with Some v => v | None => old end.

Definition or_keep_opt {A : Type} (new : option A) (old : option A)
  : option A :=
  match new with Some v => Some v | None => old end.

Definition apply (d : t) (r : SyncRun.t) : SyncRun.t :=
  {| SyncRun.id := SyncRun.id r;
     SyncRun.type := SyncRun.type r;
     SyncRun.status := or_keep (status d) (SyncRun.status r);
     SyncRun.processed := or_keep (processed d) (SyncRun.processed r);
     SyncRun.failed := or_keep (failed d) (SyncRun.failed r);
     SyncRun.totalRecords := SyncRun.totalRecords r;
     SyncRun.lastOracleId := or_keep (lastOracleId d) (SyncRun.lastOracleId r);
     SyncRun.blobUrl := or_keep_opt (blobUrl d) (SyncRun.blobUrl r);
     SyncRun.blobSize := or_keep_opt (blobSize d) (SyncRun.blobSize r);
     SyncRun.errorMessage :=
       or_keep_opt (errorMessage d) (SyncRun.errorMessage r);
     SyncRun.startedAt := SyncRun.startedAt r;
     SyncRun.completedAt := or_keep_opt (completedAt d) (SyncRun.completedAt r)
  |}.
End Data.

(** The store as the sync sees it: the catalog and the table [syncRun]. *)
Record Database : Type := {
  catalog : Catalog.t;
  syncRuns : list SyncRun.t
}.

Module SyncProgress.
Record t : Type := {
  syncRunId : jsstring;
  status : SyncStatus;
  processed : nat;
  totalRecords : option nat;
  lastOracleId : option jsstring
}.
End SyncProgress.

(** The fields of [BulkDataInfo] that the sync reads. *)
Record BulkDataInfo : Type := {
  updated_at : jsstring;
  size : number;
  download_uri : jsstring
}.

(** What [reader.read()] gives, successively: a chunk (already decoded to
    text), or an exception; after the last item the stream is done. *)
Inductive StreamItem : Type :=
| Chunk (text : jsstring)
| Broken (message : jsstring).

(** The environment of one invocation: the successive readings of the
    clock ([Date.now()], [new Date()]), the time a date string stands for,
    the two calls of the client, [JSON.parse] on one line ([None] when it
    throws), and the id the store gives to a created run. *)
Record Env : Type := {
  clock : nat -> Z;
  dateOf : jsstring -> Z;
  getBulkDataUrl : SyncType -> Result BulkDataInfo;
  streamBulkData : jsstring -> Result (list StreamItem);
  parseCard : jsstring -> option ScryfallCard.t;
  newRunId : jsstring
}.

(** The local variables of [processSyncRun]. *)
Module Locals.
Record t : Type := {
  processed : nat;
  failed : nat;
  lastOracleId : option jsstring;
  shouldSkip : bool;
  buffer : jsstring;
  batch : list ScryfallCard.t
}.
End Locals.

Inductive LoopExit : Type :=
| TimedOut
| StreamEnd (ticks : nat)
| StreamFailed (e : Error).

Definition message_of (e : Error) : jsstring :=
  match e with
  | ScryfallError m _ _ => m
  | JsError m => m
  end.

Definition INVALID_SYNC_RUN : Error := JsError (lit "Invalid sync run").
Definition NOT_FOUND : Error := JsError (lit "Sync run not found").
Definition NOT_PAUSED : Error := JsError (lit "Sync run is not paused").

(** [x === y] for [string | null]. *)
Definition same (a b : option jsstring) : bool :=
  match a, b with
  | Some x, Some y => JsString.eqb x y
  | None, None => true
  | _, _ => false
  end.

(** Truthiness of a [string | null]: [null] and [''] are falsy. *)
Definition truthy (a : option jsstring) : bool :=
  match a with
  | Some (_ :: _) => true
  | _ => false
  end.

Definition syncRun_findUnique (id : jsstring) (runs : list SyncRun.t)
  : option SyncRun.t :=
  find (fun r => JsString.eqb (SyncRun.id r) id) runs.

(** [db.syncRun.update({ where: { id }, data })]; every call of the
    sources is on a row that exists. *)
Definition syncRun_update (id : jsstring) (d : Data.t) (db : Database)
  : Database :=
  {| catalog := catalog db;
     syncRuns :=
       map (fun r => if JsString.eqb (SyncRun.id r) id then Data.apply d r
                     else r) (syncRuns db) |}.

Definition checkpoint (status : option SyncStatus) (message : option jsstring)
  (st : Locals.t) : Data.t :=
  {| Data.status := status;
     Data.processed := Some (Locals.processed st);
     Data.failed := Some (Locals.failed st);
     Data.lastOracleId := Some (Locals.lastOracleId st);
     Data.blobUrl := None; Data.blobSize := None;
     Data.errorMessage := message; Data.completedAt := None |}.

Definition only_status (status : SyncStatus) (message : option jsstring)
  : Data.t :=
  {| Data.status := Some status;
     Data.processed := None; Data.failed := None; Data.lastOracleId := None;
     Data.blobUrl := None; Data.blobSize := None;
     Data.errorMessage := message; Data.completedAt := None |}.

Section WithEnvironment.

Variable rt : UnicodeRuntime.
Variable refuses : Constraints.
Variable env : Env.

(** The body of [for (const line of lines)]. *)
Definition processLine (resumeFromOracleId : option jsstring)
  (syncRunId : jsstring) (acc : Locals.t * Database) (line : jsstring)
  : Locals.t * Database :=
  let '(st, db) := acc in
  let trimmed := trim line in
  if (match trimmed with [] => true | _ :: _ => false end
      || JsString.eqb trimmed (lit "[") || JsString.eqb trimmed (lit "]"))%bool
  then acc
  else
    let cleanLine :=
      if endsWith trimmed [COMMA] then dropLast trimmed else trimmed in
    match parseCard env cleanLine with
    | None =>
        (* catch (parseError): failed++ *)
        ({| Locals.processed := Locals.processed st;
            Locals.failed := S (Locals.failed st);
            Locals.lastOracleId := Locals.lastOracleId st;
            Locals.shouldSkip := Locals.shouldSkip st;
            Locals.buffer := Locals.buffer st;
            Locals.batch := Locals.batch st |}, db)
    | Some card =>
        if Locals.shouldSkip st
        then
          if same (Some (ScryfallCard.oracle_id card)) resumeFromOracleId
          then
            ({| Locals.processed := Locals.processed st;
                Locals.failed := Locals.failed st;
                Locals.lastOracleId := Locals.lastOracleId st;
                Locals.shouldSkip := false;
                Locals.buffer := Locals.buffer st;
                Locals.batch := Locals.batch st |}, db)
          else acc
        else
          let batch := Locals.batch st ++ [card] in
          let lastOracleId := Some (ScryfallCard.oracle_id card) in
          if Nat.leb BATCH_SIZE (length batch)
          then
            let '((success, failures), cat) :=
              SyncUpsert.upsertCardBatch rt refuses (catalog db) batch in
            let st' :=
              {| Locals.processed := Locals.processed st + success;
                 Locals.failed := Locals.failed st + failures;
                 Locals.lastOracleId := lastOracleId;
                 Locals.shouldSkip := false;
                 Locals.buffer := Locals.buffer st;
                 Locals.batch := [] |} in
            (st',
             syncRun_update syncRunId (checkpoint None None st')
               {| catalog := cat; syncRuns := syncRuns db |})
          else
            ({| Locals.processed := Locals.processed st;
                Locals.failed := Locals.failed st;
                Locals.lastOracleId := lastOracleId;
                Locals.shouldSkip := false;
                Locals.buffer := Locals.buffer st;
                Locals.batch := batch |}, db)
    end.

(** One chunk: [buffer += text], the complete lines are processed, the
    text after the last newline stays in the buffer. *)
Definition processChunk (resumeFromOracleId : option jsstring)
  (syncRunId : jsstring) (acc : Locals.t * Database) (text : jsstring)
  : Locals.t * Database :=
  let '(st, db) := acc in
  let lines := split (Locals.buffer st ++ text) [NEWLINE] in
  let st :=
    {| Locals.processed := Locals.processed st;
       Locals.failed := Locals.failed st;
       Locals.lastOracleId := Locals.lastOracleId st;
       Locals.shouldSkip := Locals.shouldSkip st;
       Locals.buffer := last lines [];
       Locals.batch := Locals.batch st |} in
  fold_left (processLine resumeFromOracleId syncRunId) (removelast lines)
    (st, db).

(** The branch [if (done)]: the rest of the batch is upserted. *)
Definition flushRemaining (acc : Locals.t * Database) : Locals.t * Database :=
  let '(st, db) := acc in
  match Locals.batch st with
  | [] => acc
  | _ :: _ =>
      let '((success, failures), cat) :=
        SyncUpsert.upsertCardBatch rt refuses (catalog db) (Locals.batch st) in
      ({| Locals.processed := Locals.processed st + success;
          Locals.failed := Locals.failed st + failures;
          Locals.lastOracleId := Locals.lastOracleId st;
          Locals.shouldSkip := Locals.shouldSkip st;
          Locals.buffer := Locals.buffer st;
          Locals.batch := Locals.batch st |},
       {| catalog := cat; syncRuns := syncRuns db |})
  end.

(** The loop [while (true)]; [k] numbers the readings of the clock. *)
Fixpoint streamLoop (startTime : Z) (resumeFromOracleId : option jsstring)
  (syncRunId : jsstring) (k : nat) (items : list StreamItem)
  (acc : Locals.t * Database) : LoopExit * (Locals.t * Database) :=
  if (clock env k - startTime >? MAX_RUNTIME_MS)%Z then (TimedOut, acc)
  else
    match items with
    | [] => (StreamEnd (S k), flushRemaining acc)
    | Broken message :: _ => (StreamFailed (JsError message), acc)
    | Chunk text :: rest =>
        streamLoop startTime resumeFromOracleId syncRunId (S k) rest
          (processChunk resumeFromOracleId syncRunId acc text)
    end.

Definition processSyncRun (db : Database) (syncRunId : jsstring)
  : Result SyncProgress.t * Database :=
  let startTime := clock env 0 in
  match syncRun_findUnique syncRunId (syncRuns db) with
  | None => (Throw INVALID_SYNC_RUN, db)
  | Some syncRun =>
      match SyncRun.blobUrl syncRun with
      | None | Some [] => (Throw INVALID_SYNC_RUN, db)
      | Some blobUrl =>
          let db := syncRun_update syncRunId (only_status PROCESSING None) db in
          let resumeFromOracleId := SyncRun.lastOracleId syncRun in
          let st :=
            {| Locals.processed := SyncRun.processed syncRun;
               Locals.failed := SyncRun.failed syncRun;
               Locals.lastOracleId := None;
               Locals.shouldSkip := truthy resumeFromOracleId;
               Locals.buffer := [];
               Locals.batch := [] |} in
          let failed_with (e : Error) (acc : Locals.t * Database) :=
            (Throw e,
             syncRun_update syncRunId
               (checkpoint (Some FAILED) (Some (message_of e)) (fst acc))
               (snd acc)) in
          match streamBulkData env blobUrl with
          | Throw e => failed_with e (st, db)
          | Ok items =>
              match
                streamLoop startTime resumeFromOracleId syncRunId 1 items
                  (st, db)
              with
              | (TimedOut, (st, db)) =>
                  (Ok {| SyncProgress.syncRunId := syncRunId;
                         SyncProgress.status := PAUSED;
                         SyncProgress.processed := Locals.processed st;
                         SyncProgress.totalRecords :=
                           SyncRun.totalRecords syncRun;
                         SyncProgress.lastOracleId := Locals.lastOracleId st |},
                   syncRun_update syncRunId
                     (checkpoint (Some PAUSED) None st) db)
              | (StreamEnd k, (st, db)) =>
                  (Ok {| SyncProgress.syncRunId := syncRunId;
                         SyncProgress.status := COMPLETED;
                         SyncProgress.processed := Locals.processed st;
                         SyncProgress.totalRecords :=
                           Some (Locals.processed st + Locals.failed st);
                         SyncProgress.lastOracleId := None |},
                   syncRun_update syncRunId
                     {| Data.status := Some COMPLETED;
                        Data.processed := Some (Locals.processed st);
                        Data.failed := Some (Locals.failed st);
                        Data.lastOracleId := None;
                        Data.blobUrl := None; Data.blobSize := None;
                        Data.errorMessage := None;
                        Data.completedAt := Some (clock env k) |} db)
              | (StreamFailed e, acc) => failed_with e acc
              end
          end
      end
  end.

(** [db.syncRun.findFirst({ where: { type, status: 'COMPLETED' },
    orderBy: { completedAt: 'desc' } })]: [best] is the latest so far. *)
Fixpoint lastCompleted (type : SyncType) (best : option SyncRun.t)
  (runs : list SyncRun.t) : option SyncRun.t :=
  match runs with
  | [] => best
  | r :: rest =>
      let better :=
        (SyncType_eqb (SyncRun.type r) type
         && SyncStatus_eqb (SyncRun.status r) COMPLETED
         && match best, SyncRun.completedAt r with
            | None, _ => true
            | Some b, Some t =>
                match SyncRun.completedAt b with
                | Some tb => (tb <? t)%Z
                | None => false
                end
            | Some _, None => false
            end)%bool in
      lastCompleted type (if better then Some r else best) rest
  end.

Definition bulkType (type : SyncType) : SyncType :=
  match type with full => oracle_cards | t => t end.

(** [startSync(type, { force, resumeId })] *)
Definition startSync (type : SyncType) (force : bool)
  (resumeId : option jsstring) (db : Database)
  : Result SyncProgress.t * Database :=
  match resumeId with
  | Some (c :: r) =>
      let resumeId := c :: r in
      match syncRun_findUnique resumeId (syncRuns db) with
      | None => (Throw NOT_FOUND, db)
      | Some existingRun =>
          if negb (SyncStatus_eqb (SyncRun.status existingRun) PAUSED)
          then (Throw NOT_PAUSED, db)
          else processSyncRun db (SyncRun.id existingRun)
      end
  | Some [] | None =>
      let create (_ : unit) :=
        let syncRun :=
          {| SyncRun.id := newRunId env; SyncRun.type := type;
             SyncRun.status := DOWNLOADING;
             SyncRun.processed := 0; SyncRun.failed := 0;
             SyncRun.totalRecords := None; SyncRun.lastOracleId := None;
             SyncRun.blobUrl := None; SyncRun.blobSize := None;
             SyncRun.errorMessage := None;
             SyncRun.startedAt := clock env 0;
             SyncRun.completedAt := None |} in
        let db :=
          {| catalog := catalog db; syncRuns := syncRuns db ++ [syncRun] |} in
        let failed_with (e : Error) (db : Database) :=
          (Throw e,
           syncRun_update (SyncRun.id syncRun)
             (only_status FAILED (Some (message_of e))) db) in
        match getBulkDataUrl env (bulkType type) with
        | Throw e => failed_with e db
        | Ok bulkInfo =>
            let db :=
              syncRun_update (SyncRun.id syncRun)
                {| Data.status := None; Data.processed := None;
                   Data.failed := None; Data.lastOracleId := None;
                   Data.blobUrl := Some (download_uri bulkInfo);
                   Data.blobSize := Some (size bulkInfo);
                   Data.errorMessage := None; Data.completedAt := None |}
                db in
            match processSyncRun db (SyncRun.id syncRun) with
            | (Throw e, db) => failed_with e db
            | (Ok progress, db) => (Ok progress, db)
            end
        end in
      let upToDate :=
        if force then Ok None
        else
          match lastCompleted type None (syncRuns db) with
          | None => Ok None
          | Some lastSuccessfulSync =>
              match getBulkDataUrl env (bulkType type) with
              | Throw e => Throw e
              | Ok bulkInfo =>
                  match SyncRun.completedAt lastSuccessfulSync with
                  | Some t =>
                      if (dateOf env (updated_at bulkInfo) <=? t)%Z
                      then Ok (Some lastSuccessfulSync)
                      else Ok None
                  | None => Ok None
                  end
              end
          end in
      match upToDate with
      | Throw e => (Throw e, db)
      | Ok (Some lastSuccessfulSync) =>
          (Ok {| SyncProgress.syncRunId := SyncRun.id lastSuccessfulSync;
                 SyncProgress.status := COMPLETED;
                 SyncProgress.processed :=
                   SyncRun.processed lastSuccessfulSync;
                 SyncProgress.totalRecords :=
                   SyncRun.totalRecords lastSuccessfulSync;
                 SyncProgress.lastOracleId := None |}, db)
      | Ok None => create tt
      end
  end.

End WithEnvironment.

End Sync.

(** ** What an upsert does to the faces of its card *)

(** After the upsert of [c] that turns the catalog [cat] into [cat'], the
    card of [c] is stored; when [c] carries faces, the stored faces of that
    card are the rows made from them, in order, numbered from 0, and the
    faces of the other cards are as before; when [c] carries none, the
    table of faces is as before. *)
Definition faces_after_upsert (rt : UnicodeRuntime) (c : ScryfallCard.t)
  (cat cat' : Catalog.t) : Prop :=
  exists card,
    Store.card_findUnique (ScryfallCard.oracle_id c) (Catalog.cards cat')
    = Some card
    /\ match ScryfallCard.card_faces c with
       | Some (f :: fs) =>
           let stored :=
             Store.faces_of (Card.id card) (Catalog.cardFaces cat') in
           stored = Store.face_rows rt (Card.id card) 0 (f :: fs)
           /\ map CardFace.faceIndex stored = seq 0 (length (f :: fs))
           /\ map CardFace.name stored
              = map ScryfallCardFace.name (f :: fs)
           /\ forall other, other <> Card.id card ->
                Store.faces_of other (Catalog.cardFaces cat')
                = Store.faces_of other (Catalog.cardFaces cat)
       | Some [] | None => Catalog.cardFaces cat' = Catalog.cardFaces cat
       end.

(** ** Data of the examples *)

Module Examples.

Definition face (name : string) : ScryfallCardFace.t :=
  {| ScryfallCardFace.name := lit name;
     ScryfallCardFace.mana_cost := None;
     ScryfallCardFace.type_line := lit "Instant";
     ScryfallCardFace.oracle_text := None;
     ScryfallCardFace.power := None;
     ScryfallCardFace.toughness := None;
     ScryfallCardFace.loyalty := None;
     ScryfallCardFace.defense := None |}.

(** A card whose external id is [oracle_id]. *)
Definition card (oracle_id name : jsstring)
  (faces : option (list ScryfallCardFace.t)) : ScryfallCard.t :=
  {| ScryfallCard.id := lit "s-" ++ oracle_id;
     ScryfallCard.oracle_id := oracle_id;
     ScryfallCard.name := name;
     ScryfallCard.layout := lit "normal";
     ScryfallCard.mana_cost := None;
     ScryfallCard.cmc := 1%Z;
     ScryfallCard.type_line := lit "Instant";
     ScryfallCard.oracle_text := None;
     ScryfallCard.colors := None;
     ScryfallCard.color_identity := [];
     ScryfallCard.keywords := [];
     ScryfallCard.released_at := None;
     ScryfallCard.rulings_uri := [];
     ScryfallCard.card_faces := faces |}.

Definition empty_catalog : Catalog.t :=
  {| Catalog.cards := []; Catalog.cardFaces := []; Catalog.rulings := [];
     Catalog.nextCardId := 0 |}.

(** "Fire // Ice" as a split card, and the same card after an upstream
    change to a record without faces. *)
Definition fire_ice_split : ScryfallCard.t :=
  card (lit "o-fire") (lit "Fire // Ice") (Some [face "Fire"; face "Ice"]).

Definition fire_ice_single : ScryfallCard.t :=
  card (lit "o-fire") (lit "Fire // Ice") None.

Definition split_catalog : Catalog.t :=
  SyncUpsert.upsertCard_writes Latin1.runtime empty_catalog fire_ice_split.

(** A later version of the card that carries the face "Fire" only. *)
Definition fire_only : ScryfallCard.t :=
  card (lit "o-fire") (lit "Fire") (Some [face "Fire"]).

End Examples.

(** Stores with "Brainstorm" and "Brainstone", and a remote source that
    knows no card. *)
Module ResolverExamples.

Definition brainstorm : ScryfallCard.t :=
  Examples.card (lit "o-storm") (lit "Brainstorm") None.

Definition brainstone : ScryfallCard.t :=
  Examples.card (lit "o-stone") (lit "Brainstone") None.

Definition one_brain_catalog : Catalog.t :=
  SyncUpsert.upsertCard_writes Latin1.runtime Examples.empty_catalog
    brainstorm.

Definition brain_catalog : Catalog.t :=
  SyncUpsert.upsertCard_writes Latin1.runtime one_brain_catalog brainstone.

Definition remote_404 : Resolver.Remote :=
  {| Resolver.getCardByName := fun _ => Ok None;
     Resolver.getRulingsByCardId := fun _ => Ok [] |}.

Definition candidate (oracle_id name : string) : Resolver.Candidate :=
  {| Resolver.name := lit name; Resolver.oracleId := lit oracle_id;
     Resolver.typeLine := lit "Instant" |}.

End ResolverExamples.

(** ** Observations on a sync run *)

Module SyncView.

Import Sync.

(** What the loop body reads in one line: nothing (a blank line or a
    bracket), a malformed record, or a record. *)
Inductive LineKind : Type :=
| Ignored
| Malformed
| Record_ (card : ScryfallCard.t).

Definition readLine (env : Env) (line : jsstring) : LineKind :=
  let trimmed := trim line in
  if (match trimmed with [] => true | _ :: _ => false end
      || JsString.eqb trimmed (lit "[") || JsString.eqb trimmed (lit "]"))%bool
  then Ignored
  else
    match parseCard env
            (if endsWith trimmed [COMMA] then dropLast trimmed else trimmed)
    with
    | None => Malformed
    | Some card => Record_ card
    end.

(** The complete lines that the loop processes when the chunks arrive one
    after the other, starting with [buffer]. *)
Fixpoint stream_lines (buffer : jsstring) (chunks : list jsstring)
  : list jsstring :=
  match chunks with
  | [] => []
  | text :: rest =>
      let lines := split (buffer ++ text) [NEWLINE] in
      removelast lines ++ stream_lines (last lines []) rest
  end.

(** The records of the stream, in order, and the number of its malformed
    lines. *)
Fixpoint records (env : Env) (lines : list jsstring) : list ScryfallCard.t :=
  match lines with
  | [] => []
  | l :: rest =>
      match readLine env l with
      | Record_ c => c :: records env rest
      | _ => records env rest
      end
  end.

Fixpoint malformed (env : Env) (lines : list jsstring) : nat :=
  match lines with
  | [] => 0
  | l :: rest =>
      match readLine env l with
      | Malformed => S (malformed env rest)
      | _ => malformed env rest
      end
  end.

(** The catalog after the upserts of a list of records, one after the
    other, and how many of them succeeded and failed. *)
Definition upserted (rt : UnicodeRuntime) (refuses : Constraints)
  (cat : Catalog.t) (cards : list ScryfallCard.t) : Catalog.t :=
  snd (SyncUpsert.upsertCardBatch rt refuses cat cards).

Definition successes (rt : UnicodeRuntime) (refuses : Constraints)
  (cat : Catalog.t) (cards : list ScryfallCard.t) : nat :=
  fst (fst (SyncUpsert.upsertCardBatch rt refuses cat cards)).

Definition failures (rt : UnicodeRuntime) (refuses : Constraints)
  (cat : Catalog.t) (cards : list ScryfallCard.t) : nat :=
  snd (fst (SyncUpsert.upsertCardBatch rt refuses cat cards)).

Definition set_buffer (buffer : jsstring) (st : Locals.t) : Locals.t :=
  {| Locals.processed := Locals.processed st;
     Locals.failed := Locals.failed st;
     Locals.lastOracleId := Locals.lastOracleId st;
     Locals.shouldSkip := Locals.shouldSkip st;
     Locals.buffer := buffer;
     Locals.batch := Locals.batch st |}.

End SyncView.

(** A toy stream: the line [{x}] is the record whose external id is [x],
    any other non-blank line is malformed.  The first invocation runs out
    of time after its first chunk; the second one has all the time. *)
Module SyncExamples.

Import Sync.

Definition parse (s : jsstring) : option ScryfallCard.t :=
  match s with
  | 123%N :: rest =>
      if endsWith rest [125%N]
      then Some (Examples.card (dropLast rest) (dropLast rest) None)
      else None
  | _ => None
  end.

Fixpoint text (lines : list string) : jsstring :=
  match lines with
  | [] => []
  | l :: rest => lit l ++ [NEWLINE] ++ text rest
  end.

Definition blob : BulkDataInfo :=
  {| updated_at := lit "2024-01-01"; size := 64%Z;
     download_uri := lit "https://data.example/oracle-cards.json" |}.

Definition chunks : list StreamItem :=
  [Chunk (text ["["; "{a},"; "{b},"]%string);
   Chunk (text ["{c}"; "]"]%string)].

Definition first_invocation : Env :=
  {| clock := fun k => if Nat.leb k 1 then 0%Z else 60000%Z;
     dateOf := fun _ => 0%Z;
     getBulkDataUrl := fun _ => Ok blob;
     streamBulkData := fun _ => Ok chunks;
     parseCard := parse;
     newRunId := lit "run1" |}.

Definition second_invocation : Env :=
  {| clock := fun _ => 100000%Z;
     dateOf := fun _ => 0%Z;
     getBulkDataUrl := fun _ => Ok blob;
     streamBulkData := fun _ => Ok chunks;
     parseCard := parse;
     newRunId := lit "run2" |}.

Definition empty_db : Database :=
  {| catalog := Examples.empty_catalog; syncRuns := [] |}.

(** The store after the first invocation, and after the resumed one. *)
Definition paused_db : Database :=
  snd (startSync Latin1.runtime no_constraints first_invocation oracle_cards
         true None empty_db).

Definition resumed_db : Database :=
  snd (startSync Latin1.runtime no_constraints second_invocation oracle_cards
         false (Some (lit "run1")) paused_db).

(** A run paused with the checkpoint "a", after the record "a" was
    committed and counted. *)
Definition paused_at_a : Database :=
  {| catalog :=
       SyncUpsert.upsertCard_writes Latin1.runtime Examples.empty_catalog
         (Examples.card (lit "a") (lit "a") None);
     syncRuns :=
       [{| SyncRun.id := lit "run1"; SyncRun.type := oracle_cards;
           SyncRun.status := PAUSED;
           SyncRun.processed := 1; SyncRun.failed := 0;
           SyncRun.totalRecords := None;
           SyncRun.lastOracleId := Some (lit "a");
           SyncRun.blobUrl := Some (download_uri blob);
           SyncRun.blobSize := Some 64%Z;
           SyncRun.errorMessage := None;
           SyncRun.startedAt := 0%Z;
           SyncRun.completedAt := None |}] |}.

End SyncExamples.

(** Changes of single local variables, used to state what the loop does. *)
Module LocalsView.

Import Sync.

Definition with_failed (n : nat) (st : Locals.t) : Locals.t :=
  {| Locals.processed := Locals.processed st;
     Locals.failed := Locals.failed st + n;
     Locals.lastOracleId := Locals.lastOracleId st;
     Locals.shouldSkip := Locals.shouldSkip st;
     Locals.buffer := Locals.buffer st;
     Locals.batch := Locals.batch st |}.

Definition stop_skipping (st : Locals.t) : Locals.t :=
  {| Locals.processed := Locals.processed st;
     Locals.failed := Locals.failed st;
     Locals.lastOracleId := Locals.lastOracleId st;
     Locals.shouldSkip := false;
     Locals.buffer := Locals.buffer st;
     Locals.batch := Locals.batch st |}.

End LocalsView.

(** The local variables of a resumed run before it reads its first line,
    when the run had counted one record. *)
Module ResumeExample.

Import Sync.

Definition resuming : Locals.t :=
  {| Locals.processed := 1; Locals.failed := 0;
     Locals.lastOracleId := None; Locals.shouldSkip := true;
     Locals.buffer := []; Locals.batch := [] |}.


End ResumeExample.

(** ** Face names ([src/lib/utils/card-names.ts], continued) *)

Module FaceNames.

(** [extractFaceNames(fullName)] *)
Definition extractFaceNames (fullName : jsstring) : list jsstring :=
  if includes fullName Normalizer.FACE_SEPARATOR
  then map trim (split fullName Normalizer.FACE_SEPARATOR)
  else [fullName].

(** [isMultiFaceCardName(name)] *)
Definition isMultiFaceCardName (name : jsstring) : bool :=
  includes name Normalizer.FACE_SEPARATOR.

(** [combineFaceNames(frontFace, backFace)]: the template
    [`${frontFace} // ${backFace}`]. *)
Definition combineFaceNames (frontFace backFace : jsstring) : jsstring :=
  frontFace ++ [SPACE; SLASH; SLASH; SPACE] ++ backFace.

End FaceNames.

(** ** More observations on the client *)

Module ClientView.

Import Client.

Local Open Scope Z_scope.

(** The delays of the sleeps between failed attempts, oldest first. *)
Fixpoint backoff_sleeps (tr : list Event) : list (option Z) :=
  match tr with
  | [] => []
  | Slept Backoff ms :: r => ms :: backoff_sleeps r
  | _ :: r => backoff_sleeps r
  end.

(** The promise of [fetch] rejects before the abort timer fires. *)
Definition is_rejection (timeout : Z) (o : FetchOutcome) : bool :=
  match o with
  | Rejects d _ => in_time timeout d
  | Resolves _ _ => false
  end.

Definition rejection_message (o : FetchOutcome) : jsstring :=
  match o with
  | Rejects _ m => m
  | Resolves _ _ => []
  end.

(** The abort timer fires first. *)
Definition is_slow (timeout : Z) (o : FetchOutcome) : bool :=
  match o with
  | Rejects d _ | Resolves d _ => negb (in_time timeout d)
  end.

(** A response arrives in time and is not a rate-limit answer. *)
Definition answers (timeout : Z) (o : FetchOutcome) (r : Response) : Prop :=
  exists d, o = Resolves d r /\ in_time timeout d = true
            /\ (status r =? 429) = false.

(** A network whose requests all fail at once, one that answers too late,
    and one that answers 500. *)
Definition always_down : Network :=
  {| outcome := fun _ _ => Rejects 5 (lit "ECONNRESET");
     lag := fun _ => 0%N |}.

Definition too_slow : Network :=
  {| outcome := fun _ _ =>
       Resolves 40000
         {| status := 200; retryAfterHeader := None; body := [] |};
     lag := fun _ => 0%N |}.

Definition error_500 : Response :=
  {| status := 500; retryAfterHeader := None; body := lit "oops" |}.

Definition answers_500 : Network :=
  {| outcome := fun _ _ => Resolves 30 error_500; lag := fun _ => 0%N |}.

End ClientView.

(** ** Card resolver, continued: look-ups *)

Module Lookup.

Import Resolver.

(** A [number] that is an integer or NaN, as [parseInt] and [Math.min]
    give it: the route of the search UI passes
    [Math.min(parseInt(limitParam, 10), 20)]. *)
Inductive IntOrNaN : Type :=
| Int (z : Z)
| NaN.

(** [n >= limit] and [limit - n] for a length [n]. *)
Definition reached (n : nat) (limit : IntOrNaN) : bool :=
  match limit with
  | Int z => (z <=? Z.of_nat n)%Z
  | NaN => false
  end.

Definition minus (limit : IntOrNaN) (n : nat) : IntOrNaN :=
  match limit with
  | Int z => Int (z - Z.of_nat n)
  | NaN => NaN
  end.

Section WithRuntime.

Variable rt : UnicodeRuntime.

(** The order of [orderBy: { name: 'asc' }] is that of the database
    collation, which is not part of the sources: sorting is a parameter. *)
Variable orderByName : list Card.t -> list Card.t.

(** [take: n] gives the first [n] rows when [n] is a non-negative
    integer.  What the database client does with a negative or NaN [take]
    is not part of the sources: it is a parameter, which may throw. *)
Variable takeOutside : IntOrNaN -> list Card.t -> Result (list Card.t).

Definition findMany_take (n : IntOrNaN) (rows : list Card.t)
  : Result (list Card.t) :=
  match n with
  | Int z =>
      if (0 <=? z)%Z then Ok (firstn (Z.to_nat z) rows)
      else takeOutside n rows
  | NaN => takeOutside n rows
  end.

(** [autocompleteCards(query, limit = 10)] *)
Definition autocompleteCards (cat : Catalog.t) (query : jsstring)
  (limit : option IntOrNaN) : Result (list Candidate) :=
  let limit := match limit with Some n => n | None => Int 10 end in
  if Nat.ltb (length query) 2 then Ok []
  else
    let normalized := Normalizer.normalizeName rt query in
    match
      findMany_take limit
        (orderByName
           (filter (fun c => startsWith (Card.normalizedName c) normalized)
              (Catalog.cards cat)))
    with
    | Throw e => Throw e
    | Ok rows =>
        let prefixMatches := map candidate_of rows in
        if reached (length prefixMatches) limit then Ok prefixMatches
        else
          match
            findMany_take (minus limit (length prefixMatches))
              (orderByName
                 (filter
                    (fun c =>
                       (includes (Card.normalizedName c) normalized
                        && negb (startsWith (Card.normalizedName c)
                                   normalized))%bool)
                    (Catalog.cards cat)))
          with
          | Throw e => Throw e
          | Ok rows' => Ok (prefixMatches ++ map candidate_of rows')
          end
    end.

End WithRuntime.

(** [getCardByOracleId(oracleId)] *)
Definition getCardByOracleId (cat : Catalog.t) (oracleId : jsstring)
  : option CardWithRelations :=
  option_map (with_relations cat)
    (Store.card_findUnique oracleId (Catalog.cards cat)).

(** [getCardsByOracleIds(oracleIds)] *)
Definition getCardsByOracleIds (cat : Catalog.t) (oracleIds : list jsstring)
  : list CardWithRelations :=
  map (with_relations cat)
    (filter (fun c => existsb (JsString.eqb (Card.oracleId c)) oracleIds)
       (Catalog.cards cat)).

End Lookup.

(** ** What the upserts keep of the catalog *)

(** External ids and internal ids are unique, the internal ids are below
    the next fresh one, the normalized name of a card and of a face is the
    normalization of its name, every face belongs to a stored card, and
    the faces of a card are numbered 0, 1, 2, ... in the order in which
    they are stored, without a gap and without a repetition. *)
Definition well_formed (rt : UnicodeRuntime) (cat : Catalog.t) : Prop :=
  NoDup (map Card.oracleId (Catalog.cards cat))
  /\ NoDup (map Card.id (Catalog.cards cat))
  /\ (forall c, In c (Catalog.cards cat) ->
        Card.id c < Catalog.nextCardId cat)
  /\ (forall c, In c (Catalog.cards cat) ->
        Card.normalizedName c = Normalizer.normalizeName rt (Card.name c))
  /\ (forall f, In f (Catalog.cardFaces cat) ->
        CardFace.normalizedName f
        = Normalizer.normalizeName rt (CardFace.name f)
        /\ exists c, In c (Catalog.cards cat)
                     /\ Card.id c = CardFace.cardId f)
  /\ (forall id,
        map CardFace.faceIndex (Store.faces_of id (Catalog.cardFaces cat))
        = seq 0 (length (Store.faces_of id (Catalog.cardFaces cat)))).

(** The row of [db.ruling.create] for a ruling of the card [oracleId]. *)
Definition ruling_row (oracleId : jsstring) (r : ScryfallRuling.t)
  : Ruling.t :=
  {| Ruling.oracleId := oracleId;
     Ruling.publishedAt := ScryfallRuling.published_at r;
     Ruling.comment := ScryfallRuling.comment r;
     Ruling.source := ScryfallRuling.source r |}.




(** ** Bulk sync, part 3: [getSyncStatus] and [getLatestSyncRun] *)

Module SyncReport.

Import Sync.

(** [getSyncStatus(syncRunId)] *)
Definition getSyncStatus (db : Database) (syncRunId : jsstring)
  : option SyncProgress.t :=
  match syncRun_findUnique syncRunId (syncRuns db) with
  | None => None
  | Some syncRun =>
      Some {| SyncProgress.syncRunId := SyncRun.id syncRun;
              SyncProgress.status := SyncRun.status syncRun;
              SyncProgress.processed := SyncRun.processed syncRun;
              SyncProgress.totalRecords := SyncRun.totalRecords syncRun;
              SyncProgress.lastOracleId := SyncRun.lastOracleId syncRun |}
  end.

(** [db.syncRun.findFirst({ where: { type }, orderBy: { startedAt: 'desc' }
    })]: [best] is the latest so far; among runs started at the same time
    the first stored one is taken. *)
Fixpoint latestStarted (type : SyncType) (best : option SyncRun.t)
  (runs : list SyncRun.t) : option SyncRun.t :=
  match runs with
  | [] => best
  | r :: rest =>
      let better :=
        (SyncType_eqb (SyncRun.type r) type
         && match best with
            | None => true
            | Some b => (SyncRun.startedAt b <? SyncRun.startedAt r)%Z
            end)%bool in
      latestStarted type (if better then Some r else best) rest
  end.

(** [getLatestSyncRun(type)], for a [type] that is one of the three sync
    types. *)
Definition getLatestSyncRun (db : Database) (type : SyncType)
  : option SyncProgress.t :=
  match latestStarted type None (syncRuns db) with
  | None => None
  | Some syncRun =>
      Some {| SyncProgress.syncRunId := SyncRun.id syncRun;
              SyncProgress.status := SyncRun.status syncRun;
              SyncProgress.processed := SyncRun.processed syncRun;
              SyncProgress.totalRecords := SyncRun.totalRecords syncRun;
              SyncProgress.lastOracleId := SyncRun.lastOracleId syncRun |}
  end.

End SyncReport.

(** ** Bulk sync, part 4: [syncRulings] *)

Module SyncRulings.

(** Whether the store refuses the creation of a ruling row (a date that
    is no date, a violated constraint); a refused creation throws. *)
Definition RulingConstraints : Type := Catalog.t -> Ruling.t -> bool.

(** The [Map] from external ids to rulings, as the list of its entries in
    insertion order.  [group_add] is [get(k) || []], [push], [set(k, _)]:
    a key that is present keeps its place. *)
Fixpoint group_add (oracleId : jsstring) (ruling : ScryfallRuling.t)
  (groups : list (jsstring * list ScryfallRuling.t))
  : list (jsstring * list ScryfallRuling.t) :=
  match groups with
  | [] => [(oracleId, [ruling])]
  | (k, existing) :: rest =>
      if JsString.eqb k oracleId then (k, existing ++ [ruling]) :: rest
      else (k, existing) :: group_add oracleId ruling rest
  end.

Definition rulingsByOracleId (rulings : list ScryfallRuling.t)
  : list (jsstring * list ScryfallRuling.t) :=
  fold_left
    (fun groups ruling =>
       group_add (ScryfallRuling.oracle_id ruling) ruling groups)
    rulings [].

(** [db.ruling.deleteMany({ where: { oracleId } })] *)
Definition ruling_deleteMany (oracleId : jsstring) (cat : Catalog.t)
  : Catalog.t :=
  {| Catalog.cards := Catalog.cards cat;
     Catalog.cardFaces := Catalog.cardFaces cat;
     Catalog.rulings :=
       filter (fun r => negb (JsString.eqb (Ruling.oracleId r) oracleId))
         (Catalog.rulings cat);
     Catalog.nextCardId := Catalog.nextCardId cat |}.

(** The loop of [db.ruling.create]: [false] when a creation throws; the
    rows created before it stay. *)
Fixpoint ruling_createAll (refuses : RulingConstraints) (oracleId : jsstring)
  (cardRulings : list ScryfallRuling.t) (cat : Catalog.t)
  : bool * Catalog.t :=
  match cardRulings with
  | [] => (true, cat)
  | ruling :: rest =>
      let row := ruling_row oracleId ruling in
      if refuses cat row then (false, cat)
      else
        ruling_createAll refuses oracleId rest
          {| Catalog.cards := Catalog.cards cat;
             Catalog.cardFaces := Catalog.cardFaces cat;
             Catalog.rulings := Catalog.rulings cat ++ [row];
             Catalog.nextCardId := Catalog.nextCardId cat |}
  end.

(** The body of [for (const [oracleId, cardRulings] of rulingsByOracleId)]. *)
Definition syncGroup (refuses : RulingConstraints)
  (acc : (nat * nat) * Catalog.t)
  (group : jsstring * list ScryfallRuling.t) : (nat * nat) * Catalog.t :=
  let '((success, failures), cat) := acc in
  let '(oracleId, cardRulings) := group in
  match Store.card_findUnique oracleId (Catalog.cards cat) with
  | None => acc
  | Some _ =>
      match
        ruling_createAll refuses oracleId cardRulings
          (ruling_deleteMany oracleId cat)
      with
      | (true, cat') => ((S success, failures), cat')
      | (false, cat') => ((success, S failures), cat')
      end
  end.

(** [syncRulings(rulings)]: the counters [(success, failures)] and the
    store afterwards. *)
Definition syncRulings (refuses : RulingConstraints) (cat : Catalog.t)
  (rulings : list ScryfallRuling.t) : (nat * nat) * Catalog.t :=
  fold_left (syncGroup refuses) (rulingsByOracleId rulings) ((0, 0), cat).

Definition no_ruling_constraints : RulingConstraints := fun _ _ => false.

End SyncRulings.


(** ** Observations on the loop and on the rows of a run *)

Module LoopView.

Import Sync.

(** The local variables at the start of the loop, as [processSyncRun]
    sets them: the batch is below its size, and a run that skips has an
    empty batch and no checkpoint of its own. *)
Definition ready (st : Locals.t) : Prop :=
  length (Locals.batch st) < BATCH_SIZE
  /\ (Locals.shouldSkip st = true ->
      Locals.batch st = [] /\ Locals.lastOracleId st = None).

(** What holds of the loop from the state [(st0, db0)] on: the batch stays
    below its size, the counters do not decrease, and as long as the run
    skips it has batched, counted and stored nothing. *)
Definition loop_invariant (st0 : Locals.t) (db0 : Database)
  (acc : Locals.t * Database) : Prop :=
  length (Locals.batch (fst acc)) < BATCH_SIZE
  /\ Locals.processed st0 <= Locals.processed (fst acc)
  /\ Locals.failed st0 <= Locals.failed (fst acc)
  /\ (Locals.shouldSkip (fst acc) = true ->
      Locals.batch (fst acc) = [] /\ Locals.lastOracleId (fst acc) = None
      /\ catalog (snd acc) = catalog db0
      /\ Locals.processed (fst acc) = Locals.processed st0).

(** The table [syncRun] after updates of the row [rid]: the row is still
    there, with the columns that no update writes, and the other rows are
    as they were. *)
Definition row_kept (rid : jsstring) (db db' : Database) : Prop :=
  (forall other, other <> rid ->
     syncRun_findUnique other (syncRuns db')
     = syncRun_findUnique other (syncRuns db))
  /\ (forall r, syncRun_findUnique rid (syncRuns db) = Some r ->
        exists r',
          syncRun_findUnique rid (syncRuns db') = Some r'
          /\ SyncRun.id r' = SyncRun.id r
          /\ SyncRun.type r' = SyncRun.type r
          /\ SyncRun.totalRecords r' = SyncRun.totalRecords r
          /\ SyncRun.startedAt r' = SyncRun.startedAt r).

End LoopView.

(** A run paused with a checkpoint that is the external id of no record of
    the toy stream. *)
Module RunExamples.

Import Sync.

Definition paused_row : SyncRun.t :=
  {| SyncRun.id := lit "run1"; SyncRun.type := oracle_cards;
     SyncRun.status := PAUSED;
     SyncRun.processed := 1; SyncRun.failed := 0;
     SyncRun.totalRecords := None;
     SyncRun.lastOracleId := Some (lit "z");
     SyncRun.blobUrl := Some (download_uri SyncExamples.blob);
     SyncRun.blobSize := Some 64%Z;
     SyncRun.errorMessage := None;
     SyncRun.startedAt := 0%Z;
     SyncRun.completedAt := None |}.

Definition paused_at_z : Database :=
  {| catalog := Examples.empty_catalog; syncRuns := [paused_row] |}.

Definition first_chunk : jsstring :=
  SyncExamples.text ["["; "{a},"; "{b},"]%string.

Definition second_chunk : jsstring :=
  SyncExamples.text ["{c}"; "]"]%string.

End RunExamples.


(** A stream of 501 records, the first 500 of them (one batch) in its
    first chunk.  The line of the [n]-th record is [{xy},] where the two
    letters [xy] are its external id.  An invocation that runs out of time
    after its first chunk, and one that has all the time. *)
Module RepauseExample.

Import Sync.

Definition oracle_id_of (n : nat) : jsstring :=
  [N.of_nat (97 + n / 26); N.of_nat (97 + n mod 26)].

Definition line_of (n : nat) : jsstring :=
  [123%N] ++ oracle_id_of n ++ [125%N; COMMA; NEWLINE].

Definition first_chunk : jsstring :=
  lit "[" ++ [NEWLINE] ++ concat (map line_of (seq 0 500)).

Definition second_chunk : jsstring :=
  line_of 500 ++ lit "]" ++ [NEWLINE].

Definition chunks : list StreamItem :=
  [Chunk first_chunk; Chunk second_chunk].

Definition out_of_time_after_first_chunk : Env :=
  {| clock := fun k => if Nat.leb k 1 then 0%Z else 60000%Z;
     dateOf := fun _ => 0%Z;
     getBulkDataUrl := fun _ => Ok SyncExamples.blob;
     streamBulkData := fun _ => Ok chunks;
     parseCard := SyncExamples.parse;
     newRunId := lit "run1" |}.

Definition all_the_time : Env :=
  {| clock := fun _ => 100000%Z;
     dateOf := fun _ => 0%Z;
     getBulkDataUrl := fun _ => Ok SyncExamples.blob;
     streamBulkData := fun _ => Ok chunks;
     parseCard := SyncExamples.parse;
     newRunId := lit "run2" |}.

(** The store after the first invocation (a forced sync of the empty
    store), after a first resumed invocation that runs out of time, and
    after a second resumed invocation that reads the stream to its end. *)
Definition paused_db : Database :=
  snd (startSync Latin1.runtime no_constraints out_of_time_after_first_chunk
         oracle_cards true None SyncExamples.empty_db).

Definition paused_again_db : Database :=
  snd (startSync Latin1.runtime no_constraints out_of_time_after_first_chunk
         oracle_cards false (Some (lit "run1")) paused_db).

Definition completed_db : Database :=
  snd (startSync Latin1.runtime no_constraints all_the_time
         oracle_cards false (Some (lit "run1")) paused_again_db).

(** What a row of [syncRun] says on the progress of its run. *)
Definition progress_of (r : SyncRun.t)
  : SyncStatus * nat * nat * option jsstring :=
  (SyncRun.status r, SyncRun.processed r, SyncRun.failed r,
   SyncRun.lastOracleId r).

End RepauseExample.

(** A store with one completed run, and rulings for a stored card and
    for an unknown one. *)
Module StartExamples.

Import Sync.

Definition completed_db : Database :=
  snd (startSync Latin1.runtime no_constraints SyncExamples.second_invocation
         oracle_cards true None SyncExamples.empty_db).

Definition completed_row : SyncRun.t :=
  hd RunExamples.paused_row (syncRuns completed_db).

End StartExamples.

Module RulingExamples.

Definition ruling (oracle_id comment : string) : ScryfallRuling.t :=
  {| ScryfallRuling.oracle_id := lit oracle_id;
     ScryfallRuling.source := lit "wotc";
     ScryfallRuling.published_at := lit "2020-01-01";
     ScryfallRuling.comment := lit comment |}.

Definition sample : list ScryfallRuling.t :=
  [ruling "o-storm" "first"; ruling "o-none" "orphan";
   ruling "o-storm" "second"].

End RulingExamples.


(* ===================================================================== *)
(** * Part II: properties                                                  *)
(* ===================================================================== *)

(** ** Strings *)

Module JsStringFacts.

Lemma eqb_eq (a b : jsstring) : JsString.eqb a b = true <-> a = b.
Proof.
  unfold JsString.eqb.
  destruct (list_eq_dec N.eq_dec a b); split; congruence.
Qed.

Lemma eqb_neq (a b : jsstring) : JsString.eqb a b = false <-> a <> b.
Proof.
  unfold JsString.eqb.
  destruct (list_eq_dec N.eq_dec a b); split; congruence.
Qed.

Lemma eqb_refl (a : jsstring) : JsString.eqb a a = true.
Proof. now apply eqb_eq. Qed.

Lemma filter_all {A : Type} (p : A -> bool) (l : list A) :
  forallb p l = true -> filter p l = l.
Proof.
  induction l as [|a l IH]; simpl; [reflexivity|].
  intros H. apply andb_true_iff in H as [Ha Hl].
  rewrite Ha. f_equal. auto.
Qed.

Lemma forallb_filter {A : Type} (p q : A -> bool) (l : list A) :
  forallb p l = true -> forallb p (filter q l) = true.
Proof.
  induction l as [|a l IH]; simpl; [reflexivity|].
  intros H. apply andb_true_iff in H as [Ha Hl].
  destruct (q a); simpl; [rewrite Ha|]; auto.
Qed.

Lemma forallb_filter_both {A : Type} (p q : A -> bool) (l : list A) :
  forallb p l = true ->
  forallb (fun a => q a && p a)%bool (filter q l) = true.
Proof.
  induction l as [|a l IH]; simpl; [reflexivity|].
  intros H. apply andb_true_iff in H as [Ha Hl].
  destruct (q a) eqn:Hq; simpl; [rewrite Hq, Ha|]; auto.
Qed.

Lemma forallb_impl {A : Type} (p q : A -> bool) (l : list A) :
  (forall a, p a = true -> q a = true) ->
  forallb p l = true -> forallb q l = true.
Proof.
  intros Hpq. induction l as [|a l IH]; simpl; [reflexivity|].
  intros H. apply andb_true_iff in H as [Ha Hl].
  rewrite (Hpq a Ha). auto.
Qed.

Lemma map_fixed {A : Type} (f : A -> A) (p : A -> bool) (l : list A) :
  (forall a, p a = true -> f a = a) ->
  forallb p l = true -> map f l = l.
Proof.
  intros Hf. induction l as [|a l IH]; simpl; [reflexivity|].
  intros H. apply andb_true_iff in H as [Ha Hl].
  rewrite (Hf a Ha). f_equal. auto.
Qed.

(** *** Trimming *)

Lemma trimStart_clean (s : jsstring) :
  Normalizer.starts_clean (trimStart s) = true.
Proof.
  induction s as [|c r IH]; simpl; [reflexivity|].
  destruct (is_space c) eqn:Hc; [exact IH|]. simpl. now rewrite Hc.
Qed.

Lemma trimStart_fixed (s : jsstring) :
  Normalizer.starts_clean s = true -> trimStart s = s.
Proof.
  destruct s as [|c r]; simpl; [reflexivity|].
  intros H. apply negb_true_iff in H. now rewrite H.
Qed.

Lemma trimEnd_clean (s : jsstring) :
  Normalizer.starts_clean s = true ->
  Normalizer.starts_clean (trimEnd s) = true.
Proof.
  destruct s as [|c r]; simpl; [reflexivity|].
  intros H. destruct (trimEnd r); [|exact H].
  apply negb_true_iff in H. rewrite H. simpl. now rewrite H.
Qed.

Lemma trimEnd_idempotent (s : jsstring) : trimEnd (trimEnd s) = trimEnd s.
Proof.
  induction s as [|c r IH]; simpl; [reflexivity|].
  destruct (trimEnd r) as [|x t] eqn:Ht.
  - destruct (is_space c) eqn:Hc; simpl; [reflexivity|]. now rewrite Hc.
  - change (trimEnd (c :: x :: t)) with
      (match trimEnd (x :: t) with
       | [] => if is_space c then [] else [c]
       | r' => c :: r' end).
    now rewrite IH.
Qed.

Lemma trim_idempotent (s : jsstring) : trim (trim s) = trim s.
Proof.
  unfold trim.
  rewrite (trimStart_fixed (trimEnd (trimStart s))).
  - apply trimEnd_idempotent.
  - apply trimEnd_clean, trimStart_clean.
Qed.

Lemma forallb_trimStart (p : code_unit -> bool) (s : jsstring) :
  forallb p s = true -> forallb p (trimStart s) = true.
Proof.
  induction s as [|c r IH]; simpl; [reflexivity|].
  intros H. destruct (is_space c); [|exact H].
  apply andb_true_iff in H as [_ H]. auto.
Qed.

Lemma forallb_trimEnd (p : code_unit -> bool) (s : jsstring) :
  forallb p s = true -> forallb p (trimEnd s) = true.
Proof.
  induction s as [|c r IH]; simpl; [reflexivity|].
  intros H. apply andb_true_iff in H as [Hc Hr].
  specialize (IH Hr). destruct (trimEnd r) as [|x t].
  - destruct (is_space c); simpl; [reflexivity|]. now rewrite Hc.
  - simpl in *. now rewrite Hc, IH.
Qed.

Lemma forallb_trim (p : code_unit -> bool) (s : jsstring) :
  forallb p s = true -> forallb p (trim s) = true.
Proof. intros H. now apply forallb_trimEnd, forallb_trimStart. Qed.

End JsStringFacts.

(** ** Name normalizer *)

Module NormalizerFacts.

Import Normalizer JsStringFacts.

Local Open Scope N_scope.

(** Facts on one code unit are arithmetic on its number. *)
Ltac code_units :=
  unfold final_char, kept, is_word, is_upper, is_lower, is_digit, is_space,
    is_combining_mark, is_ascii, ascii_lower, in_range,
    SPACE, APOSTROPHE, SLASH, HYPHEN in *;
  repeat rewrite ?orb_true_iff, ?andb_true_iff, ?orb_false_iff,
    ?andb_false_iff, ?negb_true_iff, ?negb_false_iff, ?N.leb_le, ?N.leb_gt,
    ?N.eqb_eq, ?N.eqb_neq, ?N.ltb_lt, ?N.ltb_ge in *;
  try lia.

Lemma final_char_ascii c : final_char c = true -> is_ascii c = true.
Proof. code_units. Qed.

Lemma final_char_not_upper c : final_char c = true -> is_upper c = false.
Proof. code_units. Qed.

Lemma final_char_lower c : final_char c = true -> ascii_lower c = c.
Proof.
  intros H. unfold ascii_lower. now rewrite (final_char_not_upper c H).
Qed.

Lemma final_char_not_mark c :
  final_char c = true -> negb (is_combining_mark c) = true.
Proof. code_units. Qed.

Lemma final_char_kept c : final_char c = true -> kept c = true.
Proof. code_units. Qed.

Lemma kept_final c :
  (kept c && negb (is_upper c))%bool = true -> is_space c = false ->
  final_char c = true.
Proof. code_units. Qed.

Lemma fold_apostrophes_id (s : jsstring) : fold_apostrophes s = s.
Proof.
  unfold fold_apostrophes. induction s as [|c r IH]; simpl; [reflexivity|].
  rewrite IH. f_equal.
  destruct (N.eqb c 39) eqn:Hc; simpl; [|reflexivity].
  apply N.eqb_eq in Hc. now subst.
Qed.

(** *** Collapsing white space *)

Lemma collapse_single_spaced (b : bool) (s : jsstring) :
  single_spaced b (collapse_from b s) = true.
Proof.
  revert b. induction s as [|c r IH]; intros b; simpl; [reflexivity|].
  destruct (is_space c) eqn:Hc.
  - destruct b; [apply IH|]. simpl. apply IH.
  - simpl. rewrite Hc. apply IH.
Qed.

Lemma collapse_fixed (b : bool) (s : jsstring) :
  single_spaced b s = true -> collapse_from b s = s.
Proof.
  revert b. induction s as [|c r IH]; intros b; simpl; [reflexivity|].
  destruct (is_space c) eqn:Hc; intros H.
  - apply andb_true_iff in H as [H Hr]. apply andb_true_iff in H as [Hb Heq].
    apply negb_true_iff in Hb. subst b. apply N.eqb_eq in Heq. subst c.
    f_equal. auto.
  - f_equal. auto.
Qed.

Lemma collapse_final (b : bool) (s : jsstring) :
  forallb (fun c => kept c && negb (is_upper c))%bool s = true ->
  forallb final_char (collapse_from b s) = true.
Proof.
  revert b. induction s as [|c r IH]; intros b; simpl; [reflexivity|].
  intros H. apply andb_true_iff in H as [Hc Hr].
  destruct (is_space c) eqn:Hs.
  - destruct b; [auto|].
    change (forallb final_char (SPACE :: collapse_from true r))
      with (final_char SPACE && forallb final_char (collapse_from true r))%bool.
    replace (final_char SPACE) with true by reflexivity. simpl. auto.
  - cbn [forallb]. rewrite (kept_final c Hc Hs). simpl. auto.
Qed.

Lemma single_spaced_trimStart (b : bool) (s : jsstring) :
  single_spaced b s = true -> single_spaced false (trimStart s) = true.
Proof.
  revert b. induction s as [|c r IH]; intros b; simpl; [reflexivity|].
  destruct (is_space c) eqn:Hc; intros H.
  - apply andb_true_iff in H as [_ Hr]. eauto.
  - simpl. now rewrite Hc.
Qed.

Lemma single_spaced_trimEnd (b : bool) (s : jsstring) :
  single_spaced b s = true -> single_spaced b (trimEnd s) = true.
Proof.
  revert b. induction s as [|c r IH]; intros b; [reflexivity|].
  intros H. simpl in H. simpl trimEnd.
  destruct (is_space c) eqn:Hc.
  - apply andb_true_iff in H as [Hb Hr]. specialize (IH true Hr).
    destruct (trimEnd r) as [|x t]; [reflexivity|].
    simpl. rewrite Hc. simpl in IH. now rewrite Hb, IH.
  - specialize (IH false H).
    destruct (trimEnd r) as [|x t]; simpl; rewrite Hc; [reflexivity|].
    exact IH.
Qed.

(** *** Normalized names are canonical, canonical names are fixed *)

Section WithRuntime.

Variable rt : UnicodeRuntime.
Hypothesis laws : RuntimeLaws rt.

Lemma normalizeName_canonical (name : jsstring) :
  canonical (normalizeName rt name).
Proof.
  unfold normalizeName, collapse_whitespace, remove_special.
  rewrite fold_apostrophes_id.
  set (s := strip_marks (normalizeNFD rt (toLowerCase rt name))).
  assert (Hs : forallb (fun c => negb (is_upper c)) s = true).
  { apply forallb_filter, (lowered_nfd_no_upper laws). }
  repeat split.
  - apply forallb_trim, collapse_final. now apply forallb_filter_both.
  - apply single_spaced_trimEnd, (single_spaced_trimStart false).
    apply collapse_single_spaced.
  - apply trim_idempotent.
Qed.

Lemma normalizeName_fixed (s : jsstring) :
  canonical s -> normalizeName rt s = s.
Proof.
  intros (Hchars & Hspaces & Htrim). unfold normalizeName.
  assert (Hascii : forallb is_ascii s = true).
  { apply (forallb_impl _ _ _ final_char_ascii Hchars). }
  rewrite (toLowerCase_ascii laws s Hascii).
  rewrite (map_fixed _ _ _ final_char_lower Hchars).
  rewrite (normalizeNFD_ascii laws s Hascii).
  unfold strip_marks.
  rewrite (filter_all _ _ (forallb_impl _ _ _ final_char_not_mark Hchars)).
  rewrite fold_apostrophes_id. unfold remove_special.
  rewrite (filter_all _ _ (forallb_impl _ _ _ final_char_kept Hchars)).
  unfold collapse_whitespace. rewrite (collapse_fixed _ _ Hspaces).
  exact Htrim.
Qed.

(** C7. The name normalizer is idempotent: normalizing a normalized name
    changes nothing.  The runtime's [toLowerCase] and [normalize('NFD')]
    enter through the three facts of [RuntimeLaws]. *)
Theorem normalizeName_idempotent (x : jsstring) :
  normalizeName rt (normalizeName rt x) = normalizeName rt x.
Proof. apply normalizeName_fixed, normalizeName_canonical. Qed.

End WithRuntime.

End NormalizerFacts.

(** ** The Latin-1 runtime satisfies the laws *)

Module Latin1Facts.

Import Normalizer JsStringFacts NormalizerFacts.

Local Open Scope N_scope.

Lemma lookup_in (c : code_unit) (t : list (code_unit * jsstring)) d :
  Latin1.lookup c t = Some d -> In (c, d) t.
Proof.
  induction t as [|[k v] t IH]; simpl; [discriminate|].
  destruct (N.eqb k c) eqn:Hk.
  - intros [= <-]. apply N.eqb_eq in Hk. subst. now left.
  - right. auto.
Qed.

Lemma lower_reachable (c : code_unit) :
  Latin1.reachable (Latin1.lower c) = true.
Proof.
  unfold Latin1.reachable, Latin1.lower.
  destruct (is_upper c || in_range 192 222 c && negb (N.eqb c 215))%bool
    eqn:Hc; [|now rewrite Hc].
  revert Hc. code_units.
Qed.

Lemma table_checked :
  forallb (fun kv => negb (Latin1.reachable (fst kv))
                     || forallb (fun c => negb (is_upper c)) (snd kv))%bool
    Latin1.decompositions = true.
Proof. vm_compute. reflexivity. Qed.

Lemma table_keys :
  forallb (fun kv => N.leb 192 (fst kv)) Latin1.decompositions = true.
Proof. vm_compute. reflexivity. Qed.

Lemma decompose_reachable (c : code_unit) :
  Latin1.reachable c = true ->
  forallb (fun c => negb (is_upper c)) (Latin1.decompose c) = true.
Proof.
  intros Hc. unfold Latin1.decompose.
  destruct (Latin1.lookup c Latin1.decompositions) as [d|] eqn:Hd.
  - apply lookup_in in Hd.
    pose proof (proj1 (forallb_forall _ _) table_checked _ Hd) as H.
    simpl in H. rewrite Hc in H. exact H.
  - simpl. rewrite andb_true_r. revert Hc. unfold Latin1.reachable.
    rewrite negb_orb. intros H. now apply andb_true_iff in H as [H _].
Qed.

Lemma decompose_ascii (c : code_unit) :
  is_ascii c = true -> Latin1.decompose c = [c].
Proof.
  intros Hc. unfold Latin1.decompose.
  destruct (Latin1.lookup c Latin1.decompositions) as [d|] eqn:Hd;
    [|reflexivity].
  apply lookup_in in Hd.
  pose proof (proj1 (forallb_forall _ _) table_keys _ Hd) as H.
  simpl in H. revert Hc H. code_units.
Qed.

Lemma lower_ascii (c : code_unit) :
  is_ascii c = true -> Latin1.lower c = ascii_lower c.
Proof.
  intros Hc. unfold Latin1.lower, ascii_lower.
  destruct (is_upper c) eqn:Hu; [reflexivity|].
  replace (in_range 192 222 c) with false; [reflexivity|].
  symmetry. revert Hc. code_units.
Qed.

Lemma laws : RuntimeLaws Latin1.runtime.
Proof.
  constructor; simpl.
  - induction s as [|c r IH]; simpl; [reflexivity|].
    intros H. apply andb_true_iff in H as [Hc Hr].
    now rewrite (lower_ascii c Hc), IH.
  - induction s as [|c r IH]; simpl; [reflexivity|].
    intros H. apply andb_true_iff in H as [Hc Hr].
    now rewrite (decompose_ascii c Hc), IH.
  - induction s as [|c r IH]; simpl; [reflexivity|].
    rewrite forallb_app, IH, andb_true_r.
    apply decompose_reachable, lower_reachable.
Qed.

End Latin1Facts.

(** ** Name variants *)

Module VariantFacts.

Import Normalizer JsStringFacts NormalizerFacts.

Lemma existsb_eqb_In (y : jsstring) (l : list jsstring) :
  existsb (JsString.eqb y) l = true <-> In y l.
Proof.
  rewrite existsb_exists. split.
  - intros (x & Hx & Heq). apply eqb_eq in Heq. now subst.
  - intros H. exists y. split; [exact H|apply eqb_refl].
Qed.

(** The [Set] of the source and the wording of the specification agree. *)
Lemma set_spread_from (xs seen seen' : list jsstring) :
  (forall y, In y seen <-> In y seen') ->
  fold_left set_add xs seen = seen ++ first_seen seen' xs.
Proof.
  revert seen seen'. induction xs as [|x r IH]; intros seen seen' Hsame;
    simpl; [now rewrite app_nil_r|].
  unfold set_add at 2.
  assert (Hx : existsb (JsString.eqb x) seen = existsb (JsString.eqb x) seen').
  { apply eq_true_iff_eq. rewrite !existsb_eqb_In. apply Hsame. }
  rewrite <- Hx. destruct (existsb (JsString.eqb x) seen).
  - now apply IH.
  - rewrite (IH (seen ++ [x]) (x :: seen')).
    + now rewrite <- app_assoc.
    + intros y. rewrite in_app_iff. simpl. rewrite (Hsame y). tauto.
Qed.

Lemma set_spread_first_seen (xs : list jsstring) :
  set_spread xs = first_seen [] xs.
Proof. unfold set_spread. now rewrite (set_spread_from xs [] []). Qed.

Lemma first_seen_In (xs seen : list jsstring) (y : jsstring) :
  In y (first_seen seen xs) <-> In y xs /\ ~ In y seen.
Proof.
  revert seen. induction xs as [|x r IH]; intros seen; simpl; [tauto|].
  destruct (existsb (JsString.eqb x) seen) eqn:Hx.
  - apply existsb_eqb_In in Hx. rewrite IH. split.
    + tauto.
    + intros [[->|H] Hn]; [contradiction|tauto].
  - assert (Hn : ~ In x seen).
    { intros H. apply existsb_eqb_In in H. congruence. }
    simpl. rewrite IH. simpl. split.
    + intros [->|(H & H')]; [tauto|]. split; [tauto|]. tauto.
    + intros [[->|H] H']; [tauto|].
      destruct (list_eq_dec N.eq_dec x y) as [->|Hxy]; [tauto|]. right.
      split; [exact H|]. intros [E|E]; [congruence|contradiction].
Qed.

Lemma first_seen_NoDup (xs seen : list jsstring) :
  NoDup (first_seen seen xs).
Proof.
  revert seen. induction xs as [|x r IH]; intros seen; simpl;
    [constructor|].
  destruct (existsb (JsString.eqb x) seen); [apply IH|].
  constructor; [|apply IH].
  rewrite first_seen_In. simpl. tauto.
Qed.

Section WithRuntime.

Variable rt : UnicodeRuntime.
Hypothesis laws : RuntimeLaws rt.

Lemma normalizeName_ascii (s : jsstring) :
  forallb is_ascii s = true ->
  forallb is_ascii (map ascii_lower s) = true ->
  normalizeName rt s =
  trim (collapse_whitespace (remove_special (strip_marks (map ascii_lower s)))).
Proof.
  intros Hs Hl. unfold normalizeName.
  now rewrite (toLowerCase_ascii laws s Hs), (normalizeNFD_ascii laws _ Hl),
    fold_apostrophes_id.
Qed.

(** C8. [parseCardNameVariants] gives the normalized input first; when it
    contains [//], the trimmed pieces between the separators follow in
    order; a value is kept the first time it is seen only.  On
    ["Fire // Ice"] the result is ["fire // ice"], ["fire"], ["ice"]. *)
Theorem parseCardNameVariants_spec (input : jsstring) :
  let normalized := normalizeName rt input in
  let faces :=
    if includes normalized FACE_SEPARATOR
    then map trim (split normalized FACE_SEPARATOR) else [] in
  let variants := parseCardNameVariants rt input in
  variants = first_seen [] (normalized :: faces)
  /\ (exists rest, variants = normalized :: rest)
  /\ NoDup variants
  /\ (forall v, In v variants <-> In v (normalized :: faces))
  /\ parseCardNameVariants rt (lit "Fire // Ice")
     = [lit "fire // ice"; lit "fire"; lit "ice"].
Proof.
  intros normalized faces variants.
  assert (Hspec : variants = first_seen [] (normalized :: faces)).
  { unfold variants, parseCardNameVariants, faces.
    fold normalized. rewrite set_spread_first_seen.
    destruct (includes normalized FACE_SEPARATOR); reflexivity. }
  split; [exact Hspec|]. rewrite Hspec. repeat split.
  - simpl. eexists. reflexivity.
  - apply first_seen_NoDup.
  - rewrite first_seen_In. tauto.
  - rewrite first_seen_In. tauto.
  - unfold parseCardNameVariants.
    rewrite normalizeName_ascii by reflexivity. vm_compute. reflexivity.
Qed.

End WithRuntime.

(** C7 on the Latin-1 runtime, at ["Lim-Dul's Vault"] written with a
    circumflex. *)
Lemma normalizeName_idempotent_witness :
  RuntimeLaws Latin1.runtime
  /\ normalizeName Latin1.runtime
       (normalizeName Latin1.runtime
          (lit "Lim-D" ++ [251%N] ++ lit "l's   Vault"))
     = normalizeName Latin1.runtime
         (lit "Lim-D" ++ [251%N] ++ lit "l's   Vault").
Proof.
  split; [exact Latin1Facts.laws|].
  apply (normalizeName_idempotent Latin1Facts.laws).
Defined.

(** C8 on the Latin-1 runtime. *)
Lemma parseCardNameVariants_spec_witness :
  RuntimeLaws Latin1.runtime
  /\ parseCardNameVariants Latin1.runtime (lit "Fire // Ice")
     = [lit "fire // ice"; lit "fire"; lit "ice"].
Proof.
  split; [exact Latin1Facts.laws|].
  apply (parseCardNameVariants_spec Latin1Facts.laws (lit "Fire // Ice")).
Defined.

End VariantFacts.

(** ** Rate-limited client *)

Module ClientFacts.

Import Client.

Local Open Scope Z_scope.

Lemma departures_app (a b : list Event) :
  departures (a ++ b) = departures a ++ departures b.
Proof.
  induction a as [|e a IH]; simpl; [reflexivity|].
  destruct e; simpl; now rewrite IH.
Qed.

Lemma rate_limit_sleeps_app (a b : list Event) :
  rate_limit_sleeps (a ++ b) = rate_limit_sleeps a ++ rate_limit_sleeps b.
Proof.
  induction a as [|e a IH]; simpl; [reflexivity|].
  destruct e as [[] ms| | |]; simpl; now rewrite IH.
Qed.

Lemma spaced_snoc (gap : Z) (ts : list Z) (t : Z) :
  spaced gap ts = true -> (forall x, In x ts -> x + gap <= t) ->
  spaced gap (ts ++ [t]) = true.
Proof.
  induction ts as [|a r IH]; [reflexivity|].
  intros Hs Hle. destruct r as [|b r].
  - simpl. rewrite andb_true_r. apply Z.leb_le, Hle. now left.
  - simpl in Hs. apply andb_true_iff in Hs as [Hab Hr].
    change (spaced gap ((a :: b :: r) ++ [t]))
      with ((a + gap <=? b) && spaced gap ((b :: r) ++ [t]))%bool.
    rewrite Hab. simpl andb. apply IH; [exact Hr|].
    intros x Hx. apply Hle. now right.
Qed.

Lemma spaced_consecutive (gap : Z) (ts pre post : list Z) (a b : Z) :
  spaced gap ts = true -> ts = pre ++ a :: b :: post -> a + gap <= b.
Proof.
  revert ts. induction pre as [|p pre IH]; intros ts Hs ->.
  - simpl in Hs. apply andb_true_iff in Hs as [H _]. now apply Z.leb_le.
  - apply (IH (pre ++ a :: b :: post)); [|reflexivity].
    simpl in Hs. destruct (pre ++ a :: b :: post) eqn:E.
    + now destruct pre.
    + now apply andb_true_iff in Hs as [_ H].
Qed.

(** *** Timers *)

Lemma timer_delay_pos (ms : option Z) : 1 <= timer_delay ms.
Proof.
  unfold timer_delay, TIMEOUT_MAX. destruct ms as [d|]; [|lia].
  destruct (d <? 1) eqn:E1; simpl; [lia|].
  destruct (2147483647 <? d); [lia|]. apply Z.ltb_ge in E1. lia.
Qed.

Lemma timer_delay_exact (d : Z) :
  1 <= d <= TIMEOUT_MAX -> timer_delay (Some d) = d.
Proof.
  intros [H1 H2]. unfold timer_delay.
  replace (d <? 1) with false by (symmetry; apply Z.ltb_ge; lia).
  replace (TIMEOUT_MAX <? d) with false by (symmetry; apply Z.ltb_ge; lia).
  reflexivity.
Qed.

(** *** The throttle *)

Lemma throttle_trace_departures (net : Network) (w : World) :
  departures (trace (throttle net w)) = departures (trace w).
Proof.
  unfold throttle. destruct (now w - lastRequest w <? minDelay); simpl;
    [|reflexivity].
  rewrite departures_app. simpl. apply app_nil_r.
Qed.

(** The throttle releases a request no earlier than [minDelay] after the
    previous one, when [lastRequest] is a past reading of the clock. *)
Lemma throttle_waits (net : Network) (w : World) :
  0 <= lastRequest w <= now w ->
  lastRequest w + minDelay <= now (throttle net w)
  /\ lastRequest (throttle net w) = now (throttle net w)
  /\ now w <= now (throttle net w).
Proof.
  intros Hclock. unfold throttle, sleep.
  destruct (now w - lastRequest w <? minDelay) eqn:E; cbn [now lastRequest].
  - apply Z.ltb_lt in E. rewrite timer_delay_exact.
    + repeat split; lia.
    + unfold minDelay, TIMEOUT_MAX in *. lia.
  - apply Z.ltb_ge in E. repeat split; lia.
Qed.

Lemma sleep_spaced (net : Network) why ms (w : World) :
  well_spaced w -> well_spaced (sleep net why ms w).
Proof.
  intros (Hs & Hle & Hclock). unfold well_spaced, sleep; simpl.
  rewrite departures_app; simpl. rewrite app_nil_r.
  pose proof (timer_delay_pos ms). repeat split; auto; lia.
Qed.

(** A request that leaves after the throttle keeps the requests spaced. *)
Lemma throttled_fetch_spaced (net : Network) url timeout (w : World) :
  well_spaced w ->
  well_spaced (snd (fetch net url timeout (throttle net w))).
Proof.
  intros (Hs & Hle & Hclock).
  destruct (throttle_waits net w Hclock) as (Hwait & Hlast & Hnow).
  pose proof (throttle_trace_departures net w) as Hdep.
  set (w1 := throttle net w) in *.
  assert (Hdeps : forall d : Z,
    departures (trace w1 ++ [Departed (now w1); Settled (now w1 + d)])
    = departures (trace w) ++ [now w1]).
  { intros. rewrite departures_app, Hdep. reflexivity. }
  assert (H : spaced minDelay (departures (trace w) ++ [now w1]) = true
              /\ forall t, In t (departures (trace w) ++ [now w1]) ->
                           t <= lastRequest w1).
  { split.
    - apply spaced_snoc; [exact Hs|]. intros x Hx. specialize (Hle x Hx). lia.
    - intros t Ht. apply in_app_iff in Ht as [Ht|[<-|[]]]; [|lia].
      specialize (Hle t Ht). unfold minDelay in *. lia. }
  pose proof (timer_delay_pos (Some timeout)) as Hpos.
  unfold well_spaced, fetch.
  destruct (outcome net (fetches w1) url) as [d r|d m];
    destruct (in_time timeout d);
    cbn [snd now lastRequest trace]; rewrite Hdeps;
    (split; [apply H|split; [apply H|lia]]).
Qed.

Lemma attempts_spaced (net : Network) url retries timeout left attempt w :
  well_spaced w ->
  well_spaced (snd (attempts net url retries timeout left attempt w)).
Proof.
  revert attempt w. induction left as [|left IH]; intros attempt w Hw;
    [exact Hw|].
  simpl. pose proof (throttled_fetch_spaced net url timeout Hw) as Hf.
  destruct (fetch net url timeout (throttle net w)) as [f w1]. simpl in Hf.
  destruct f as [r| |m].
  - destruct (status r =? 429); [|exact Hf]. apply IH, sleep_spaced, Hf.
  - exact Hf.
  - destruct (Nat.eqb attempt (retries - 1)); [exact Hf|].
    apply IH, sleep_spaced, Hf.
Qed.

(** The download leaves outside the throttle: it is no request of
    [fetchWithBackoff], and it does not touch [lastRequest]. *)
Lemma download_spaced (net : Network) url (w : World) :
  well_spaced w -> well_spaced (snd (streamBulkData net url w)).
Proof.
  intros (Hs & Hle & Hclock). unfold well_spaced, streamBulkData.
  destruct (outcome net (fetches w) url) as [d r|d m]; simpl;
    rewrite departures_app; simpl; rewrite app_nil_r;
    (split; [exact Hs|split; [exact Hle|lia]]).
Qed.

Lemma run_spaced (net : Network) (acts : list Action) (w : World) :
  well_spaced w -> well_spaced (run net acts w).
Proof.
  revert w. induction acts as [|[url r t|url|ms] acts IH]; intros w Hw; simpl.
  - exact Hw.
  - apply IH. unfold fetchWithBackoff. now apply attempts_spaced.
  - apply IH. now apply download_spaced.
  - apply IH. destruct Hw as (Hs & Hle & Hclock).
    unfold well_spaced, idle; simpl. repeat split; auto; lia.
Qed.

(** C6, as the code has it.  Through any sequence of calls of the shared
    client, one after the other, two consecutive requests of
    [fetchWithBackoff] leave at least [minDelay] (100 ms) apart: the
    throttle measures from the moment the previous such request left, not
    from the moment its call completed.  The requests of [streamBulkData],
    which may come in between, are outside the throttle.  The clock starts
    at a reading [t0] of [Date.now()], which is not negative. *)
Theorem consecutive_departures_spaced (net : Network) (acts : list Action)
  (t0 : Z) (pre post : list Z) (a b : Z) :
  0 <= t0 ->
  departures (trace (run net acts (initial t0))) = pre ++ a :: b :: post ->
  a + minDelay <= b.
Proof.
  intros Ht0 H.
  assert (Hinit : well_spaced (initial t0)).
  { split; [reflexivity|]. split; [intros t []|]. simpl. lia. }
  destruct (run_spaced net acts Hinit) as [Hs _].
  exact (@spaced_consecutive minDelay _ pre post a b Hs H).
Qed.

(** C6 on two calls answered after 20 ms each, with a download in
    between: the second call comes back to the throttle 40 ms after the
    first request left and is held for 60 ms; the requests of the two
    calls leave at 1000 and 1100. *)
Lemma consecutive_departures_spaced_witness :
  trace (run fast_200 [Call [] None None; Download []; Call [] None None]
           (initial 1000))
  = [Departed 1000; Settled 1020; Streamed 1020; Settled 1040;
     Slept Throttled (Some 60); Departed 1100; Settled 1120]
  /\ 1000 + minDelay <= 1100.
Proof.
  split; [reflexivity|].
  apply (@consecutive_departures_spaced fast_200
           [Call [] None None; Download []; Call [] None None] 1000 [] []
           1000 1100); [lia|reflexivity].
Defined.

(** C6 as stated fails, in two ways.  The second request of two calls
    leaves at the very moment the first call completes, 500 ms after the
    first request left: the throttle does not count from the completion.
    And the request of [streamBulkData], which calls [fetch] without the
    throttle, leaves at the very moment the previous call completes, 20 ms
    after the request before it, and leaves [lastRequest] as it was. *)
Lemma departure_at_completion :
  trace (run slow_200 [Call [] None None; Call [] None None] (initial 1000))
  = [Departed 1000; Settled 1500; Departed 1500; Settled 2000]
  /\ after_settlement minDelay None
       (trace (run slow_200 [Call [] None None; Call [] None None]
                 (initial 1000))) = false
  /\ trace (run fast_200 [Call [] None None; Download []] (initial 1000))
     = [Departed 1000; Settled 1020; Streamed 1020; Settled 1040]
  /\ requests (trace (run fast_200 [Call [] None None; Download []]
                        (initial 1000))) = [1000; 1020]
  /\ spaced minDelay
       (requests (trace (run fast_200 [Call [] None None; Download []]
                           (initial 1000)))) = false
  /\ after_settlement minDelay None
       (trace (run fast_200 [Call [] None None; Download []]
                 (initial 1000))) = false
  /\ lastRequest (run fast_200 [Call [] None None; Download []]
                    (initial 1000)) = 1000.
Proof. repeat split; reflexivity. Qed.

(** Calls that overlap are not kept apart either: a caller that enters
    10 ms after another one, 50 ms after the last request, wakes up at the
    same moment as the other, and both requests leave together. *)
Lemma overlapping_callers_leave_together :
  now (throttle slow_200 just_after_request) = 1050
  /\ now (idle 10 just_after_request) = 1010
  /\ overlapping_departures slow_200 10 just_after_request = (1050, 1050).
Proof. repeat split; reflexivity. Qed.

End ClientFacts.

(** ** Rate-limit answers and the retry budget *)

Module RetryFacts.

Import Client ClientFacts.

Local Open Scope Z_scope.

Lemma throttle_fetches (net : Network) (w : World) :
  fetches (throttle net w) = fetches w
  /\ rate_limit_sleeps (trace (throttle net w)) = rate_limit_sleeps (trace w).
Proof.
  unfold throttle. destruct (now w - lastRequest w <? minDelay); simpl;
    [|split; reflexivity].
  rewrite rate_limit_sleeps_app. simpl. now rewrite app_nil_r.
Qed.

Lemma wait_default (d : N) (r : Response) :
  retryAfterHeader r = None -> rate_limit_wait (Resolves d r) = Some 1000.
Proof. intros H. unfold rate_limit_wait, retryAfter. now rewrite H. Qed.

Lemma attempts_all_429 (net : Network) url retries timeout left attempt w :
  (forall k, (k < left)%nat ->
     is_rate_limit timeout (outcome net (fetches w + k) url) = true) ->
  fst (attempts net url retries timeout left attempt w)
  = Throw MAX_RETRIES_EXCEEDED
  /\ fetches (snd (attempts net url retries timeout left attempt w))
     = (fetches w + left)%nat
  /\ rate_limit_sleeps
       (trace (snd (attempts net url retries timeout left attempt w)))
     = rate_limit_sleeps (trace w)
       ++ map (fun k => rate_limit_wait (outcome net (fetches w + k) url))
            (seq 0 left).
Proof.
  revert attempt w. induction left as [|left IH]; intros attempt w Hall.
  - simpl. rewrite Nat.add_0_r, app_nil_r. auto.
  - destruct (throttle_fetches net w) as [Hf Hsl].
    pose proof (Hall 0%nat ltac:(lia)) as H0. rewrite Nat.add_0_r in H0.
    cbn [attempts]. unfold fetch. rewrite Hf.
    destruct (outcome net (fetches w) url) as [d r|d m] eqn:Ho;
      [|discriminate].
    simpl in H0. apply andb_true_iff in H0 as [Hd Hst].
    rewrite Hd, Hst.
    match goal with
    | |- context [attempts _ _ _ _ left (S attempt) ?w'] => set (w2 := w')
    end.
    assert (Hf2 : fetches w2 = S (fetches w)) by (unfold w2; simpl; congruence).
    assert (Hs2 : rate_limit_sleeps (trace w2)
                  = rate_limit_sleeps (trace w)
                    ++ [rate_limit_wait (Resolves d r)]).
    { unfold w2, sleep; cbn [trace].
      rewrite !rate_limit_sleeps_app, Hsl. simpl. now rewrite app_nil_r. }
    destruct (IH (S attempt) w2) as (Hres & Hcount & Hsleeps).
    { intros k Hk. rewrite Hf2.
      replace (S (fetches w) + k)%nat with (fetches w + S k)%nat by lia.
      apply Hall. lia. }
    split; [exact Hres|]. split; [rewrite Hcount, Hf2; lia|].
    rewrite Hsleeps, Hs2, <- app_assoc. f_equal.
    cbn [seq map app]. rewrite Nat.add_0_r, Ho. f_equal.
    rewrite <- seq_shift, map_map. apply map_ext. intros k.
    rewrite Hf2. f_equal. f_equal. lia.
Qed.

(** C4, as the code has it.  A rate-limit answer (429) makes the client
    sleep the delay the server asks for (one second without a Retry-After
    header) and try again, and every such retry takes one slot of the
    retry budget: when the first [retries] answers (3 by default) are all
    429, the client has made [retries] requests, slept after each, and
    fails with the max-retries error. *)
Theorem rate_limit_consumes_budget (net : Network) (url : jsstring)
  (retries : option nat) (timeout : option Z) (w : World) :
  let n := match retries with Some n => n | None => 3%nat end in
  let t := match timeout with Some t => t | None => 30000 end in
  (forall k, (k < n)%nat ->
     is_rate_limit t (outcome net (fetches w + k) url) = true) ->
  fst (fetchWithBackoff net url retries timeout w)
  = Throw MAX_RETRIES_EXCEEDED
  /\ fetches (snd (fetchWithBackoff net url retries timeout w))
     = (fetches w + n)%nat
  /\ rate_limit_sleeps
       (trace (snd (fetchWithBackoff net url retries timeout w)))
     = rate_limit_sleeps (trace w)
       ++ map (fun k => rate_limit_wait (outcome net (fetches w + k) url))
            (seq 0 n)
  /\ (forall d r, retryAfterHeader r = None ->
        rate_limit_wait (Resolves d r) = Some 1000).
Proof.
  intros n t Hall. unfold fetchWithBackoff. fold n t.
  destruct (@attempts_all_429 net url n t n 0%nat w Hall) as (H1 & H2 & H3).
  repeat split; auto using wait_default.
Qed.

(** C4 on a network that always answers 429, with the default budget. *)
Lemma rate_limit_consumes_budget_witness :
  (forall k, (k < 3)%nat ->
     is_rate_limit 30000
       (outcome always_429 (fetches (initial 1000) + k) []) = true)
  /\ fst (fetchWithBackoff always_429 [] None None (initial 1000))
     = Throw MAX_RETRIES_EXCEEDED.
Proof.
  assert (H : forall k, (k < 3)%nat ->
     is_rate_limit 30000
       (outcome always_429 (fetches (initial 1000) + k) []) = true).
  { intros k _. reflexivity. }
  split; [exact H|].
  apply (@rate_limit_consumes_budget always_429 [] None None (initial 1000) H).
Defined.

(** C4 as stated fails: three rate-limit answers in a row use up the
    default budget; the client gives up with the max-retries error and
    never makes the fourth request, which would have been answered. *)
Lemma three_429_exhaust_budget :
  fst (fetchWithBackoff three_429_then_200 [] None None (initial 1000))
  = Throw MAX_RETRIES_EXCEEDED
  /\ fetches (snd (fetchWithBackoff three_429_then_200 [] None None
                     (initial 1000))) = 3%nat
  /\ rate_limit_sleeps
       (trace (snd (fetchWithBackoff three_429_then_200 [] None None
                      (initial 1000))))
     = [Some 2000; Some 1000; Some 1000]
  /\ status
       match outcome three_429_then_200 3 [] with
       | Resolves _ r => r
       | Rejects _ _ => {| status := 0; retryAfterHeader := None; body := [] |}
       end = 200.
Proof. repeat split; reflexivity. Qed.

End RetryFacts.

(** ** Upserts and faces *)

Module UpsertFacts.

Import JsStringFacts.

Lemma card_upsert_found (rt : UnicodeRuntime) (fresh : nat)
  (c : ScryfallCard.t) (rows : list Card.t) :
  Store.card_findUnique (ScryfallCard.oracle_id c)
    (snd (fst (Store.card_upsert rt fresh c rows)))
  = Some (fst (fst (Store.card_upsert rt fresh c rows))).
Proof.
  unfold Store.card_findUnique.
  induction rows as [|x rest IH]; simpl.
  - now rewrite eqb_refl.
  - destruct (JsString.eqb (Card.oracleId x) (ScryfallCard.oracle_id c))
      eqn:Hx; simpl.
    + now rewrite eqb_refl.
    + destruct (Store.card_upsert rt fresh c rest) as [[r rest'] created].
      simpl in *. now rewrite Hx.
Qed.

Lemma face_rows_cardId (rt : UnicodeRuntime) (id i : nat)
  (fs : list ScryfallCardFace.t) :
  forallb (fun f => Nat.eqb (CardFace.cardId f) id) (Store.face_rows rt id i fs)
  = true.
Proof.
  revert i. induction fs as [|f fs IH]; intros i; simpl; [reflexivity|].
  now rewrite Nat.eqb_refl, IH.
Qed.

Lemma face_rows_index (rt : UnicodeRuntime) (id i : nat)
  (fs : list ScryfallCardFace.t) :
  map CardFace.faceIndex (Store.face_rows rt id i fs) = seq i (length fs).
Proof.
  revert i. induction fs as [|f fs IH]; intros i; simpl; [reflexivity|].
  now rewrite IH.
Qed.

Lemma face_rows_name (rt : UnicodeRuntime) (id i : nat)
  (fs : list ScryfallCardFace.t) :
  map CardFace.name (Store.face_rows rt id i fs)
  = map ScryfallCardFace.name fs.
Proof.
  revert i. induction fs as [|f fs IH]; intros i; simpl; [reflexivity|].
  now rewrite IH.
Qed.

Lemma filter_none {A : Type} (p : A -> bool) (l : list A) :
  forallb (fun a => negb (p a)) l = true -> filter p l = [].
Proof.
  induction l as [|a l IH]; simpl; [reflexivity|].
  intros H. apply andb_true_iff in H as [Ha Hl].
  apply negb_true_iff in Ha. rewrite Ha. auto.
Qed.

(** The faces of card [id] after [deleteMany] on [id] and the creation of
    the new rows are the new rows; those of another card are untouched. *)
Lemma faces_of_replaced (rt : UnicodeRuntime) (id : nat)
  (rows : list CardFace.t) (fs : list ScryfallCardFace.t) :
  Store.faces_of id
    (Store.cardFace_deleteMany id rows ++ Store.face_rows rt id 0 fs)
  = Store.face_rows rt id 0 fs.
Proof.
  unfold Store.faces_of, Store.cardFace_deleteMany.
  rewrite filter_app, (filter_all _ _ (face_rows_cardId rt id 0 fs)).
  rewrite filter_none; [reflexivity|].
  induction rows as [|f rows IH]; simpl; [reflexivity|].
  destruct (Nat.eqb (CardFace.cardId f) id) eqn:Hf; simpl; [exact IH|].
  now rewrite Hf, IH.
Qed.

Lemma faces_of_other (rt : UnicodeRuntime) (id other : nat)
  (rows : list CardFace.t) (fs : list ScryfallCardFace.t) :
  other <> id ->
  Store.faces_of other
    (Store.cardFace_deleteMany id rows ++ Store.face_rows rt id 0 fs)
  = Store.faces_of other rows.
Proof.
  intros Hne. unfold Store.faces_of, Store.cardFace_deleteMany.
  rewrite filter_app, (filter_none _ (Store.face_rows rt id 0 fs)).
  - rewrite app_nil_r. induction rows as [|f rows IH]; simpl; [reflexivity|].
    destruct (Nat.eqb (CardFace.cardId f) id) eqn:Hf; simpl.
    + apply Nat.eqb_eq in Hf.
      destruct (Nat.eqb (CardFace.cardId f) other) eqn:Ho; [|exact IH].
      apply Nat.eqb_eq in Ho. congruence.
    + now rewrite IH.
  - refine (forallb_impl _ _ _ _ (face_rows_cardId rt id 0 fs)).
    intros f Hf. apply Nat.eqb_eq in Hf. apply negb_true_iff, Nat.eqb_neq.
    congruence.
Qed.

Lemma sync_writes_faces (rt : UnicodeRuntime) (cat : Catalog.t)
  (c : ScryfallCard.t) :
  faces_after_upsert rt c cat (SyncUpsert.upsertCard_writes rt cat c).
Proof.
  unfold faces_after_upsert, SyncUpsert.upsertCard_writes.
  pose proof (card_upsert_found rt (Catalog.nextCardId cat) c
                (Catalog.cards cat)) as Hfound.
  destruct (Store.card_upsert rt (Catalog.nextCardId cat) c
              (Catalog.cards cat)) as [[card rows] created].
  simpl in Hfound. exists card. split; [exact Hfound|].
  destruct (ScryfallCard.card_faces c) as [[|f fs]|]; cbn [Catalog.cardFaces];
    [reflexivity| |reflexivity].
  cbv zeta. rewrite faces_of_replaced. repeat split.
  - apply face_rows_index.
  - apply face_rows_name.
  - intros other Hne. now apply faces_of_other.
Qed.

Lemma resolver_writes_same (rt : UnicodeRuntime) (cat : Catalog.t)
  (c : ScryfallCard.t) :
  snd (Resolver.upsertCardFromScryfall_writes rt cat c)
  = SyncUpsert.upsertCard_writes rt cat c.
Proof.
  unfold Resolver.upsertCardFromScryfall_writes,
    SyncUpsert.upsertCard_writes.
  destruct (Store.card_upsert rt (Catalog.nextCardId cat) c
              (Catalog.cards cat)) as [[card rows] created].
  reflexivity.
Qed.

(** *** Upserts write by write *)

Section Writes.

Variable rt : UnicodeRuntime.
Variable refuses : Constraints.

Lemma with_faces_same (cat : Catalog.t) :
  Store.with_faces (Catalog.cardFaces cat) cat = cat.
Proof. now destruct cat. Qed.

(** The loop of [create] appends the rows of the first [k] faces, all of
    them unless a creation is refused. *)
Lemma createFaces_shape (id : nat) (fs : list ScryfallCardFace.t) :
  forall (i : nat) (cat : Catalog.t),
  exists k,
    k <= length fs
    /\ snd (Store.createFaces rt refuses id i fs cat)
       = Store.with_faces
           (Catalog.cardFaces cat ++ Store.face_rows rt id i (firstn k fs))
           cat
    /\ (forall u, fst (Store.createFaces rt refuses id i fs cat) = Ok u ->
        k = length fs)
    /\ ((forall cat0 w, refuses cat0 w = false) ->
        fst (Store.createFaces rt refuses id i fs cat) = Ok tt).
Proof.
  induction fs as [|f fs IH]; intros i cat; cbn [Store.createFaces].
  - exists 0. cbn. rewrite app_nil_r, with_faces_same. auto.
  - destruct (refuses cat (FaceCreate (Store.face_row rt id i f))) eqn:E.
    + exists 0. cbn. rewrite app_nil_r, with_faces_same.
      split; [lia|]. split; [reflexivity|]. split; [discriminate|].
      intros Hno. rewrite Hno in E. discriminate.
    + destruct (IH (S i)
                  (Store.with_faces
                     (Catalog.cardFaces cat ++ [Store.face_row rt id i f])
                     cat)) as (k & Hk & Hsnd & Hok & Hno).
      exists (S k). rewrite Hsnd. cbn. rewrite <- app_assoc.
      split; [lia|]. split; [reflexivity|]. split; [|exact Hno].
      intros u Hu. f_equal. now apply (Hok u).
Qed.

(** The catalog after [upsertCard], whatever its outcome: nothing is
    written, or the card only, or the card and, after the deletion of its
    faces, the rows of the first [k] incoming faces.  The upsert returns
    only in the second shape for a record without faces and in the third
    with all the faces. *)
Lemma upsertCard_shape (cat : Catalog.t) (c : ScryfallCard.t) :
  let card := fst (Store.card_written rt cat c) in
  let cat1 := snd (Store.card_written rt cat c) in
  let res := fst (SyncUpsert.upsertCard rt refuses cat c) in
  let cat' := snd (SyncUpsert.upsertCard rt refuses cat c) in
  (cat' = cat /\ res = Throw WRITE_REFUSED)
  \/ (cat' = cat1
      /\ (forall u, res = Ok u ->
            match ScryfallCard.card_faces c with
            | Some (_ :: _) => False
            | _ => True
            end))
  \/ exists f fs k,
       ScryfallCard.card_faces c = Some (f :: fs)
       /\ k <= length (f :: fs)
       /\ cat' = Store.with_faces
                   (Store.cardFace_deleteMany (Card.id card)
                      (Catalog.cardFaces cat1)
                    ++ Store.face_rows rt (Card.id card) 0
                         (firstn k (f :: fs))) cat1
       /\ (forall u, res = Ok u -> k = length (f :: fs)).
Proof.
  cbv zeta. unfold SyncUpsert.upsertCard.
  destruct (refuses cat (CardUpsert c)); [left; split; reflexivity|].
  destruct (Store.card_written rt cat c) as [card cat1]. cbn [fst snd].
  destruct (ScryfallCard.card_faces c) as [[|f fs]|] eqn:Hfaces;
    [right; left; cbn; auto| |right; left; cbn; auto].
  destruct (refuses cat1 (FaceDeleteMany (Card.id card))).
  { right. left. cbn. split; [reflexivity|discriminate]. }
  right. right.
  destruct (createFaces_shape (Card.id card) (f :: fs) 0
              (Store.with_faces
                 (Store.cardFace_deleteMany (Card.id card)
                    (Catalog.cardFaces cat1)) cat1))
    as (k & Hk & Hsnd & Hok & _).
  exists f, fs, k. split; [reflexivity|]. split; [exact Hk|].
  split; [exact Hsnd|exact Hok].
Qed.

Lemma card_written_writes (cat : Catalog.t) (c : ScryfallCard.t) :
  SyncUpsert.upsertCard_writes rt cat c
  = match ScryfallCard.card_faces c with
    | Some (f :: fs) =>
        Store.with_faces
          (Store.cardFace_deleteMany
             (Card.id (fst (Store.card_written rt cat c)))
             (Catalog.cardFaces (snd (Store.card_written rt cat c)))
           ++ Store.face_rows rt
                (Card.id (fst (Store.card_written rt cat c))) 0 (f :: fs))
          (snd (Store.card_written rt cat c))
    | Some [] | None => snd (Store.card_written rt cat c)
    end.
Proof.
  unfold SyncUpsert.upsertCard_writes, Store.card_written.
  destruct (Store.card_upsert rt (Catalog.nextCardId cat) c
              (Catalog.cards cat)) as [[card rows] created].
  destruct (ScryfallCard.card_faces c) as [[|f fs]|]; reflexivity.
Qed.

(** An upsert that returns has made all its writes. *)
Lemma upsertCard_accepted (cat cat' : Catalog.t) (c : ScryfallCard.t)
  (u : unit) :
  SyncUpsert.upsertCard rt refuses cat c = (Ok u, cat') ->
  cat' = SyncUpsert.upsertCard_writes rt cat c.
Proof.
  intros H. rewrite card_written_writes.
  destruct (upsertCard_shape cat c)
    as [[_ Hres]|[[Hcat Hres]|(f & fs & k & Hf & Hk & Hcat & Hres)]];
    cbv zeta in *; rewrite H in *; cbn [fst snd] in *.
  - discriminate.
  - specialize (Hres u eq_refl).
    destruct (ScryfallCard.card_faces c) as [[|f fs]|]; tauto.
  - rewrite Hf, Hcat, (Hres u eq_refl), firstn_all. reflexivity.
Qed.

(** When the store refuses no write, the upsert returns. *)
Lemma upsertCard_unrefused (cat : Catalog.t) (c : ScryfallCard.t) :
  (forall cat0 w, refuses cat0 w = false) ->
  SyncUpsert.upsertCard rt refuses cat c
  = (Ok tt, SyncUpsert.upsertCard_writes rt cat c).
Proof.
  intros Hno.
  assert (Hfst : fst (SyncUpsert.upsertCard rt refuses cat c) = Ok tt).
  { unfold SyncUpsert.upsertCard. rewrite Hno.
    destruct (Store.card_written rt cat c) as [card cat1].
    destruct (ScryfallCard.card_faces c) as [[|f fs]|]; try reflexivity.
    rewrite Hno.
    now destruct (createFaces_shape (Card.id card) (f :: fs) 0
                    (Store.with_faces
                       (Store.cardFace_deleteMany (Card.id card)
                          (Catalog.cardFaces cat1)) cat1))
      as (_ & _ & _ & _ & ->). }
  destruct (SyncUpsert.upsertCard rt refuses cat c) as [res cat'] eqn:E.
  cbn [fst] in Hfst. subst res. f_equal.
  exact (upsertCard_accepted _ _ E).
Qed.

(** The upsert of the resolver makes the writes of the upsert of the
    sync, and returns the row of the card when that one returns. *)
Lemma resolver_same (cat : Catalog.t) (c : ScryfallCard.t) :
  snd (Resolver.upsertCardFromScryfall rt refuses cat c)
  = snd (SyncUpsert.upsertCard rt refuses cat c)
  /\ (forall card,
        fst (Resolver.upsertCardFromScryfall rt refuses cat c) = Ok card ->
        fst (SyncUpsert.upsertCard rt refuses cat c) = Ok tt
        /\ card = fst (Store.card_written rt cat c))
  /\ (forall u,
        fst (SyncUpsert.upsertCard rt refuses cat c) = Ok u ->
        fst (Resolver.upsertCardFromScryfall rt refuses cat c)
        = Ok (fst (Store.card_written rt cat c)))
  /\ (forall e,
        fst (Resolver.upsertCardFromScryfall rt refuses cat c) = Throw e <->
        fst (SyncUpsert.upsertCard rt refuses cat c) = Throw e).
Proof.
  unfold Resolver.upsertCardFromScryfall, SyncUpsert.upsertCard.
  destruct (refuses cat (CardUpsert c)).
  { cbn. repeat split; try discriminate; auto;
      intros [= <-]; reflexivity. }
  destruct (Store.card_written rt cat c) as [card cat1]. cbn [fst snd].
  destruct (ScryfallCard.card_faces c) as [[|f fs]|].
  - cbn. repeat split; try discriminate; auto; congruence.
  - destruct (refuses cat1 (FaceDeleteMany (Card.id card))).
    { cbn. repeat split; try discriminate; auto;
        intros [= <-]; reflexivity. }
    destruct (Store.createFaces rt refuses (Card.id card) 0 (f :: fs) _)
      as [[[]|e] cat2]; cbn; repeat split; try discriminate; auto;
      try congruence; intros [= <-]; reflexivity.
  - cbn. repeat split; try discriminate; auto; congruence.
Qed.

Lemma resolver_accepted (cat cat' : Catalog.t) (c : ScryfallCard.t)
  (card : Card.t) :
  Resolver.upsertCardFromScryfall rt refuses cat c = (Ok card, cat') ->
  SyncUpsert.upsertCard rt refuses cat c = (Ok tt, cat')
  /\ cat' = SyncUpsert.upsertCard_writes rt cat c
  /\ card = fst (Store.card_written rt cat c).
Proof.
  intros H. destruct (resolver_same cat c) as (Hsnd & Hok & _).
  rewrite H in *. cbn [fst snd] in *.
  destruct (Hok card eq_refl) as [Hfst Hcard].
  assert (E : SyncUpsert.upsertCard rt refuses cat c = (Ok tt, cat')).
  { destruct (SyncUpsert.upsertCard rt refuses cat c) as [res cat2].
    cbn [fst snd] in *. congruence. }
  split; [exact E|]. split; [exact (upsertCard_accepted _ _ E)|exact Hcard].
Qed.

End Writes.

(** C5, as the code has it.  An upsert that the store accepts (it returns
    without throwing), in the sync ([upsertCard]) and in the resolver
    ([upsertCardFromScryfall]) alike, replaces the faces of its card in
    full when the incoming record carries at least one face: the stored
    faces are then the incoming ones, in order, with indices 0, 1, 2, ...,
    and no earlier face row of the card is left.  An incoming record
    without faces leaves the table of faces as it was.  When the store
    refuses no write, both upserts are accepted. *)
Theorem upsert_replaces_faces (rt : UnicodeRuntime) (refuses : Constraints)
  (cat : Catalog.t) (c : ScryfallCard.t) :
  (forall cat',
     SyncUpsert.upsertCard rt refuses cat c = (Ok tt, cat') ->
     faces_after_upsert rt c cat cat')
  /\ (forall card cat',
        Resolver.upsertCardFromScryfall rt refuses cat c = (Ok card, cat') ->
        faces_after_upsert rt c cat cat')
  /\ ((forall cat0 w, refuses cat0 w = false) ->
      exists card cat',
        SyncUpsert.upsertCard rt refuses cat c = (Ok tt, cat')
        /\ Resolver.upsertCardFromScryfall rt refuses cat c
           = (Ok card, cat')).
Proof.
  split; [|split].
  - intros cat' H. rewrite (@upsertCard_accepted rt refuses cat cat' c tt H).
    apply sync_writes_faces.
  - intros card cat' H.
    destruct (@resolver_accepted rt refuses cat cat' c card H)
      as (_ & -> & _).
    apply sync_writes_faces.
  - intros Hno. pose proof (@upsertCard_unrefused rt refuses cat c Hno) as E.
    destruct (resolver_same rt refuses cat c) as (Hsnd & _ & Hok & _).
    rewrite E in *. cbn [fst snd] in *.
    exists (fst (Store.card_written rt cat c)),
      (SyncUpsert.upsertCard_writes rt cat c).
    split; [reflexivity|].
    rewrite <- Hsnd, <- (Hok tt eq_refl). apply surjective_pairing.
Qed.

(** C5 on the card "Fire // Ice", stored with the faces "Fire" and "Ice",
    when a version that carries the face "Fire" only is upserted: the row
    of "Ice" is gone. *)
Lemma upsert_replaces_faces_witness :
  exists cat',
    SyncUpsert.upsertCard Latin1.runtime no_constraints
      Examples.split_catalog Examples.fire_only = (Ok tt, cat')
    /\ map CardFace.name (Catalog.cardFaces cat') = [lit "Fire"]
    /\ faces_after_upsert Latin1.runtime Examples.fire_only
         Examples.split_catalog cat'.
Proof.
  eexists. split; [reflexivity|]. split; [reflexivity|].
  apply (proj1 (@upsert_replaces_faces Latin1.runtime no_constraints
                  Examples.split_catalog Examples.fire_only)).
  reflexivity.
Defined.

(** C5 as stated fails on a record without faces: the card stored with the
    faces "Fire" and "Ice" keeps both rows when its new version, which
    carries no faces, is upserted, in the sync and in the resolver. *)
Lemma stale_faces_survive :
  ScryfallCard.card_faces Examples.fire_ice_single = None
  /\ map CardFace.name
       (Store.faces_of 0 (Catalog.cardFaces Examples.split_catalog))
     = [lit "Fire"; lit "Ice"]
  /\ (exists cat',
        SyncUpsert.upsertCard Latin1.runtime no_constraints
          Examples.split_catalog Examples.fire_ice_single = (Ok tt, cat')
        /\ map Card.id (Catalog.cards cat') = [0]
        /\ map CardFace.name (Store.faces_of 0 (Catalog.cardFaces cat'))
           = [lit "Fire"; lit "Ice"])
  /\ (exists card cat',
        Resolver.upsertCardFromScryfall Latin1.runtime no_constraints
          Examples.split_catalog Examples.fire_ice_single = (Ok card, cat')
        /\ Card.id card = 0
        /\ map CardFace.name (Store.faces_of 0 (Catalog.cardFaces cat'))
           = [lit "Fire"; lit "Ice"]).
Proof.
  split; [reflexivity|]. split; [reflexivity|]. split.
  - eexists. split; [reflexivity|]. split; reflexivity.
  - eexists _, _. split; [reflexivity|]. split; reflexivity.
Qed.

End UpsertFacts.

(** ** The table of cards under upserts *)

Module CatalogFacts.

Import JsStringFacts UpsertFacts.

Section WithRuntime.

Variable rt : UnicodeRuntime.

Lemma card_upsert_new (fresh : nat) (c : ScryfallCard.t)
  (rows : list Card.t) :
  (forall x, In x rows ->
     JsString.eqb (Card.oracleId x) (ScryfallCard.oracle_id c) = false) ->
  Store.card_upsert rt fresh c rows
  = (Store.card_row rt fresh c, rows ++ [Store.card_row rt fresh c], true).
Proof.
  induction rows as [|x rows IH]; intros H; simpl; [reflexivity|].
  rewrite (H x (or_introl eq_refl)), IH; [reflexivity|].
  intros y Hy. apply H. now right.
Qed.

Lemma card_upsert_old (fresh : nat) (c : ScryfallCard.t)
  (pre post : list Card.t) (old : Card.t) :
  (forall x, In x pre ->
     JsString.eqb (Card.oracleId x) (ScryfallCard.oracle_id c) = false) ->
  JsString.eqb (Card.oracleId old) (ScryfallCard.oracle_id c) = true ->
  Store.card_upsert rt fresh c (pre ++ old :: post)
  = (Store.card_row rt (Card.id old) c,
     pre ++ Store.card_row rt (Card.id old) c :: post, false).
Proof.
  induction pre as [|x pre IH]; intros H Hold; simpl.
  - now rewrite Hold.
  - rewrite (H x (or_introl eq_refl)), IH; [reflexivity| |exact Hold].
    intros y Hy. apply H. now right.
Qed.

Lemma rows_cases (oid : jsstring) (rows : list Card.t) :
  (forall x, In x rows -> JsString.eqb (Card.oracleId x) oid = false)
  \/ exists pre old post,
       rows = pre ++ old :: post
       /\ (forall x, In x pre -> JsString.eqb (Card.oracleId x) oid = false)
       /\ JsString.eqb (Card.oracleId old) oid = true.
Proof.
  induction rows as [|x rows IH].
  - left. intros x [].
  - destruct (JsString.eqb (Card.oracleId x) oid) eqn:E.
    + right. exists [], x, rows. repeat split; auto. intros y [].
    + destruct IH as [IH|(pre & old & post & -> & Hpre & Hold)].
      * left. intros y [<-|Hy]; auto.
      * right. exists (x :: pre), old, post. repeat split; auto.
        intros y [<-|Hy]; auto.
Qed.

(** The two shapes of the catalog after the writes of an upsert. *)
Lemma writes_cases (cat : Catalog.t) (c : ScryfallCard.t) :
  let faces_for (id : nat) :=
    match ScryfallCard.card_faces c with
    | Some (f :: fs) =>
        Store.cardFace_deleteMany id (Catalog.cardFaces cat)
        ++ Store.face_rows rt id 0 (f :: fs)
    | Some [] | None => Catalog.cardFaces cat
    end in
  ((forall x, In x (Catalog.cards cat) ->
      JsString.eqb (Card.oracleId x) (ScryfallCard.oracle_id c) = false)
   /\ SyncUpsert.upsertCard_writes rt cat c
      = {| Catalog.cards :=
             Catalog.cards cat
             ++ [Store.card_row rt (Catalog.nextCardId cat) c];
           Catalog.cardFaces := faces_for (Catalog.nextCardId cat);
           Catalog.rulings := Catalog.rulings cat;
           Catalog.nextCardId := S (Catalog.nextCardId cat) |})
  \/ exists pre old post,
       Catalog.cards cat = pre ++ old :: post
       /\ (forall x, In x pre ->
             JsString.eqb (Card.oracleId x) (ScryfallCard.oracle_id c)
             = false)
       /\ JsString.eqb (Card.oracleId old) (ScryfallCard.oracle_id c) = true
       /\ SyncUpsert.upsertCard_writes rt cat c
          = {| Catalog.cards :=
                 pre ++ Store.card_row rt (Card.id old) c :: post;
               Catalog.cardFaces := faces_for (Card.id old);
               Catalog.rulings := Catalog.rulings cat;
               Catalog.nextCardId := Catalog.nextCardId cat |}.
Proof.
  intros faces_for. unfold SyncUpsert.upsertCard_writes.
  destruct (rows_cases (ScryfallCard.oracle_id c) (Catalog.cards cat))
    as [Hnew|(pre & old & post & E & Hpre & Hold)].
  - left. split; [exact Hnew|]. rewrite (card_upsert_new _ _ _ Hnew).
    reflexivity.
  - right. exists pre, old, post. repeat split; auto.
    rewrite E, (card_upsert_old _ _ _ _ _ Hpre Hold). reflexivity.
Qed.

Lemma deleteMany_twice (id : nat) (rows : list CardFace.t) :
  Store.cardFace_deleteMany id (Store.cardFace_deleteMany id rows)
  = Store.cardFace_deleteMany id rows.
Proof.
  unfold Store.cardFace_deleteMany.
  induction rows as [|f rows IH]; simpl; [reflexivity|].
  destruct (negb (Nat.eqb (CardFace.cardId f) id)) eqn:E; simpl;
    [rewrite E, IH|]; auto.
Qed.

Lemma deleteMany_own_rows (id i : nat) (fs : list ScryfallCardFace.t) :
  Store.cardFace_deleteMany id (Store.face_rows rt id i fs) = [].
Proof.
  revert i. induction fs as [|f fs IH]; intros i; simpl; [reflexivity|].
  rewrite Nat.eqb_refl. simpl. apply IH.
Qed.

Lemma faces_replaced_twice (id : nat) (rows : list CardFace.t)
  (fs : list ScryfallCardFace.t) :
  Store.cardFace_deleteMany id
    (Store.cardFace_deleteMany id rows ++ Store.face_rows rt id 0 fs)
  ++ Store.face_rows rt id 0 fs
  = Store.cardFace_deleteMany id rows ++ Store.face_rows rt id 0 fs.
Proof.
  unfold Store.cardFace_deleteMany at 1. rewrite filter_app.
  fold (Store.cardFace_deleteMany id (Store.cardFace_deleteMany id rows)).
  fold (Store.cardFace_deleteMany id (Store.face_rows rt id 0 fs)).
  now rewrite deleteMany_twice, deleteMany_own_rows, app_nil_r.
Qed.

Lemma card_row_oracleId (id : nat) (c : ScryfallCard.t) :
  JsString.eqb (Card.oracleId (Store.card_row rt id c))
    (ScryfallCard.oracle_id c) = true.
Proof. apply eqb_refl. Qed.

(** Upserting the same record a second time changes nothing. *)
Lemma writes_idempotent (cat : Catalog.t) (c : ScryfallCard.t) :
  SyncUpsert.upsertCard_writes rt (SyncUpsert.upsertCard_writes rt cat c) c
  = SyncUpsert.upsertCard_writes rt cat c.
Proof.
  destruct (writes_cases cat c) as [[Hnew E]|(pre & old & post & Hc & Hpre
                                              & Hold & E)];
    cbv zeta in E; rewrite E.
  - destruct (writes_cases
                {| Catalog.cards :=
                     Catalog.cards cat
                     ++ [Store.card_row rt (Catalog.nextCardId cat) c];
                   Catalog.cardFaces :=
                     match ScryfallCard.card_faces c with
                     | Some (f :: fs) =>
                         Store.cardFace_deleteMany (Catalog.nextCardId cat)
                           (Catalog.cardFaces cat)
                         ++ Store.face_rows rt (Catalog.nextCardId cat) 0
                              (f :: fs)
                     | Some [] | None => Catalog.cardFaces cat
                     end;
                   Catalog.rulings := Catalog.rulings cat;
                   Catalog.nextCardId := S (Catalog.nextCardId cat) |} c)
      as [[Hnew2 _]|_].
    + exfalso. cbn [Catalog.cards] in Hnew2.
      specialize (Hnew2 (Store.card_row rt (Catalog.nextCardId cat) c)).
      rewrite card_row_oracleId in Hnew2.
      assert (true = false); [|discriminate].
      apply Hnew2, in_or_app. right. now left.
    + unfold SyncUpsert.upsertCard_writes. cbn [Catalog.cards
        Catalog.nextCardId Catalog.cardFaces Catalog.rulings].
      rewrite (card_upsert_old _ c (Catalog.cards cat) []
                 (Store.card_row rt (Catalog.nextCardId cat) c) Hnew
                 (card_row_oracleId _ c)).
      cbn [Card.id Store.card_row].
      destruct (ScryfallCard.card_faces c) as [[|f fs]|]; try reflexivity.
      now rewrite faces_replaced_twice.
  - unfold SyncUpsert.upsertCard_writes. cbn [Catalog.cards
      Catalog.nextCardId Catalog.cardFaces Catalog.rulings].
    rewrite (card_upsert_old _ c pre post
               (Store.card_row rt (Card.id old) c) Hpre
               (card_row_oracleId _ c)).
    cbn [Card.id Store.card_row].
    destruct (ScryfallCard.card_faces c) as [[|f fs]|]; try reflexivity.
    now rewrite faces_replaced_twice.
Qed.

Lemma NoDup_snoc {A : Type} (l : list A) (a : A) :
  NoDup l -> ~ In a l -> NoDup (l ++ [a]).
Proof.
  intros Hl Ha. apply NoDup_app; [exact Hl|repeat constructor; auto|].
  intros x Hx [<-|[]]. contradiction.
Qed.

Lemma face_rows_spec (id i : nat) (fs : list ScryfallCardFace.t)
  (f : CardFace.t) :
  In f (Store.face_rows rt id i fs) ->
  CardFace.normalizedName f = Normalizer.normalizeName rt (CardFace.name f)
  /\ CardFace.cardId f = id.
Proof.
  revert i. induction fs as [|x fs IH]; intros i; simpl; [tauto|].
  intros [<-|H]; [split; reflexivity|eauto].
Qed.

Lemma deleteMany_In (id : nat) (rows : list CardFace.t) (f : CardFace.t) :
  In f (Store.cardFace_deleteMany id rows) -> In f rows.
Proof. unfold Store.cardFace_deleteMany. intros H. now apply filter_In in H. Qed.

Lemma face_rows_length (id i : nat) (fs : list ScryfallCardFace.t) :
  length (Store.face_rows rt id i fs) = length fs.
Proof.
  rewrite <- (length_map CardFace.faceIndex), face_rows_index.
  apply length_seq.
Qed.

(** After [db.card.upsert] the catalog is well formed, the row of the
    record is stored, and the faces are as before. *)
Lemma card_written_shape (cat : Catalog.t) (c : ScryfallCard.t) :
  well_formed rt cat ->
  well_formed rt (snd (Store.card_written rt cat c))
  /\ In (fst (Store.card_written rt cat c))
       (Catalog.cards (snd (Store.card_written rt cat c)))
  /\ Catalog.cardFaces (snd (Store.card_written rt cat c))
     = Catalog.cardFaces cat.
Proof.
  intros (Hoid & Hid & Hlt & Hnorm & Hfaces & Hindex).
  unfold Store.card_written.
  destruct (rows_cases (ScryfallCard.oracle_id c) (Catalog.cards cat))
    as [Hnew|(pre & old & post & Hc & Hpre & Hold)].
  - rewrite (card_upsert_new _ _ _ Hnew). cbn [fst snd Catalog.cards
      Catalog.cardFaces Catalog.nextCardId].
    split; [|split; [apply in_or_app; right; now left|reflexivity]].
    unfold well_formed. cbn [Catalog.cards Catalog.cardFaces
      Catalog.nextCardId].
    split; [|split; [|split; [|split; [|split]]]].
    + rewrite map_app. apply NoDup_snoc; [exact Hoid|].
      intros Hin. apply in_map_iff in Hin as (x & Ex & Hx).
      specialize (Hnew x Hx). apply eqb_neq in Hnew. now apply Hnew.
    + rewrite map_app. apply NoDup_snoc; [exact Hid|].
      intros Hin. apply in_map_iff in Hin as (x & Ex & Hx).
      specialize (Hlt x Hx). simpl in Ex. lia.
    + intros x Hx. apply in_app_iff in Hx as [Hx|[<-|[]]].
      * specialize (Hlt x Hx). lia.
      * simpl. lia.
    + intros x Hx. apply in_app_iff in Hx as [Hx|[<-|[]]]; auto.
    + intros f Hf. destruct (Hfaces f Hf) as (Hn & x & Hx & Ex).
      split; [exact Hn|]. exists x. split; [|exact Ex].
      apply in_or_app. now left.
    + exact Hindex.
  - assert (Eold : Card.oracleId old = ScryfallCard.oracle_id c)
      by now apply eqb_eq.
    rewrite Hc, (card_upsert_old _ _ _ _ _ Hpre Hold).
    cbn [fst snd Catalog.cards Catalog.cardFaces Catalog.nextCardId].
    split; [|split; [apply in_or_app; right; now left|reflexivity]].
    unfold well_formed. cbn [Catalog.cards Catalog.cardFaces
      Catalog.nextCardId].
    rewrite Hc in Hoid, Hid, Hlt, Hnorm.
    split; [|split; [|split; [|split; [|split]]]].
    + rewrite map_app in *. simpl in *. now rewrite <- Eold.
    + rewrite map_app in *. exact Hid.
    + intros x Hx. apply in_app_iff in Hx as [Hx|[<-|Hx]].
      * apply Hlt, in_or_app. now left.
      * apply (Hlt old), in_or_app. right. now left.
      * apply Hlt, in_or_app. right. now right.
    + intros x Hx. apply in_app_iff in Hx as [Hx|[<-|Hx]].
      * apply Hnorm, in_or_app. now left.
      * reflexivity.
      * apply Hnorm, in_or_app. right. now right.
    + intros f Hf. destruct (Hfaces f Hf) as (Hn & x & Hx & Ex).
      split; [exact Hn|]. rewrite Hc in Hx.
      apply in_app_iff in Hx as [Hx|[<-|Hx]].
      * exists x. split; [apply in_or_app; now left|exact Ex].
      * exists (Store.card_row rt (Card.id old) c).
        split; [apply in_or_app; right; now left|exact Ex].
      * exists x. split; [apply in_or_app; right; now right|exact Ex].
    + exact Hindex.
Qed.

(** After the faces of a stored card are deleted and rows for the faces
    [fs] are created from index 0, the catalog is well formed. *)
Lemma faces_replaced_well_formed (cat : Catalog.t) (card : Card.t)
  (fs : list ScryfallCardFace.t) :
  well_formed rt cat -> In card (Catalog.cards cat) ->
  well_formed rt
    (Store.with_faces
       (Store.cardFace_deleteMany (Card.id card) (Catalog.cardFaces cat)
        ++ Store.face_rows rt (Card.id card) 0 fs) cat).
Proof.
  intros (Hoid & Hid & Hlt & Hnorm & Hfaces & Hindex) Hcard.
  unfold well_formed. cbn [Store.with_faces Catalog.cards Catalog.cardFaces
    Catalog.nextCardId].
  split; [exact Hoid|]. split; [exact Hid|]. split; [exact Hlt|].
  split; [exact Hnorm|]. split.
  - intros f Hf. apply in_app_iff in Hf as [Hf|Hf].
    + apply deleteMany_In in Hf. now apply Hfaces.
    + apply face_rows_spec in Hf as [Hn E]. split; [exact Hn|].
      exists card. auto.
  - intros id. destruct (Nat.eq_dec id (Card.id card)) as [->|Hne].
    + rewrite faces_of_replaced, face_rows_index, face_rows_length.
      reflexivity.
    + rewrite faces_of_other by exact Hne. apply Hindex.
Qed.

(** Whatever its outcome, an upsert leaves the catalog well formed. *)
Lemma upsertCard_well_formed (refuses : Constraints) (cat : Catalog.t)
  (c : ScryfallCard.t) :
  well_formed rt cat ->
  well_formed rt (snd (SyncUpsert.upsertCard rt refuses cat c)).
Proof.
  intros H. destruct (@card_written_shape cat c H) as (H1 & Hin & _).
  destruct (upsertCard_shape rt refuses cat c)
    as [[-> _]|[[-> _]|(f & fs & k & _ & _ & -> & _)]];
    [exact H|exact H1|].
  now apply faces_replaced_well_formed.
Qed.


Lemma batch_well_formed (refuses : Constraints) (cards : list ScryfallCard.t) :
  forall (acc : nat * nat) (cat : Catalog.t),
  well_formed rt cat ->
  well_formed rt
    (snd (SyncUpsert.upsertCardBatch_from rt refuses acc cat cards)).
Proof.
  induction cards as [|c cards IH]; intros acc cat H; simpl; [exact H|].
  pose proof (@upsertCard_well_formed refuses cat c H) as H1.
  destruct (SyncUpsert.upsertCard rt refuses cat c) as [[u|e] cat'];
    apply IH; exact H1.
Qed.

(** The row of the record after the writes of an upsert. *)
Lemma writes_lookup (cat : Catalog.t) (c : ScryfallCard.t) :
  exists id,
    Store.card_findUnique (ScryfallCard.oracle_id c)
      (Catalog.cards (SyncUpsert.upsertCard_writes rt cat c))
    = Some (Store.card_row rt id c)
    /\ fst (Store.card_written rt cat c) = Store.card_row rt id c.
Proof.
  unfold SyncUpsert.upsertCard_writes, Store.card_written.
  pose proof (card_upsert_found rt (Catalog.nextCardId cat) c
                (Catalog.cards cat)) as Hfound.
  assert (Hrow : exists id,
            fst (fst (Store.card_upsert rt (Catalog.nextCardId cat) c
                        (Catalog.cards cat)))
            = Store.card_row rt id c).
  { destruct (rows_cases (ScryfallCard.oracle_id c) (Catalog.cards cat))
      as [Hnew|(pre & old & post & E & Hpre & Hold)].
    - rewrite (card_upsert_new _ _ _ Hnew). eexists. reflexivity.
    - rewrite E, (card_upsert_old _ _ _ _ _ Hpre Hold). eexists. reflexivity. }
  destruct Hrow as [id Hrow]. exists id.
  destruct (Store.card_upsert rt (Catalog.nextCardId cat) c
              (Catalog.cards cat)) as [[card rows] created].
  cbn [fst snd] in *. subst card. cbn [Catalog.cards]. auto.
Qed.

Lemma well_formed_empty : well_formed rt Examples.empty_catalog.
Proof.
  unfold well_formed. simpl.
  split; [constructor|]. split; [constructor|].
  split; [intros ? []|]. split; [intros ? []|].
  split; [intros ? []|reflexivity].
Qed.

(** The catalog that the upserts build is well formed.  The empty
    catalog is, and each upsert keeps it so, whether it returns or throws
    after a part of its writes: a single record in the sync and in the
    resolver, a batch, and the rulings of a card.  External and internal
    ids stay unique, every normalized name is the normalization of its
    name, every face belongs to a stored card, and the faces of a card are
    numbered from 0 without a gap or a repetition. *)
Theorem upserts_keep_well_formed (refuses : Constraints) (cat : Catalog.t) :
  well_formed rt Examples.empty_catalog
  /\ (well_formed rt cat ->
      (forall c,
         well_formed rt (snd (SyncUpsert.upsertCard rt refuses cat c)))
      /\ (forall c,
            well_formed rt
              (snd (Resolver.upsertCardFromScryfall rt refuses cat c)))
      /\ (forall cards,
            well_formed rt
              (snd (SyncUpsert.upsertCardBatch rt refuses cat cards)))
      /\ (forall oracleId rs,
            well_formed rt (Resolver.upsertRulings cat oracleId rs))).
Proof.
  split; [apply well_formed_empty|].
  intros H. split; [|split; [|split]].
  - intros c. now apply upsertCard_well_formed.
  - intros c. destruct (resolver_same rt refuses cat c) as [-> _].
    now apply upsertCard_well_formed.
  - intros cards. now apply batch_well_formed.
  - intros oracleId rs. exact H.
Qed.

(** An upsert that is repeated with the same record leaves the catalog as
    the first one left it. *)
Theorem upsert_twice_is_once (refuses : Constraints) (cat cat1 cat2 : Catalog.t)
  (c : ScryfallCard.t) :
  SyncUpsert.upsertCard rt refuses cat c = (Ok tt, cat1) ->
  SyncUpsert.upsertCard rt refuses cat1 c = (Ok tt, cat2) ->
  cat2 = cat1.
Proof.
  intros H1 H2.
  rewrite (@upsertCard_accepted rt refuses cat1 cat2 c tt H2).
  rewrite (@upsertCard_accepted rt refuses cat cat1 c tt H1).
  apply writes_idempotent.
Qed.

(** Looking a card up by its external id after an accepted upsert gives
    the values of the record: its ids, its name and the normalization of
    its name. *)
Theorem lookup_after_upsert (refuses : Constraints) (cat cat1 : Catalog.t)
  (c : ScryfallCard.t) :
  SyncUpsert.upsertCard rt refuses cat c = (Ok tt, cat1) ->
  exists found,
    Lookup.getCardByOracleId cat1 (ScryfallCard.oracle_id c) = Some found
    /\ Card.oracleId (Resolver.row found) = ScryfallCard.oracle_id c
    /\ Card.scryfallId (Resolver.row found) = ScryfallCard.id c
    /\ Card.name (Resolver.row found) = ScryfallCard.name c
    /\ Card.normalizedName (Resolver.row found)
       = Normalizer.normalizeName rt (ScryfallCard.name c)
    /\ Card.typeLine (Resolver.row found) = ScryfallCard.type_line c
    /\ Resolver.faces found
       = Store.faces_of (Card.id (Resolver.row found))
           (Catalog.cardFaces cat1).
Proof.
  intros H. rewrite (@upsertCard_accepted rt refuses cat cat1 c tt H).
  destruct (writes_lookup cat c) as (id & Hfound & _).
  unfold Lookup.getCardByOracleId. rewrite Hfound.
  eexists. split; [reflexivity|]. repeat split.
Qed.

End WithRuntime.

(** The card "Fire // Ice" after a version with the face "Fire" only was
    upserted and the creation of that face was refused: the card is left
    without faces, and the catalog is well formed. *)
Lemma upserts_keep_well_formed_witness :
  well_formed Latin1.runtime
    (snd (SyncUpsert.upsertCard Latin1.runtime
            (fun _ w => match w with FaceCreate _ => true | _ => false end)
            Examples.split_catalog Examples.fire_only)).
Proof.
  destruct (@upserts_keep_well_formed Latin1.runtime no_constraints
              Examples.empty_catalog) as [H0 H].
  destruct (H H0) as [H1 _].
  pose proof (H1 Examples.fire_ice_split) as Hsplit.
  change (well_formed Latin1.runtime Examples.split_catalog) in Hsplit.
  destruct (@upserts_keep_well_formed Latin1.runtime
              (fun _ w => match w with FaceCreate _ => true | _ => false end)
              Examples.split_catalog) as [_ H'].
  destruct (H' Hsplit) as [H2 _].
  exact (H2 Examples.fire_only).
Defined.

Lemma upsert_twice_is_once_witness :
  SyncUpsert.upsertCard Latin1.runtime no_constraints Examples.split_catalog
    Examples.fire_ice_split = (Ok tt, Examples.split_catalog).
Proof.
  assert (H : SyncUpsert.upsertCard Latin1.runtime no_constraints
                Examples.empty_catalog Examples.fire_ice_split
              = (Ok tt, Examples.split_catalog)) by reflexivity.
  assert (H' : SyncUpsert.upsertCard Latin1.runtime no_constraints
                 Examples.split_catalog Examples.fire_ice_split
               = (Ok tt,
                  SyncUpsert.upsertCard_writes Latin1.runtime
                    Examples.split_catalog Examples.fire_ice_split))
    by reflexivity.
  exact (eq_trans H'
           (f_equal (pair (Ok tt))
              (@upsert_twice_is_once Latin1.runtime no_constraints
                 Examples.empty_catalog Examples.split_catalog _
                 Examples.fire_ice_split H H'))).
Defined.

Lemma lookup_after_upsert_witness :
  exists found,
    Lookup.getCardByOracleId Examples.split_catalog (lit "o-fire")
    = Some found
    /\ Card.name (Resolver.row found) = lit "Fire // Ice".
Proof.
  destruct (@lookup_after_upsert Latin1.runtime no_constraints
              Examples.empty_catalog Examples.split_catalog
              Examples.fire_ice_split eq_refl)
    as (found & H1 & _ & _ & H4 & _).
  exists found. split; [exact H1|exact H4].
Defined.

End CatalogFacts.

(** ** Resolution cascade *)

Module ResolverFacts.

Import Normalizer Resolver JsStringFacts VariantFacts.

Lemma variants_head (rt : UnicodeRuntime) (input : jsstring) :
  hd [] (parseCardNameVariants rt input) = normalizeName rt input.
Proof.
  unfold parseCardNameVariants. rewrite set_spread_first_seen.
  destruct (includes (normalizeName rt input) FACE_SEPARATOR); reflexivity.
Qed.

Lemma find_all_false {A : Type} (p : A -> bool) (l : list A) :
  (forall a, In a l -> p a = false) -> find p l = None.
Proof.
  induction l as [|a l IH]; simpl; [reflexivity|].
  intros H. rewrite (H a (or_introl eq_refl)). apply IH.
  intros b Hb. apply H. now right.
Qed.

Lemma prefix_candidates_bound (cat : Catalog.t) (primary : jsstring) :
  length (prefix_candidates cat primary) <= 10.
Proof.
  unfold prefix_candidates. rewrite length_map. apply firstn_le_length.
Qed.

Lemma firstn_In {A : Type} (n : nat) (l : list A) (a : A) :
  In a (firstn n l) -> In a l.
Proof.
  revert l. induction n as [|n IH]; intros [|x l]; simpl; try tauto.
  intros [->|H]; auto.
Qed.

Lemma prefix_candidates_stored (cat : Catalog.t) (primary : jsstring)
  (c : Candidate) :
  In c (prefix_candidates cat primary) ->
  exists stored,
    In stored (Catalog.cards cat) /\ c = candidate_of stored
    /\ startsWith (Card.normalizedName stored)
         (slice0 (Nat.max 3 (Nat.div (length primary) 2)) primary) = true.
Proof.
  unfold prefix_candidates. intros H.
  apply in_map_iff in H as (stored & <- & H).
  apply firstn_In, filter_In in H as [Hin Hp].
  exists stored. auto.
Qed.

Section WithEnvironment.

Variable rt : UnicodeRuntime.
Variable refuses : Constraints.
Variable remote : Remote.

(** The prefix stage when no candidate has the normalized name looked
    for: the number of candidates decides. *)
Lemma resolve_after_prefix (cat : Catalog.t) (input : jsstring) :
  let primary := normalizeName rt input in
  card_findFirst cat primary = None ->
  first_face cat (parseCardNameVariants rt input) = None ->
  (forall c, In c (prefix_candidates cat primary) ->
     normalizeName rt (name c) <> primary) ->
  resolveCardName rt refuses remote cat input
  = if Nat.ltb 1 (length (prefix_candidates cat primary))
    then (Ok {| status := ambiguous; card := None;
                candidates := Some (prefix_candidates cat primary);
                matchedFace := None; input := input |}, cat)
    else fetchAndCacheFromScryfall rt refuses remote cat input.
Proof.
  intros primary Hexact Hface Hnone. unfold resolveCardName.
  rewrite variants_head. fold primary. rewrite Hexact, Hface.
  rewrite find_all_false; [reflexivity|].
  intros c Hc. apply eqb_neq. auto.
Qed.

(** C9. When the exact stage and the face stage miss, the prefix scan
    (prefix of length max(3, floor(length / 2)) of the primary variant, at
    most 10 candidates) finds more than one candidate and none of them has
    the primary variant as its normalized name, [resolveCardName] answers
    [ambiguous] with exactly those candidates and leaves the store as it
    is; no candidate is chosen. *)
Theorem several_candidates_ambiguous (cat : Catalog.t) (input : jsstring) :
  let primary := hd [] (parseCardNameVariants rt input) in
  let found := prefix_candidates cat primary in
  card_findFirst cat primary = None ->
  first_face cat (parseCardNameVariants rt input) = None ->
  1 < length found ->
  (forall c, In c found -> normalizeName rt (name c) <> primary) ->
  resolveCardName rt refuses remote cat input
  = (Ok {| status := ambiguous; card := None; candidates := Some found;
           matchedFace := None; input := input |}, cat)
  /\ length found <= 10
  /\ forall c, In c found ->
       exists stored,
         In stored (Catalog.cards cat) /\ c = candidate_of stored
         /\ startsWith (Card.normalizedName stored)
              (slice0 (Nat.max 3 (Nat.div (length primary) 2)) primary)
            = true.
Proof.
  intros primary found. unfold found, primary. rewrite variants_head.
  intros Hexact Hface Hmany Hnone. split; [|split].
  - rewrite (resolve_after_prefix cat input Hexact Hface Hnone).
    apply Nat.ltb_lt in Hmany. now rewrite Hmany.
  - apply prefix_candidates_bound.
  - apply prefix_candidates_stored.
Qed.

(** C10. When the exact stage and the face stage miss and the prefix scan
    finds exactly one candidate, whose normalized name is not the primary
    variant, [resolveCardName] answers neither [normalized] nor
    [ambiguous]: its result is that of the remote fallback, which is
    [not_found] when the remote source has no match, [fuzzy] when it has
    one and the store accepts it, and the error when the call or a write
    of the upsert fails. *)
Theorem single_candidate_falls_back (cat : Catalog.t) (input : jsstring)
  (c : Candidate) :
  let primary := hd [] (parseCardNameVariants rt input) in
  card_findFirst cat primary = None ->
  first_face cat (parseCardNameVariants rt input) = None ->
  prefix_candidates cat primary = [c] ->
  normalizeName rt (name c) <> primary ->
  resolveCardName rt refuses remote cat input
  = fetchAndCacheFromScryfall rt refuses remote cat input
  /\ (getCardByName remote input = Ok None ->
      resolveCardName rt refuses remote cat input
      = (Ok {| status := not_found; card := None; candidates := None;
               matchedFace := None; input := input |}, cat))
  /\ (forall scryfallCard card cat1,
        getCardByName remote input = Ok (Some scryfallCard) ->
        upsertCardFromScryfall rt refuses cat scryfallCard
        = (Ok card, cat1) ->
        exists result cat',
          resolveCardName rt refuses remote cat input = (Ok result, cat')
          /\ status result = fuzzy /\ candidates result = None
          /\ Store.card_findUnique (ScryfallCard.oracle_id scryfallCard)
               (Catalog.cards cat') <> None)
  /\ (forall e,
        getCardByName remote input = Throw e ->
        resolveCardName rt refuses remote cat input = (Throw e, cat))
  /\ (forall scryfallCard e cat1,
        getCardByName remote input = Ok (Some scryfallCard) ->
        upsertCardFromScryfall rt refuses cat scryfallCard
        = (Throw e, cat1) ->
        resolveCardName rt refuses remote cat input = (Throw e, cat1)).
Proof.
  intros primary. unfold primary. rewrite variants_head.
  intros Hexact Hface Hone Hne.
  assert (Hfall : resolveCardName rt refuses remote cat input
                  = fetchAndCacheFromScryfall rt refuses remote cat input).
  { rewrite (resolve_after_prefix cat input Hexact Hface).
    - now rewrite Hone.
    - rewrite Hone. intros c' [<-|[]]. exact Hne. }
  rewrite Hfall. split; [reflexivity|]. unfold fetchAndCacheFromScryfall.
  split; [|split; [|split]].
  - intros ->. reflexivity.
  - intros sc card cat1 -> Hup. rewrite Hup.
    destruct (@UpsertFacts.resolver_accepted rt refuses cat cat1 sc card Hup)
      as (_ & Hcat & _).
    destruct (UpsertFacts.sync_writes_faces rt cat sc) as (stored & Hst & _).
    rewrite <- Hcat in Hst.
    eexists _, _. split; [reflexivity|].
    split; [reflexivity|]. split; [reflexivity|].
    destruct (getRulingsByCardId remote (ScryfallCard.id sc)) as [rs|e];
      [destruct (Nat.ltb 0 (length rs))|]; simpl; rewrite Hst; discriminate.
  - intros e ->. reflexivity.
  - intros sc e cat1 -> Hup. rewrite Hup. reflexivity.
Qed.

End WithEnvironment.

(** C9 on the store that holds "Brainstorm" and "Brainstone": resolving
    "brai" is ambiguous between the two. *)
Lemma several_candidates_ambiguous_witness :
  resolveCardName Latin1.runtime no_constraints ResolverExamples.remote_404
    ResolverExamples.brain_catalog (lit "brai")
  = (Ok {| status := ambiguous; card := None;
           candidates :=
             Some [ResolverExamples.candidate "o-storm" "Brainstorm";
                   ResolverExamples.candidate "o-stone" "Brainstone"];
           matchedFace := None; input := lit "brai" |},
     ResolverExamples.brain_catalog).
Proof.
  refine (proj1 (@several_candidates_ambiguous Latin1.runtime no_constraints
            ResolverExamples.remote_404 ResolverExamples.brain_catalog
            (lit "brai") _ _ _ _)).
  - reflexivity.
  - reflexivity.
  - vm_compute. lia.
  - intros c H. vm_compute in H.
    destruct H as [<-|[<-|[]]]; vm_compute; discriminate.
Defined.

(** C10 on the store that holds "Brainstorm" only: resolving "brai" goes
    to the remote source, which has no match. *)
Lemma single_candidate_falls_back_witness :
  resolveCardName Latin1.runtime no_constraints ResolverExamples.remote_404
    ResolverExamples.one_brain_catalog (lit "brai")
  = (Ok {| status := not_found; card := None; candidates := None;
           matchedFace := None; input := lit "brai" |},
     ResolverExamples.one_brain_catalog).
Proof.
  refine (proj1 (proj2 (@single_candidate_falls_back Latin1.runtime
            no_constraints ResolverExamples.remote_404
            ResolverExamples.one_brain_catalog (lit "brai")
            (ResolverExamples.candidate "o-storm" "Brainstorm") _ _ _ _)) _).
  - reflexivity.
  - reflexivity.
  - reflexivity.
  - vm_compute. discriminate.
  - reflexivity.
Defined.

End ResolverFacts.

(** ** Bulk sync: batches *)

Module BatchFacts.

Import SyncView.

Section WithRuntime.

Variable rt : UnicodeRuntime.
Variable refuses : Constraints.

Lemma upsertCardBatch_from_acc (acc : nat * nat) (cat : Catalog.t)
  (cards : list ScryfallCard.t) :
  SyncUpsert.upsertCardBatch_from rt refuses acc cat cards
  = ((fst acc + successes rt refuses cat cards,
      snd acc + failures rt refuses cat cards),
     upserted rt refuses cat cards).
Proof.
  unfold successes, failures, upserted, SyncUpsert.upsertCardBatch.
  revert acc cat. induction cards as [|c cards IH]; intros [s f] cat; simpl.
  - now rewrite !Nat.add_0_r.
  - destruct (SyncUpsert.upsertCard rt refuses cat c) as [[u|e] cat'].
    + rewrite (IH (S s, f)), (IH (1, 0)). simpl. f_equal. f_equal; lia.
    + rewrite (IH (s, S f)), (IH (0, 1)). simpl. f_equal. f_equal; lia.
Qed.

Lemma upsertCardBatch_app (cat : Catalog.t) (a b : list ScryfallCard.t) :
  SyncUpsert.upsertCardBatch rt refuses cat (a ++ b)
  = SyncUpsert.upsertCardBatch_from rt refuses
      (successes rt refuses cat a, failures rt refuses cat a)
      (upserted rt refuses cat a) b.
Proof.
  unfold successes, failures, upserted, SyncUpsert.upsertCardBatch.
  generalize (0, 0). revert cat.
  induction a as [|c a IH]; intros cat acc; simpl.
  - now destruct acc.
  - destruct (SyncUpsert.upsertCard rt refuses cat c) as [[u|e] cat'];
      apply IH.
Qed.



Lemma failures_app (cat : Catalog.t) (a b : list ScryfallCard.t) :
  failures rt refuses cat (a ++ b)
  = failures rt refuses cat a
    + failures rt refuses (upserted rt refuses cat a) b.
Proof.
  unfold failures at 1.
  now rewrite upsertCardBatch_app, upsertCardBatch_from_acc.
Qed.


End WithRuntime.

End BatchFacts.

(** ** Bulk sync: what a batch leaves in the store *)

Module StoreFacts.

Import JsStringFacts UpsertFacts CatalogFacts SyncView BatchFacts.

Section WithRuntime.

Variable rt : UnicodeRuntime.
Variable refuses : Constraints.











Lemma failures_cons (cat : Catalog.t) (c : ScryfallCard.t)
  (l : list ScryfallCard.t) :
  failures rt refuses cat (c :: l)
  = match fst (SyncUpsert.upsertCard rt refuses cat c) with
    | Ok _ => 0
    | Throw _ => 1
    end
    + failures rt refuses (snd (SyncUpsert.upsertCard rt refuses cat c)) l.
Proof.
  change (c :: l) with ([c] ++ l). rewrite failures_app. f_equal.
  - unfold failures, SyncUpsert.upsertCardBatch.
    cbn [SyncUpsert.upsertCardBatch_from].
    now destruct (SyncUpsert.upsertCard rt refuses cat c) as [[u|e] cat'].
  - f_equal. unfold upserted, SyncUpsert.upsertCardBatch.
    cbn [SyncUpsert.upsertCardBatch_from].
    now destruct (SyncUpsert.upsertCard rt refuses cat c) as [[u|e] cat'].
Qed.






(** When the store refuses no write, no upsert of a batch fails. *)
Lemma unrefused_failures (l : list ScryfallCard.t) :
  (forall cat0 w, refuses cat0 w = false) ->
  forall cat, failures rt refuses cat l = 0.
Proof.
  intros Hno. induction l as [|c l IH]; intros cat; [reflexivity|].
  rewrite failures_cons, (@upsertCard_unrefused rt refuses cat c Hno).
  cbn [fst snd]. apply IH.
Qed.

End WithRuntime.

End StoreFacts.

(** ** Bulk sync: lines *)

Module LineFacts.

Import Sync SyncView LocalsView JsStringFacts BatchFacts.

Section WithEnvironment.

Variable rt : UnicodeRuntime.
Variable refuses : Constraints.
Variable env : Env.
Variable resume : option jsstring.
Variable rid : jsstring.

Local Abbreviation step := (processLine rt refuses env resume rid).

Lemma line_ignored (acc : Locals.t * Database) (line : jsstring) :
  readLine env line = Ignored -> step acc line = acc.
Proof.
  unfold processLine, readLine. destruct acc as [st db].
  destruct (_ || _ || _)%bool; [reflexivity|].
  destruct (parseCard env _); discriminate.
Qed.

Lemma line_malformed (st : Locals.t) (db : Database) (line : jsstring) :
  readLine env line = Malformed ->
  step (st, db) line = (with_failed 1 st, db).
Proof.
  unfold processLine, readLine, with_failed.
  destruct (_ || _ || _)%bool; [discriminate|].
  destruct (parseCard env _); [discriminate|].
  intros _. now rewrite Nat.add_1_r.
Qed.

Lemma line_record (st : Locals.t) (db : Database) (line : jsstring)
  (card : ScryfallCard.t) :
  readLine env line = Record_ card ->
  step (st, db) line
  = if Locals.shouldSkip st
    then
      if same (Some (ScryfallCard.oracle_id card)) resume
      then (stop_skipping st, db) else (st, db)
    else
      let batch := Locals.batch st ++ [card] in
      if Nat.leb BATCH_SIZE (length batch)
      then
        let st' :=
          {| Locals.processed :=
               Locals.processed st
               + successes rt refuses (catalog db) batch;
             Locals.failed :=
               Locals.failed st + failures rt refuses (catalog db) batch;
             Locals.lastOracleId := Some (ScryfallCard.oracle_id card);
             Locals.shouldSkip := false;
             Locals.buffer := Locals.buffer st;
             Locals.batch := [] |} in
        (st',
         syncRun_update rid (checkpoint None None st')
           {| catalog := upserted rt refuses (catalog db) batch;
              syncRuns := syncRuns db |})
      else
        ({| Locals.processed := Locals.processed st;
            Locals.failed := Locals.failed st;
            Locals.lastOracleId := Some (ScryfallCard.oracle_id card);
            Locals.shouldSkip := false;
            Locals.buffer := Locals.buffer st;
            Locals.batch := batch |}, db).
Proof.
  unfold processLine, readLine, successes, failures, upserted.
  destruct (_ || _ || _)%bool; [discriminate|].
  destruct (parseCard env _) as [c|]; [|discriminate].
  intros [= ->]. destruct (Locals.shouldSkip st); [reflexivity|].
  cbv zeta. destruct (Nat.leb BATCH_SIZE _); [|reflexivity].
  destruct (SyncUpsert.upsertCardBatch rt refuses (catalog db) _)
    as [[s f] cat]. reflexivity.
Qed.

Lemma syncRun_update_found (d : Data.t) (db : Database) (r : SyncRun.t) :
  syncRun_findUnique rid (syncRuns db) = Some r ->
  syncRun_findUnique rid (syncRuns (syncRun_update rid d db))
  = Some (Data.apply d r).
Proof.
  unfold syncRun_findUnique, syncRun_update. simpl.
  induction (syncRuns db) as [|r0 rs IH]; simpl; [discriminate|].
  destruct (JsString.eqb (SyncRun.id r0) rid) eqn:E; simpl.
  - intros [= ->]. now rewrite E.
  - rewrite E. exact IH.
Qed.

Lemma with_failed_0 (st : Locals.t) : with_failed 0 st = st.
Proof. destruct st. unfold with_failed. simpl. now rewrite Nat.add_0_r. Qed.

Lemma with_failed_add (n m : nat) (st : Locals.t) :
  with_failed m (with_failed n st) = with_failed (n + m) st.
Proof. unfold with_failed. simpl. now rewrite Nat.add_assoc. Qed.

(** *** While skipping *)

Lemma skip_phase (X : jsstring) (lines : list jsstring) (st : Locals.t)
  (db : Database) :
  resume = Some X ->
  Locals.shouldSkip st = true ->
  (forall l c, In l lines -> readLine env l = Record_ c ->
     ScryfallCard.oracle_id c <> X) ->
  fold_left step lines (st, db) = (with_failed (malformed env lines) st, db).
Proof.
  intros Hres Hskip. revert st Hskip.
  induction lines as [|l lines IH]; intros st Hskip Hother;
    cbn [fold_left malformed].
  - now rewrite with_failed_0.
  - assert (Hrest : forall l' c, In l' lines -> readLine env l' = Record_ c ->
                      ScryfallCard.oracle_id c <> X).
    { intros l' c Hin. apply Hother. now right. }
    destruct (readLine env l) as [| |c] eqn:Hl.
    + rewrite (line_ignored _ _ Hl). now apply IH.
    + rewrite (line_malformed _ _ _ Hl), IH by assumption.
      now rewrite with_failed_add.
    + rewrite (line_record _ _ _ Hl), Hskip.
      replace (same (Some (ScryfallCard.oracle_id c)) resume) with false.
      * now apply IH.
      * rewrite Hres. symmetry.
        apply eqb_neq, (Hother l c); [now left|exact Hl].
Qed.


(** *** While batching *)





End WithEnvironment.

End LineFacts.

(** ** Bulk sync: the stream *)

Module StreamFacts.

Import Sync SyncView LocalsView JsStringFacts BatchFacts LineFacts.

Section WithEnvironment.

Variable rt : UnicodeRuntime.
Variable refuses : Constraints.
Variable env : Env.
Variable resume : option jsstring.
Variable rid : jsstring.

Local Abbreviation step := (processLine rt refuses env resume rid).

Lemma set_buffer_same (st : Locals.t) : set_buffer (Locals.buffer st) st = st.
Proof. now destruct st. Qed.

Lemma step_set_buffer (b : jsstring) (st : Locals.t) (db : Database)
  (line : jsstring) :
  step (set_buffer b st, db) line
  = (set_buffer b (fst (step (st, db) line)), snd (step (st, db) line)).
Proof.
  destruct (readLine env line) as [| |c] eqn:Hl.
  - now rewrite !(@line_ignored rt refuses env resume rid _ line Hl).
  - now rewrite !(@line_malformed rt refuses env resume rid _ _ line Hl).
  - rewrite !(@line_record rt refuses env resume rid _ _ line c Hl).
    cbn [set_buffer Locals.shouldSkip Locals.batch Locals.processed
      Locals.failed Locals.buffer].
    destruct (Locals.shouldSkip st).
    + destruct (same _ resume); reflexivity.
    + cbv zeta. destruct (Nat.leb BATCH_SIZE _); reflexivity.
Qed.

Lemma fold_set_buffer (b : jsstring) (lines : list jsstring) (st : Locals.t)
  (db : Database) :
  fold_left step lines (set_buffer b st, db)
  = (set_buffer b (fst (fold_left step lines (st, db))),
     snd (fold_left step lines (st, db))).
Proof.
  revert st db. induction lines as [|l lines IH]; intros st db;
    cbn [fold_left]; [reflexivity|].
  rewrite step_set_buffer.
  destruct (step (st, db) l) as [st1 db1]. apply IH.
Qed.

Lemma set_buffer_twice (a b : jsstring) (st : Locals.t) :
  set_buffer a (set_buffer b st) = set_buffer a st.
Proof. reflexivity. Qed.

(** Without a time-out and without a failure of the stream, the loop
    processes the lines of the stream in order and upserts the rest of the
    batch at the end. *)
Lemma streamLoop_complete (startTime : Z) (chunks : list jsstring) :
  (forall k, (clock env k - startTime <= MAX_RUNTIME_MS)%Z) ->
  forall (k : nat) (st : Locals.t) (db : Database),
  exists b,
    streamLoop rt refuses env startTime resume rid k (map Chunk chunks)
      (st, db)
    = (StreamEnd (S (k + length chunks)),
       flushRemaining rt refuses
         (set_buffer b
            (fst (fold_left step (stream_lines (Locals.buffer st) chunks)
                    (st, db))),
          snd (fold_left step (stream_lines (Locals.buffer st) chunks)
                 (st, db)))).
Proof.
  intros Htime.
  assert (Hk : forall k, (clock env k - startTime >? MAX_RUNTIME_MS)%Z = false).
  { intros k. specialize (Htime k). rewrite Z.gtb_ltb. apply Z.ltb_ge. lia. }
  induction chunks as [|text chunks IH]; intros k st db.
  - exists (Locals.buffer st). cbn [map streamLoop stream_lines fold_left
      fst snd length]. rewrite Hk, Nat.add_0_r, set_buffer_same. reflexivity.
  - cbn [map streamLoop stream_lines length]. rewrite Hk.
    unfold processChunk.
    set (lines := split (Locals.buffer st ++ text) [NEWLINE]).
    change {| Locals.processed := Locals.processed st;
              Locals.failed := Locals.failed st;
              Locals.lastOracleId := Locals.lastOracleId st;
              Locals.shouldSkip := Locals.shouldSkip st;
              Locals.buffer := last lines [];
              Locals.batch := Locals.batch st |}
      with (set_buffer (last lines []) st).
    rewrite fold_set_buffer, fold_left_app.
    destruct (fold_left step (removelast lines) (st, db)) as [st1 db1].
    cbn [fst snd].
    destruct (IH (S k) (set_buffer (last lines []) st1) db1) as [b Hb].
    exists b. rewrite Hb. cbn [set_buffer Locals.buffer].
    change {| Locals.processed := Locals.processed st1;
              Locals.failed := Locals.failed st1;
              Locals.lastOracleId := Locals.lastOracleId st1;
              Locals.shouldSkip := Locals.shouldSkip st1;
              Locals.buffer := last lines [];
              Locals.batch := Locals.batch st1 |}
      with (set_buffer (last lines []) st1).
    rewrite fold_set_buffer. cbn [fst snd]. rewrite set_buffer_twice.
    f_equal. f_equal. lia.
Qed.

Lemma flush_spec (st : Locals.t) (db : Database) :
  let r := flushRemaining rt refuses (st, db) in
  Locals.processed (fst r)
  = Locals.processed st + successes rt refuses (catalog db) (Locals.batch st)
  /\ Locals.failed (fst r)
     = Locals.failed st + failures rt refuses (catalog db) (Locals.batch st)
  /\ catalog (snd r) = upserted rt refuses (catalog db) (Locals.batch st)
  /\ syncRuns (snd r) = syncRuns db.
Proof.
  unfold flushRemaining, successes, failures, upserted.
  destruct (Locals.batch st) as [|c cs] eqn:Hb; cbv zeta.
  - simpl. repeat split; lia.
  - destruct (SyncUpsert.upsertCardBatch rt refuses (catalog db) (c :: cs))
      as [[s f] cat]. simpl. auto.
Qed.


Lemma records_In (lines : list jsstring) (l : jsstring) (c : ScryfallCard.t) :
  In l lines -> readLine env l = Record_ c -> In c (records env lines).
Proof.
  induction lines as [|l0 lines IH]; simpl; [tauto|].
  intros [->|Hin] Hl.
  - rewrite Hl. now left.
  - destruct (readLine env l0); auto. right. auto.
Qed.

End WithEnvironment.

End StreamFacts.

(** ** Bulk sync: resuming *)

Module ResumeFacts.

Import Sync SyncView LocalsView JsStringFacts BatchFacts StoreFacts LineFacts
  StreamFacts.

Section WithEnvironment.

Variable rt : UnicodeRuntime.
Variable refuses : Constraints.
Variable env : Env.


Lemma find_id (rid : jsstring) (runs : list SyncRun.t) (run : SyncRun.t) :
  syncRun_findUnique rid runs = Some run -> SyncRun.id run = rid.
Proof.
  unfold syncRun_findUnique. intros H. apply find_some in H as [_ H].
  now apply eqb_eq.
Qed.



End WithEnvironment.

End ResumeFacts.

(** ** Bulk sync: the examples *)

Module SyncRuns.

Import Sync SyncView LocalsView SyncExamples ResumeExample.

Local Abbreviation card_a := (Examples.card (lit "a") (lit "a") None).
Local Abbreviation card_b := (Examples.card (lit "b") (lit "b") None).
Local Abbreviation card_c := (Examples.card (lit "c") (lit "c") None).



(** C2 fails on the code when the resumed invocation is paused in its
    turn.  The stream has 501 records, 500 of them in its first chunk.  The
    first invocation upserts the batch of 500, persists the checkpoint (the
    500th record) and runs out of time: the run is paused with a committed
    prefix.  The resumed invocation skips the first chunk and runs out of
    time: it persists [lastOracleId = null], the value of its local
    variable, with [processed = 500].  The next resumed invocation has no
    checkpoint, upserts all 501 records and completes with [processed =
    1001]: the first 500 records are counted twice. *)
Lemma second_pause_counts_twice :
  length
    (records RepauseExample.all_the_time
       (stream_lines []
          [RepauseExample.first_chunk; RepauseExample.second_chunk]))
  = 501
  /\ fst (startSync Latin1.runtime no_constraints
            RepauseExample.out_of_time_after_first_chunk oracle_cards true
            None empty_db)
     = Ok {| SyncProgress.syncRunId := lit "run1";
             SyncProgress.status := PAUSED;
             SyncProgress.processed := 500;
             SyncProgress.totalRecords := None;
             SyncProgress.lastOracleId :=
               Some (RepauseExample.oracle_id_of 499) |}
  /\ map RepauseExample.progress_of (syncRuns RepauseExample.paused_db)
     = [(PAUSED, 500, 0, Some (RepauseExample.oracle_id_of 499))]
  /\ map Card.oracleId (Catalog.cards (catalog RepauseExample.paused_db))
     = map RepauseExample.oracle_id_of (seq 0 500)
  /\ fst (startSync Latin1.runtime no_constraints
            RepauseExample.out_of_time_after_first_chunk oracle_cards false
            (Some (lit "run1")) RepauseExample.paused_db)
     = Ok {| SyncProgress.syncRunId := lit "run1";
             SyncProgress.status := PAUSED;
             SyncProgress.processed := 500;
             SyncProgress.totalRecords := None;
             SyncProgress.lastOracleId := None |}
  /\ map RepauseExample.progress_of
       (syncRuns RepauseExample.paused_again_db)
     = [(PAUSED, 500, 0, None)]
  /\ catalog RepauseExample.paused_again_db
     = catalog RepauseExample.paused_db
  /\ fst (startSync Latin1.runtime no_constraints
            RepauseExample.all_the_time oracle_cards false
            (Some (lit "run1")) RepauseExample.paused_again_db)
     = Ok {| SyncProgress.syncRunId := lit "run1";
             SyncProgress.status := COMPLETED;
             SyncProgress.processed := 1001;
             SyncProgress.totalRecords := Some 1001;
             SyncProgress.lastOracleId := None |}
  /\ map Card.oracleId (Catalog.cards (catalog RepauseExample.completed_db))
     = map RepauseExample.oracle_id_of (seq 0 501).
Proof.
  split; [vm_compute; reflexivity|]. split; [vm_compute; reflexivity|].
  split; [vm_compute; reflexivity|]. split; [vm_compute; reflexivity|].
  split; [vm_compute; reflexivity|]. split; [vm_compute; reflexivity|].
  split; [vm_compute; reflexivity|]. split; [vm_compute; reflexivity|].
  vm_compute. reflexivity.
Qed.

(** C1 fails on the code.  The first invocation reads one chunk (the
    records a and b, fewer than a batch) and then runs out of time: it
    persists the checkpoint "b" with [processed = 0] and nothing stored.
    The resumed invocation skips a and b and stores c only. *)
Lemma pause_checkpoint_ahead_of_store :
  fst (startSync Latin1.runtime no_constraints first_invocation oracle_cards
         true None empty_db)
  = Ok {| SyncProgress.syncRunId := lit "run1";
          SyncProgress.status := PAUSED;
          SyncProgress.processed := 0;
          SyncProgress.totalRecords := None;
          SyncProgress.lastOracleId := Some (lit "b") |}
  /\ map (fun r => (SyncRun.status r, SyncRun.processed r,
                    SyncRun.lastOracleId r)) (syncRuns paused_db)
     = [(PAUSED, 0, Some (lit "b"))]
  /\ Store.card_findUnique (lit "b") (Catalog.cards (catalog paused_db))
     = None
  /\ Catalog.cards (catalog paused_db) = []
  /\ fst (startSync Latin1.runtime no_constraints second_invocation
            oracle_cards false (Some (lit "run1")) paused_db)
     = Ok {| SyncProgress.syncRunId := lit "run1";
             SyncProgress.status := COMPLETED;
             SyncProgress.processed := 1;
             SyncProgress.totalRecords := Some 1;
             SyncProgress.lastOracleId := None |}
  /\ map Card.oracleId (Catalog.cards (catalog resumed_db)) = [lit "c"].
Proof. repeat split; vm_compute; reflexivity. Qed.

End SyncRuns.

(** ** More on names *)

Module NameExtras.

Import Normalizer FaceNames JsStringFacts NormalizerFacts VariantFacts.

Local Open Scope N_scope.

(** *** Pieces of a split are substrings *)

Lemma split_from_substring (sep : jsstring) (s : jsstring) :
  forall (skip : nat) (cur p : jsstring),
    skip = 0%nat \/ cur = [] ->
    In p (split_from sep skip cur s) ->
    exists a b, rev cur ++ s = a ++ p ++ b.
Proof.
  induction s as [|c r IH]; intros skip cur p Hinv Hin.
  - simpl in Hin. destruct Hin as [<-|[]]. exists [], []. now rewrite app_nil_r.
  - cbn [split_from] in Hin. destruct skip as [|k].
    + destruct (startsWith (c :: r) sep).
      * destruct Hin as [<-|Hin].
        -- exists [], (c :: r). reflexivity.
        -- destruct (IH _ (@nil code_unit) p (or_intror eq_refl) Hin) as (a & b & E).
           simpl in E. exists (rev cur ++ c :: a), b.
           rewrite E, <- app_assoc. reflexivity.
      * destruct (IH _ (c :: cur) p (or_introl eq_refl) Hin) as (a & b & E).
        exists a, b. rewrite <- E. simpl. now rewrite <- app_assoc.
    + destruct Hinv as [Hk| ->]; [discriminate|].
      destruct (IH k [] p (or_intror eq_refl) Hin) as (a & b & E).
      simpl in E. exists (c :: a), b. simpl. now rewrite E.
Qed.

Lemma split_substring (s sep p : jsstring) :
  In p (split s sep) -> exists a b, s = a ++ p ++ b.
Proof.
  intros H.
  exact (@split_from_substring sep s 0%nat [] p (or_introl eq_refl) H).
Qed.

Lemma single_spaced_weaken (s : jsstring) :
  single_spaced true s = true -> single_spaced false s = true.
Proof.
  destruct s as [|c r]; simpl; [reflexivity|].
  destruct (is_space c); [discriminate|auto].
Qed.

Lemma single_spaced_suffix (a y : jsstring) (b : bool) :
  single_spaced b (a ++ y) = true -> single_spaced false y = true.
Proof.
  revert b. induction a as [|c a IH]; intros b; simpl.
  - destruct b; [apply single_spaced_weaken|auto].
  - destruct (is_space c).
    + intros H. apply andb_true_iff in H as [_ H]. eauto.
    + eauto.
Qed.

Lemma single_spaced_prefix (p y : jsstring) (b : bool) :
  single_spaced b (p ++ y) = true -> single_spaced b p = true.
Proof.
  revert b. induction p as [|c p IH]; intros b; simpl; [reflexivity|].
  destruct (is_space c).
  - intros H. apply andb_true_iff in H as [H1 H]. rewrite H1. simpl. eauto.
  - eauto.
Qed.

Lemma canonical_piece (s a p b : jsstring) :
  canonical s -> s = a ++ p ++ b -> canonical (trim p).
Proof.
  intros (Hc & Hs & _) ->. repeat split.
  - apply forallb_trim. rewrite !forallb_app in Hc.
    apply andb_true_iff in Hc as [_ Hc]. now apply andb_true_iff in Hc as [Hc _].
  - apply single_spaced_trimEnd, (single_spaced_trimStart false).
    apply single_spaced_suffix in Hs. now apply single_spaced_prefix in Hs.
  - apply trim_idempotent.
Qed.

Lemma trimStart_length (s : jsstring) :
  (length (trimStart s) <= length s)%nat.
Proof.
  induction s as [|c s IH]; simpl; [lia|].
  destruct (is_space c); simpl; lia.
Qed.

Lemma trimEnd_length (s : jsstring) : (length (trimEnd s) <= length s)%nat.
Proof.
  induction s as [|c s IH]; simpl; [lia|].
  destruct (trimEnd s); [destruct (is_space c)|]; simpl in *; lia.
Qed.

Lemma trimEnd_snoc_space (s : jsstring) : trimEnd (s ++ [SPACE]) = trimEnd s.
Proof.
  induction s as [|c s IH]; [reflexivity|].
  change ((c :: s) ++ [SPACE]) with (c :: (s ++ [SPACE])).
  cbn [trimEnd]. now rewrite IH.
Qed.

Section WithRuntime.

Variable rt : UnicodeRuntime.
Hypothesis laws : RuntimeLaws rt.

(** A normalized name is made of small letters, digits, the underscore,
    the apostrophe, the slash, the hyphen and spaces only; its spaces are
    single; it neither starts nor ends with a space. *)
Theorem normalizeName_shape (name : jsstring) :
  let r := normalizeName rt name in
  (forall c, In c r ->
     97 <= c <= 122 \/ 48 <= c <= 57
     \/ c = 95 \/ c = 39 \/ c = 47 \/ c = 45 \/ c = 32)
  /\ (forall a b, r <> a ++ [32; 32] ++ b)
  /\ (forall b, r <> 32 :: b)
  /\ (forall a, r <> a ++ [32]).
Proof.
  intros r. destruct (normalizeName_canonical laws name) as (Hc & Hs & Ht).
  fold r in Hc, Hs, Ht. repeat split.
  - intros c Hc'. pose proof (proj1 (forallb_forall _ _) Hc c Hc') as H.
    revert H. code_units.
  - intros a b E. rewrite E in Hs. apply single_spaced_suffix in Hs.
    simpl in Hs. discriminate.
  - intros b E. rewrite E in Ht. unfold trim in Ht. simpl in Ht.
    pose proof (trimEnd_length (trimStart b)) as L1.
    pose proof (trimStart_length b) as L2.
    rewrite Ht in L1. simpl in L1. unfold jsstring, code_unit in *.
    clear - L1 L2. lia.
  - intros a E.
    assert (E' : trimEnd r = r).
    { transitivity (trimEnd (trim r)); [now rewrite Ht|].
      unfold trim. rewrite trimEnd_idempotent. exact Ht. }
    rewrite E, trimEnd_snoc_space in E'. pose proof (trimEnd_length a) as La.
    rewrite E' in La. rewrite length_app in La. simpl in La.
    unfold jsstring, code_unit in *. clear - La. lia.
Qed.

(** Every variant that [parseCardNameVariants] gives is itself a
    normalized name: normalizing it again changes nothing. *)
Theorem variants_are_normalized (input v : jsstring) :
  In v (parseCardNameVariants rt input) -> normalizeName rt v = v.
Proof.
  intros Hin. apply (normalizeName_fixed laws).
  pose proof (normalizeName_canonical laws input) as Hcan.
  unfold parseCardNameVariants in Hin.
  rewrite set_spread_first_seen, first_seen_In in Hin.
  destruct Hin as [Hin _].
  destruct (includes (normalizeName rt input) FACE_SEPARATOR).
  - apply in_app_iff in Hin as [[<-|[]]|Hin]; [exact Hcan|].
    apply in_map_iff in Hin as (p & <- & Hp).
    apply split_substring in Hp as (a & b & E).
    exact (@canonical_piece _ a p b Hcan E).
  - destruct Hin as [<-|[]]. exact Hcan.
Qed.

(** Two ASCII names that differ in the case of their letters only have
    the same normalized name. *)
Theorem normalizeName_ignores_ascii_case (s t : jsstring) :
  forallb is_ascii s = true -> forallb is_ascii t = true ->
  map ascii_lower s = map ascii_lower t ->
  normalizeName rt s = normalizeName rt t.
Proof.
  assert (Hl : forall u, forallb is_ascii u = true ->
                 forallb is_ascii (map ascii_lower u) = true).
  { induction u as [|c u IH]; simpl; [reflexivity|].
    intros H. apply andb_true_iff in H as [Hc Hu]. rewrite (IH Hu).
    rewrite andb_true_r. revert Hc. unfold ascii_lower.
    destruct (is_upper c) eqn:E; [|auto]. revert E. code_units. }
  intros Hs Ht E.
  rewrite (normalizeName_ascii laws s Hs (Hl s Hs)).
  rewrite (normalizeName_ascii laws t Ht (Hl t Ht)).
  now rewrite E.
Qed.

End WithRuntime.

Lemma normalizeName_shape_witness :
  RuntimeLaws Latin1.runtime
  /\ forall b, normalizeName Latin1.runtime (lit "  Fire  //  Ice ")
               <> 32 :: b.
Proof.
  split; [exact Latin1Facts.laws|].
  apply (normalizeName_shape Latin1Facts.laws (lit "  Fire  //  Ice ")).
Defined.

Lemma variants_are_normalized_witness :
  In (lit "ice") (parseCardNameVariants Latin1.runtime (lit "Fire // Ice"))
  /\ normalizeName Latin1.runtime (lit "ice") = lit "ice".
Proof.
  assert (H : In (lit "ice")
                (parseCardNameVariants Latin1.runtime (lit "Fire // Ice"))).
  { vm_compute. auto. }
  split; [exact H|].
  exact (@variants_are_normalized Latin1.runtime Latin1Facts.laws
           (lit "Fire // Ice") (lit "ice") H).
Defined.

Lemma normalizeName_ignores_ascii_case_witness :
  normalizeName Latin1.runtime (lit "LIGHTNING Bolt")
  = normalizeName Latin1.runtime (lit "Lightning bolt").
Proof.
  apply (@normalizeName_ignores_ascii_case Latin1.runtime Latin1Facts.laws);
    reflexivity.
Defined.

End NameExtras.

(** ** Face names *)

Module FaceNameFacts.

Import Normalizer FaceNames JsStringFacts NameExtras.

Local Open Scope N_scope.

Local Abbreviation sep := FACE_SEPARATOR.

Lemma split_without_separator (s cur : jsstring) :
  includes s sep = false -> split_from sep 0 cur s = [rev cur ++ s].
Proof.
  revert cur. induction s as [|c r IH]; intros cur H.
  - simpl. now rewrite app_nil_r.
  - cbn [includes] in H. apply orb_false_iff in H as [H1 H2].
    cbn [split_from]. rewrite H1, (IH (c :: cur) H2). simpl.
    now rewrite <- app_assoc.
Qed.

Lemma startsWith_before_space (c : code_unit) (f rest : jsstring) :
  startsWith (c :: f) sep = false ->
  startsWith (c :: f ++ SPACE :: rest) sep = false.
Proof.
  unfold FACE_SEPARATOR.
  destruct f as [|d f]; cbn [startsWith app].
  - intros _. replace (N.eqb SLASH SPACE) with false by reflexivity.
    apply andb_false_r.
  - assert (Hnil : forall s, startsWith s [] = true) by (now destruct s).
    rewrite !Hnil. intros H. exact H.
Qed.

Lemma split_combined (front back cur : jsstring) :
  includes front sep = false ->
  split_from sep 0 cur (combineFaceNames front back)
  = (rev cur ++ front ++ [SPACE]) :: split_from sep 0 [] (SPACE :: back).
Proof.
  unfold combineFaceNames. revert cur.
  induction front as [|c f IH]; intros cur H.
  - reflexivity.
  - cbn [includes] in H. apply orb_false_iff in H as [H1 H2].
    change ((c :: f) ++ [SPACE; SLASH; SLASH; SPACE] ++ back)
      with (c :: f ++ SPACE :: [SLASH; SLASH; SPACE] ++ back).
    cbn [split_from]. rewrite (startsWith_before_space c f _ H1).
    change (f ++ SPACE :: [SLASH; SLASH; SPACE] ++ back)
      with (f ++ [SPACE; SLASH; SLASH; SPACE] ++ back).
    rewrite (IH (c :: cur) H2). simpl. now rewrite <- !app_assoc.
Qed.

Lemma includes_combined (front back : jsstring) :
  includes (combineFaceNames front back) sep = true.
Proof.
  unfold combineFaceNames.
  induction front as [|c f IH]; [reflexivity|].
  change ((c :: f) ++ [SPACE; SLASH; SLASH; SPACE] ++ back)
    with (c :: (f ++ [SPACE; SLASH; SLASH; SPACE] ++ back)).
  cbn [includes]. rewrite IH. apply orb_true_r.
Qed.

Lemma trimStart_snoc_space (s : jsstring) :
  trimStart (s ++ [SPACE])
  = match trimStart s with [] => [] | t => t ++ [SPACE] end.
Proof.
  induction s as [|c s IH]; [reflexivity|].
  change ((c :: s) ++ [SPACE]) with (c :: (s ++ [SPACE])).
  cbn [trimStart]. destruct (is_space c); [exact IH|reflexivity].
Qed.

Lemma trim_snoc_space (s : jsstring) : trim (s ++ [SPACE]) = trim s.
Proof.
  unfold trim. rewrite trimStart_snoc_space.
  destruct (trimStart s) as [|c t]; [reflexivity|].
  apply trimEnd_snoc_space.
Qed.

(** Combining two face names and extracting the face names again gives
    the two names back, trimmed, when neither contains the separator
    [//]; and the combined name is recognised as a multi-face name. *)
Theorem extract_combined_faces (front back : jsstring) :
  includes front sep = false -> includes back sep = false ->
  extractFaceNames (combineFaceNames front back) = [trim front; trim back]
  /\ isMultiFaceCardName (combineFaceNames front back) = true.
Proof.
  intros Hf Hb. split; [|apply includes_combined].
  unfold extractFaceNames, split. rewrite includes_combined.
  rewrite (@split_combined front back [] Hf).
  rewrite split_without_separator.
  - cbn [rev app map]. rewrite trim_snoc_space. reflexivity.
  - cbn [includes]. rewrite Hb. reflexivity.
Qed.

Lemma extract_combined_faces_witness :
  extractFaceNames (combineFaceNames (lit "Fire") (lit "Ice"))
  = [trim (lit "Fire"); trim (lit "Ice")].
Proof.
  apply (@extract_combined_faces (lit "Fire") (lit "Ice")); reflexivity.
Defined.

End FaceNameFacts.

(** ** More on the retry loop *)

Module RetryExtras.

Import Client ClientView ClientFacts RetryFacts.

Local Open Scope Z_scope.

Lemma backoff_sleeps_app (a b : list Event) :
  backoff_sleeps (a ++ b) = backoff_sleeps a ++ backoff_sleeps b.
Proof.
  induction a as [|e a IH]; simpl; [reflexivity|].
  destruct e as [[] ms| | |]; simpl; now rewrite IH.
Qed.

Lemma throttle_backoff (net : Network) (w : World) :
  backoff_sleeps (trace (throttle net w)) = backoff_sleeps (trace w).
Proof.
  unfold throttle. destruct (now w - lastRequest w <? minDelay); simpl;
    [|reflexivity].
  rewrite backoff_sleeps_app. simpl. apply app_nil_r.
Qed.

Lemma fetch_counts (net : Network) url timeout (w : World) :
  fetches (snd (fetch net url timeout w)) = S (fetches w).
Proof.
  unfold fetch. destruct (outcome net (fetches w) url) as [d r|d m];
    destruct (in_time timeout d); reflexivity.
Qed.

Lemma attempts_bound (net : Network) url retries timeout left attempt w :
  (fetches w <= fetches (snd (attempts net url retries timeout left attempt w))
   <= fetches w + left)%nat
  /\ forall r,
       fst (attempts net url retries timeout left attempt w) = Ok r ->
       (fetches w
        < fetches (snd (attempts net url retries timeout left attempt w)))%nat.
Proof.
  revert attempt w. induction left as [|left IH]; intros attempt w.
  - simpl. split; [lia|discriminate].
  - cbn [attempts].
    pose proof (fetch_counts net url timeout (throttle net w)) as Hc.
    rewrite (proj1 (throttle_fetches net w)) in Hc.
    destruct (fetch net url timeout (throttle net w)) as [f w1].
    cbn [snd] in Hc. destruct f as [r| |m].
    + destruct (status r =? 429).
      * match goal with
        | |- context [attempts _ _ _ _ left (S attempt) ?w'] =>
            destruct (IH (S attempt) w') as [Hb Hok];
            change (fetches w') with (fetches w1) in Hb, Hok
        end.
        split; [lia|]. intros r' Hr'. specialize (Hok r' Hr'). lia.
      * cbn [fst snd]. split; [lia|]. intros; lia.
    + cbn [fst snd]. split; [lia|discriminate].
    + destruct (Nat.eqb attempt (retries - 1)).
      * cbn [fst snd]. split; [lia|discriminate].
      * match goal with
        | |- context [attempts _ _ _ _ left (S attempt) ?w'] =>
            destruct (IH (S attempt) w') as [Hb Hok];
            change (fetches w') with (fetches w1) in Hb, Hok
        end.
        split; [lia|]. intros r' Hr'. specialize (Hok r' Hr'). lia.
Qed.

(** Whatever the network does, one call of [fetchWithBackoff] makes at
    most [retries] requests (3 by default); it makes at least one when it
    returns a response, and none at all with a budget of 0, when it fails
    with the max-retries error at once. *)
Theorem requests_within_budget (net : Network) (url : jsstring)
  (retries : option nat) (timeout : option Z) (w : World) :
  let n := match retries with Some n => n | None => 3%nat end in
  (fetches w <= fetches (snd (fetchWithBackoff net url retries timeout w))
   <= fetches w + n)%nat
  /\ (forall r,
        fst (fetchWithBackoff net url retries timeout w) = Ok r ->
        (fetches w
         < fetches (snd (fetchWithBackoff net url retries timeout w)))%nat)
  /\ (n = 0%nat ->
      fetchWithBackoff net url retries timeout w
      = (Throw MAX_RETRIES_EXCEEDED, w)).
Proof.
  intros n. unfold fetchWithBackoff. fold n.
  destruct (attempts_bound net url n
              (match timeout with Some t => t | None => 30000 end) n 0 w)
    as [Hb Hok].
  split; [exact Hb|]. split; [exact Hok|]. intros ->. reflexivity.
Qed.

Lemma requests_within_budget_witness :
  fetchWithBackoff always_down [] (Some 0%nat) None (initial 1000)
  = (Throw MAX_RETRIES_EXCEEDED, initial 1000).
Proof.
  apply (proj2 (proj2 (@requests_within_budget always_down [] (Some 0%nat)
                         None (initial 1000)))).
  reflexivity.
Defined.

(** A request that is still pending when the abort timer fires is not
    tried again, whatever is left of the budget: the call fails with the
    request-timeout error (408) after that one request. *)
Theorem timeout_is_not_retried (net : Network) (url : jsstring)
  (retries : option nat) (timeout : option Z) (w : World) :
  let n := match retries with Some n => n | None => 3%nat end in
  let t := match timeout with Some t => t | None => 30000 end in
  (0 < n)%nat ->
  is_slow t (outcome net (fetches w) url) = true ->
  fst (fetchWithBackoff net url retries timeout w) = Throw REQUEST_TIMEOUT
  /\ fetches (snd (fetchWithBackoff net url retries timeout w))
     = S (fetches w).
Proof.
  intros n t Hn Hslow. unfold fetchWithBackoff. fold n t.
  destruct n as [|n']; [lia|]. cbn [attempts]. unfold fetch.
  rewrite (proj1 (throttle_fetches net w)).
  destruct (outcome net (fetches w) url) as [d r|d m]; simpl in Hslow;
    apply negb_true_iff in Hslow; rewrite Hslow; split; reflexivity.
Qed.

Lemma timeout_is_not_retried_witness :
  fst (fetchWithBackoff too_slow [] None None (initial 1000))
  = Throw REQUEST_TIMEOUT.
Proof.
  apply (@timeout_is_not_retried too_slow [] None None (initial 1000));
    [vm_compute; lia|reflexivity].
Defined.

Lemma attempts_all_rejected (net : Network) url retries timeout left
  attempt w :
  (attempt + S left = retries)%nat ->
  (forall k, (k <= left)%nat ->
     is_rejection timeout (outcome net (fetches w + k) url) = true) ->
  fst (attempts net url retries timeout (S left) attempt w)
  = Throw (JsError (rejection_message (outcome net (fetches w + left) url)))
  /\ fetches (snd (attempts net url retries timeout (S left) attempt w))
     = (fetches w + S left)%nat
  /\ backoff_sleeps
       (trace (snd (attempts net url retries timeout (S left) attempt w)))
     = backoff_sleeps (trace w)
       ++ map (fun k => Some (1000 * (Z.of_nat (attempt + k) + 1)))
            (seq 0 left).
Proof.
  revert attempt w. induction left as [|left IH]; intros attempt w Hsum Hall.
  - pose proof (Hall 0%nat ltac:(lia)) as H0. rewrite Nat.add_0_r in H0 |- *.
    cbn [attempts]. unfold fetch. rewrite (proj1 (throttle_fetches net w)).
    destruct (outcome net (fetches w) url) as [d r|d m]; [discriminate|].
    simpl in H0. rewrite H0.
    replace (Nat.eqb attempt (retries - 1)) with true
      by (symmetry; apply Nat.eqb_eq; lia).
    cbn [fst snd fetches trace seq map rejection_message].
    rewrite backoff_sleeps_app, throttle_backoff, !app_nil_r.
    repeat split; lia.
  - pose proof (Hall 0%nat ltac:(lia)) as H0. rewrite Nat.add_0_r in H0.
    remember (S left) as left' eqn:El. cbn [attempts]. unfold fetch.
    rewrite (proj1 (throttle_fetches net w)).
    destruct (outcome net (fetches w) url) as [d r|d m] eqn:Ho;
      [discriminate|].
    simpl in H0. rewrite H0.
    replace (Nat.eqb attempt (retries - 1)) with false
      by (symmetry; apply Nat.eqb_neq; lia).
    match goal with
    | |- context [attempts _ _ _ _ left' (S attempt) ?w'] => set (w2 := w')
    end.
    assert (Hf2 : fetches w2 = S (fetches w)) by reflexivity.
    assert (Hs2 : backoff_sleeps (trace w2)
                  = backoff_sleeps (trace w)
                    ++ [Some (1000 * (Z.of_nat attempt + 1))]).
    { unfold w2, sleep; cbn [trace].
      rewrite !backoff_sleeps_app, throttle_backoff. simpl.
      now rewrite app_nil_r. }
    subst left'.
    destruct (IH (S attempt) w2) as (Hres & Hcount & Hsleeps); [lia| |].
    { intros k Hk. rewrite Hf2.
      replace (S (fetches w) + k)%nat with (fetches w + S k)%nat by lia.
      apply Hall. lia. }
    rewrite Hres, Hcount, Hsleeps, Hs2, Hf2. split; [|split].
    + replace (S (fetches w) + left)%nat with (fetches w + S left)%nat by lia.
      reflexivity.
    + lia.
    + rewrite <- app_assoc. f_equal. cbn [seq map app].
      rewrite Nat.add_0_r. f_equal.
      rewrite <- seq_shift, map_map. apply map_ext. intros k.
      do 3 f_equal. lia.
Qed.

(** When every request fails on the network (not by the abort timer), the
    client makes exactly [retries] requests, sleeps 1 s, 2 s, ... between
    them (a delay that grows by one second per attempt, and none after the
    last), and fails with the error of the last request, not with the
    max-retries error. *)
Theorem failures_back_off_linearly (net : Network) (url : jsstring)
  (retries : option nat) (timeout : option Z) (w : World) :
  let n := match retries with Some n => n | None => 3%nat end in
  let t := match timeout with Some t => t | None => 30000 end in
  (0 < n)%nat ->
  (forall k, (k < n)%nat ->
     is_rejection t (outcome net (fetches w + k) url) = true) ->
  fst (fetchWithBackoff net url retries timeout w)
  = Throw (JsError
             (rejection_message (outcome net (fetches w + (n - 1)) url)))
  /\ fetches (snd (fetchWithBackoff net url retries timeout w))
     = (fetches w + n)%nat
  /\ backoff_sleeps
       (trace (snd (fetchWithBackoff net url retries timeout w)))
     = backoff_sleeps (trace w)
       ++ map (fun k => Some (1000 * (Z.of_nat k + 1))) (seq 0 (n - 1)).
Proof.
  intros n t Hn Hall. unfold fetchWithBackoff. fold n t.
  destruct n as [|n']; [lia|].
  replace (S n' - 1)%nat with n' by lia.
  apply (@attempts_all_rejected net url (S n') t n' 0%nat w); [lia|].
  intros k Hk. apply Hall. lia.
Qed.

Lemma failures_back_off_linearly_witness :
  fst (fetchWithBackoff always_down [] None None (initial 1000))
  = Throw (JsError (lit "ECONNRESET"))
  /\ backoff_sleeps
       (trace (snd (fetchWithBackoff always_down [] None None
                      (initial 1000))))
     = [Some 1000; Some 2000].
Proof.
  destruct (@failures_back_off_linearly always_down [] None None
              (initial 1000)) as (H1 & _ & H3).
  - vm_compute. lia.
  - intros k _. reflexivity.
  - split; [exact H1|exact H3].
Defined.

Lemma attempts_answer (net : Network) url retries timeout (r : Response) :
  forall (k left attempt : nat) (w : World),
  (k < left)%nat ->
  (forall i, (i < k)%nat ->
     is_rate_limit timeout (outcome net (fetches w + i) url) = true) ->
  answers timeout (outcome net (fetches w + k) url) r ->
  fst (attempts net url retries timeout left attempt w) = Ok r
  /\ fetches (snd (attempts net url retries timeout left attempt w))
     = (fetches w + S k)%nat.
Proof.
  induction k as [|k IH]; intros left attempt w Hk Hall (d & Ho & Hd & Hst);
    (destruct left as [|left]; [lia|]).
  - rewrite Nat.add_0_r in Ho. cbn [attempts]. unfold fetch.
    rewrite (proj1 (throttle_fetches net w)), Ho, Hd, Hst.
    cbn [fst snd fetches]. split; [reflexivity|lia].
  - pose proof (Hall 0%nat ltac:(lia)) as H0. rewrite Nat.add_0_r in H0.
    cbn [attempts]. unfold fetch.
    rewrite (proj1 (throttle_fetches net w)).
    destruct (outcome net (fetches w) url) as [d0 r0|d0 m0]; [|discriminate].
    simpl in H0. apply andb_true_iff in H0 as [Hd0 Hs0]. rewrite Hd0, Hs0.
    match goal with
    | |- context [attempts _ _ _ _ left (S attempt) ?w'] => set (w2 := w')
    end.
    assert (Hf2 : fetches w2 = S (fetches w)) by reflexivity.
    destruct (IH left (S attempt) w2) as [Hres Hcount]; [lia| | |].
    + intros i Hi. rewrite Hf2.
      replace (S (fetches w) + i)%nat with (fetches w + S i)%nat by lia.
      apply Hall. lia.
    + exists d. rewrite Hf2.
      replace (S (fetches w) + k)%nat with (fetches w + S k)%nat by lia. auto.
    + split; [exact Hres|]. rewrite Hcount, Hf2. lia.
Qed.

(** After [k] rate-limit answers, with [k] below the budget, the first
    response that arrives in time with any other status is returned as it
    is, after [k + 1] requests: an error status such as 500 is handed to
    the caller, not retried. *)
Theorem first_answer_is_returned (net : Network) (url : jsstring)
  (retries : option nat) (timeout : option Z) (w : World) (k : nat)
  (r : Response) :
  let n := match retries with Some n => n | None => 3%nat end in
  let t := match timeout with Some t => t | None => 30000 end in
  (k < n)%nat ->
  (forall i, (i < k)%nat ->
     is_rate_limit t (outcome net (fetches w + i) url) = true) ->
  answers t (outcome net (fetches w + k) url) r ->
  fst (fetchWithBackoff net url retries timeout w) = Ok r
  /\ fetches (snd (fetchWithBackoff net url retries timeout w))
     = (fetches w + S k)%nat.
Proof.
  intros n t Hk Hall Hans. unfold fetchWithBackoff. fold n t.
  now apply attempts_answer.
Qed.

Lemma first_answer_is_returned_witness :
  fst (fetchWithBackoff answers_500 [] None None (initial 1000))
  = Ok error_500.
Proof.
  apply (@first_answer_is_returned answers_500 [] None None (initial 1000)
           0%nat error_500).
  - vm_compute. lia.
  - intros i Hi. lia.
  - exists 30%N. repeat split.
Defined.

End RetryExtras.

(** ** More on the resolver *)

Module ResolverExtras.

Import Normalizer Resolver Lookup JsStringFacts VariantFacts ResolverFacts
  UpsertFacts CatalogFacts.

Lemma find_exists {A : Type} (p : A -> bool) (l : list A) (x : A) :
  In x l -> p x = true -> exists y, find p l = Some y.
Proof.
  induction l as [|a l IH]; simpl; [tauto|].
  intros [->|Hin] Hp.
  - rewrite Hp. eauto.
  - destruct (p a); eauto.
Qed.

Lemma startsWith_includes (s p : jsstring) :
  startsWith s p = true -> includes s p = true.
Proof. intros H. destruct s; simpl in *; now rewrite H. Qed.





Section WithEnvironment.

Variable rt : UnicodeRuntime.
Variable refuses : Constraints.
Variable remote : Remote.

(** What a successful resolution can be. *)
Lemma resolve_ok (cat cat' : Catalog.t) (input : jsstring)
  (r : ResolveResult) :
  resolveCardName rt refuses remote cat input = (Ok r, cat') ->
  Resolver.input r = input
  /\ (status r <> fuzzy -> cat' = cat)
  /\ match status r with
     | exact | normalized =>
         card r <> None /\ candidates r = None /\ matchedFace r = None
     | face_match => matchedFace r <> None /\ candidates r = None
     | fuzzy => candidates r = None /\ matchedFace r = None
     | ambiguous =>
         card r = None /\ matchedFace r = None
         /\ exists l, candidates r = Some l /\ 2 <= length l <= 10
     | not_found =>
         card r = None /\ candidates r = None /\ matchedFace r = None
     end.
Proof.
  unfold resolveCardName. rewrite variants_head.
  set (primary := normalizeName rt input).
  destruct (card_findFirst cat primary) as [cw|].
  { intros [= <- <-]. simpl. repeat split; auto; discriminate. }
  destruct (first_face cat (parseCardNameVariants rt input)) as [face|].
  { intros [= <- <-]. simpl. repeat split; auto; discriminate. }
  match goal with
  | |- context [match ?found with Some _ => _ | None => _ end] =>
      destruct found as [cw|]
  end.
  { intros [= <- <-]. simpl. repeat split; auto; discriminate. }
  destruct (Nat.ltb 1 (length (prefix_candidates cat primary))) eqn:Hlen.
  { intros [= <- <-]. simpl. repeat split; auto.
    eexists. split; [reflexivity|]. apply Nat.ltb_lt in Hlen.
    pose proof (prefix_candidates_bound cat primary). lia. }
  unfold fetchAndCacheFromScryfall.
  destruct (getCardByName remote input) as [[sc|]|e]; [| |discriminate].
  - destruct (upsertCardFromScryfall rt refuses cat sc) as [[c0|e] cat1];
      [|discriminate].
    intros [= <- <-]. simpl. repeat split; auto. intros H. now elim H.
  - intros [= <- <-]. simpl. repeat split; auto.
Qed.

(** A resolution writes to the store only when it ends in the remote
    fallback with a match: whenever the result is not [fuzzy], the store is
    as it was. *)
Theorem store_changes_only_on_fuzzy (cat cat' : Catalog.t)
  (input : jsstring) (r : ResolveResult) :
  resolveCardName rt refuses remote cat input = (Ok r, cat') ->
  status r <> fuzzy -> cat' = cat.
Proof. intros H. exact (proj1 (proj2 (resolve_ok _ _ H))). Qed.

(** The fields of a result agree with its status: [exact] and
    [normalized] carry a card and nothing else, [face_match] carries the
    index of the face, [ambiguous] carries between 2 and 10 candidates and
    no card, [not_found] carries nothing; the input is echoed. *)
Theorem result_fields_follow_status (cat cat' : Catalog.t)
  (input : jsstring) (r : ResolveResult) :
  resolveCardName rt refuses remote cat input = (Ok r, cat') ->
  Resolver.input r = input
  /\ match status r with
     | exact | normalized =>
         card r <> None /\ candidates r = None /\ matchedFace r = None
     | face_match => matchedFace r <> None /\ candidates r = None
     | fuzzy => candidates r = None /\ matchedFace r = None
     | ambiguous =>
         card r = None /\ matchedFace r = None
         /\ exists l, candidates r = Some l /\ 2 <= length l <= 10
     | not_found =>
         card r = None /\ candidates r = None /\ matchedFace r = None
     end.
Proof.
  intros H. destruct (resolve_ok _ _ H) as (H1 & _ & H3). auto.
Qed.

(** On a store in which the normalized name of every card is the
    normalization of its name, as the upserts leave it, no resolution ends
    with the status [normalized]: a candidate of the prefix scan whose
    normalized name is the one looked for would have been found by the
    exact stage. *)
Theorem normalized_is_unreachable (cat cat' : Catalog.t) (input : jsstring)
  (r : ResolveResult) :
  (forall c, In c (Catalog.cards cat) ->
     Card.normalizedName c = normalizeName rt (Card.name c)) ->
  resolveCardName rt refuses remote cat input = (Ok r, cat') ->
  status r <> normalized.
Proof.
  intros Hnorm. unfold resolveCardName. rewrite variants_head.
  set (primary := normalizeName rt input).
  destruct (card_findFirst cat primary) as [cw|] eqn:Hexact.
  { intros [= <- <-]. discriminate. }
  destruct (first_face cat (parseCardNameVariants rt input)) as [face|].
  { intros [= <- <-]. discriminate. }
  assert (Hnone : find (fun c => JsString.eqb (normalizeName rt (name c))
                                   primary)
                    (prefix_candidates cat primary) = None).
  { destruct (find _ (prefix_candidates cat primary)) as [c|] eqn:Hf;
      [|reflexivity].
    exfalso. apply find_some in Hf as [Hin Heq]. apply eqb_eq in Heq.
    apply prefix_candidates_stored in Hin as (stored & Hin & -> & _).
    simpl in Heq. rewrite <- (Hnorm stored Hin) in Heq.
    unfold card_findFirst in Hexact.
    destruct (find_exists
                (fun c => JsString.eqb (Card.normalizedName c) primary)
                (Catalog.cards cat) stored Hin) as [y Hy].
    - now apply eqb_eq.
    - rewrite Hy in Hexact. discriminate. }
  rewrite Hnone.
  destruct (Nat.ltb 1 (length (prefix_candidates cat primary))).
  { intros [= <- <-]. discriminate. }
  unfold fetchAndCacheFromScryfall.
  destruct (getCardByName remote input) as [[sc|]|e]; [| |discriminate].
  - destruct (upsertCardFromScryfall rt refuses cat sc) as [[c0|e] cat1];
      [|discriminate].
    intros [= <- <-]. discriminate.
  - intros [= <- <-]. discriminate.
Qed.

(** After an accepted upsert of a record, resolving the name of the record
    is an [exact] match that leaves the store as it is, whatever the remote
    source would answer; the card found has the normalized name of the
    record, and it is the card of the record when no other stored card has
    that normalized name. *)
Theorem resolve_after_upsert (cat cat1 : Catalog.t) (c : ScryfallCard.t) :
  SyncUpsert.upsertCard rt refuses cat c = (Ok tt, cat1) ->
  exists found,
    resolveCardName rt refuses remote cat1 (ScryfallCard.name c)
    = (Ok {| status := exact; card := Some found; candidates := None;
             matchedFace := None; input := ScryfallCard.name c |}, cat1)
    /\ Card.normalizedName (row found)
       = normalizeName rt (ScryfallCard.name c)
    /\ ((forall x, In x (Catalog.cards cat1) ->
           Card.normalizedName x = normalizeName rt (ScryfallCard.name c) ->
           Card.oracleId x = ScryfallCard.oracle_id c) ->
        Card.oracleId (row found) = ScryfallCard.oracle_id c).
Proof.
  intros Hup.
  pose proof (@upsertCard_accepted rt refuses cat cat1 c tt Hup) as Hcat.
  destruct (writes_lookup rt cat c) as (id & Hx & _).
  rewrite <- Hcat in Hx.
  assert (Hn : Card.normalizedName (Store.card_row rt id c)
               = normalizeName rt (ScryfallCard.name c)) by reflexivity.
  set (x := Store.card_row rt id c) in *.
  apply find_some in Hx as [Hin _].
  destruct (find_exists
              (fun y => JsString.eqb (Card.normalizedName y)
                          (normalizeName rt (ScryfallCard.name c)))
              (Catalog.cards cat1) x Hin) as [y Hy];
    [now apply eqb_eq|].
  exists (with_relations cat1 y). unfold resolveCardName.
  rewrite variants_head. unfold card_findFirst. rewrite Hy. cbn [option_map].
  apply find_some in Hy as [Hyin Hyn]. apply eqb_eq in Hyn.
  split; [reflexivity|]. split; [exact Hyn|]. intros Huniq.
  now apply Huniq.
Qed.

(** [resolveCardNames] answers in the order of its inputs, with one
    result per input. *)
Theorem resolveCardNames_keeps_order (inputs : list jsstring) :
  forall (cat cat' : Catalog.t) (results : list ResolveResult),
  resolveCardNames rt refuses remote cat inputs = (Ok results, cat') ->
  map Resolver.input results = inputs.
Proof.
  induction inputs as [|i inputs IH]; intros cat cat' results; simpl.
  - intros [= <- _]. reflexivity.
  - destruct (resolveCardName rt refuses remote cat i) as [[r|e] cat1] eqn:Hr;
      [|discriminate].
    destruct (resolveCardNames rt refuses remote cat1 inputs)
      as [[rs|e] cat2] eqn:Hrs; [|discriminate].
    intros [= <- _]. simpl. rewrite (IH _ _ _ Hrs).
    now rewrite (proj1 (resolve_ok _ _ Hr)).
Qed.

Variable orderByName : list Card.t -> list Card.t.
Variable takeOutside : IntOrNaN -> list Card.t -> Result (list Card.t).
Hypothesis orderByName_In :
  forall l x, In x (orderByName l) -> In x l.
Hypothesis takeOutside_In :
  forall n l l' x, takeOutside n l = Ok l' -> In x l' -> In x l.

Lemma findMany_take_In (n : IntOrNaN) (l l' : list Card.t) (x : Card.t) :
  findMany_take takeOutside n l = Ok l' -> In x l' -> In x l.
Proof.
  unfold findMany_take. destruct n as [z|]; [|apply takeOutside_In].
  destruct (0 <=? z)%Z; [|apply takeOutside_In].
  intros [= <-]. apply firstn_In.
Qed.

(** [autocompleteCards] on every limit it can be given, an integer or
    NaN.  A query of fewer than two code units gives no suggestion.  Every
    suggestion is of a stored card whose normalized name contains the
    normalized query.  With a limit that is a non-negative integer (10 by
    default) the call returns at most that many suggestions.  With a
    negative limit the test [prefixMatches.length >= limit] always holds:
    the call returns what the prefix query returned, which is not bounded
    by the limit. *)
Theorem autocompleteCards_bounded (cat : Catalog.t) (query : jsstring)
  (limit : option IntOrNaN) :
  let n := match limit with Some n => n | None => Int 10 end in
  let result :=
    autocompleteCards rt orderByName takeOutside cat query limit in
  let prefixRows :=
    orderByName
      (filter (fun c => startsWith (Card.normalizedName c)
                          (normalizeName rt query)) (Catalog.cards cat)) in
  (length query < 2 -> result = Ok [])
  /\ (forall found c, result = Ok found -> In c found ->
        exists stored,
          In stored (Catalog.cards cat) /\ c = candidate_of stored
          /\ includes (Card.normalizedName stored) (normalizeName rt query)
             = true)
  /\ (forall z, n = Int z -> (0 <= z)%Z ->
        exists found,
          result = Ok found /\ (Z.of_nat (length found) <= z)%Z)
  /\ (forall z, n = Int z -> (z < 0)%Z -> 2 <= length query ->
        result
        = match takeOutside (Int z) prefixRows with
          | Ok rows => Ok (map candidate_of rows)
          | Throw e => Throw e
          end).
Proof.
  intros n result prefixRows. unfold result, autocompleteCards. fold n.
  fold prefixRows.
  set (normalized := normalizeName rt query) in *.
  set (con := orderByName (filter _ (Catalog.cards cat))).
  assert (Hpre : forall c, In c prefixRows ->
            In c (Catalog.cards cat)
            /\ includes (Card.normalizedName c) normalized = true).
  { intros c Hc. apply orderByName_In, filter_In in Hc as [Hin Hp].
    auto using startsWith_includes. }
  assert (Hcon : forall c, In c con ->
            In c (Catalog.cards cat)
            /\ includes (Card.normalizedName c) normalized = true).
  { intros c Hc. apply orderByName_In, filter_In in Hc as [Hin Hp].
    apply andb_true_iff in Hp as [Hp _]. auto. }
  destruct (Nat.ltb (length query) 2) eqn:Hq.
  { apply Nat.ltb_lt in Hq. split; [reflexivity|]. split; [|split].
    - intros found c [= <-] [].
    - intros z _ Hz. exists []. split; [reflexivity|]. simpl. lia.
    - intros z _ _ Hlen. lia. }
  apply Nat.ltb_ge in Hq. split; [lia|]. split; [|split].
  - intros found c.
    destruct (findMany_take takeOutside n prefixRows) as [rows|e] eqn:Hrows;
      [|discriminate].
    assert (Hin1 : forall x, In x (map candidate_of rows) ->
              exists stored,
                In stored (Catalog.cards cat) /\ x = candidate_of stored
                /\ includes (Card.normalizedName stored) normalized = true).
    { intros x Hx. apply in_map_iff in Hx as (stored & <- & Hs).
      apply (findMany_take_In _ _ _ Hrows), Hpre in Hs. exists stored.
      tauto. }
    destruct (reached (length (map candidate_of rows)) n).
    { intros [= <-]. apply Hin1. }
    destruct (findMany_take takeOutside _ con) as [rows'|e] eqn:Hrows';
      [|discriminate].
    intros [= <-] Hc. apply in_app_iff in Hc as [Hc|Hc]; [now apply Hin1|].
    apply in_map_iff in Hc as (stored & <- & Hs).
    apply (findMany_take_In _ _ _ Hrows'), Hcon in Hs. exists stored. tauto.
  - intros z -> Hz. cbn [findMany_take reached minus].
    replace (0 <=? z)%Z with true by (symmetry; apply Z.leb_le; lia).
    pose proof (firstn_le_length (Z.to_nat z) prefixRows) as Hlen.
    rewrite length_map.
    destruct (z <=? Z.of_nat (length (firstn (Z.to_nat z) prefixRows)))%Z
      eqn:Hfull.
    + eexists. split; [reflexivity|]. rewrite length_map. lia.
    + apply Z.leb_gt in Hfull.
      replace (0 <=? z - Z.of_nat (length (firstn (Z.to_nat z) prefixRows)))%Z
        with true by (symmetry; apply Z.leb_le; lia).
      eexists. split; [reflexivity|].
      rewrite length_app, !length_map.
      pose proof (firstn_le_length
                    (Z.to_nat
                       (z - Z.of_nat
                              (length (firstn (Z.to_nat z) prefixRows))))
                    con). lia.
  - intros z -> Hz _. cbn [findMany_take reached].
    replace (0 <=? z)%Z with false by (symmetry; apply Z.leb_gt; lia).
    destruct (takeOutside (Int z) prefixRows) as [rows|e]; [|reflexivity].
    replace (z <=? Z.of_nat (length (map candidate_of rows)))%Z with true;
      [reflexivity|].
    symmetry. apply Z.leb_le. lia.
Qed.

End WithEnvironment.

Lemma store_changes_only_on_fuzzy_witness :
  ResolverExamples.brain_catalog = ResolverExamples.brain_catalog.
Proof.
  refine (@store_changes_only_on_fuzzy Latin1.runtime no_constraints
            ResolverExamples.remote_404 ResolverExamples.brain_catalog
            ResolverExamples.brain_catalog (lit "brai") _ eq_refl _).
  vm_compute. discriminate.
Defined.

Lemma result_fields_follow_status_witness :
  exists r,
    fst (resolveCardName Latin1.runtime no_constraints
           ResolverExamples.remote_404 ResolverExamples.brain_catalog
           (lit "brai")) = Ok r
    /\ Resolver.input r = lit "brai".
Proof.
  eexists. split; [reflexivity|].
  refine (proj1 (@result_fields_follow_status Latin1.runtime no_constraints
            ResolverExamples.remote_404 ResolverExamples.brain_catalog
            ResolverExamples.brain_catalog (lit "brai") _ eq_refl)).
Defined.

Lemma normalized_is_unreachable_witness :
  exists r,
    fst (resolveCardName Latin1.runtime no_constraints
           ResolverExamples.remote_404 ResolverExamples.brain_catalog
           (lit "Brainstorm")) = Ok r
    /\ status r <> normalized.
Proof.
  eexists. split; [reflexivity|].
  refine (@normalized_is_unreachable Latin1.runtime no_constraints
            ResolverExamples.remote_404 ResolverExamples.brain_catalog
            ResolverExamples.brain_catalog (lit "Brainstorm") _ _ eq_refl).
  intros c H. vm_compute in H. destruct H as [<-|[<-|[]]]; reflexivity.
Defined.

Lemma resolve_after_upsert_witness :
  exists found,
    resolveCardName Latin1.runtime no_constraints ResolverExamples.remote_404
      ResolverExamples.one_brain_catalog (lit "Brainstorm")
    = (Ok {| status := exact; card := Some found; candidates := None;
             matchedFace := None; input := lit "Brainstorm" |},
       ResolverExamples.one_brain_catalog).
Proof.
  destruct (@resolve_after_upsert Latin1.runtime no_constraints
              ResolverExamples.remote_404 Examples.empty_catalog
              ResolverExamples.one_brain_catalog
              ResolverExamples.brainstorm eq_refl) as (found & H & _).
  exists found. exact H.
Defined.

Lemma resolveCardNames_keeps_order_witness :
  exists results,
    fst (resolveCardNames Latin1.runtime no_constraints
           ResolverExamples.remote_404 ResolverExamples.brain_catalog
           [lit "Brainstone"; lit "brai"]) = Ok results
    /\ map Resolver.input results = [lit "Brainstone"; lit "brai"].
Proof.
  eexists. split; [reflexivity|].
  refine (@resolveCardNames_keeps_order Latin1.runtime no_constraints
            ResolverExamples.remote_404 [lit "Brainstone"; lit "brai"]
            ResolverExamples.brain_catalog ResolverExamples.brain_catalog
            _ eq_refl).
Defined.

(** With the limit 1, the query "brain" gets one of the two stored cards
    whose names start with it. *)
Lemma autocompleteCards_bounded_witness :
  exists found,
    autocompleteCards Latin1.runtime (fun l => l) (fun _ l => Ok l)
      ResolverExamples.brain_catalog (lit "brain") (Some (Int 1)) = Ok found
    /\ (Z.of_nat (length found) <= 1)%Z.
Proof.
  refine (proj1 (proj2 (proj2
            (@autocompleteCards_bounded Latin1.runtime (fun l => l)
               (fun _ l => Ok l) _ _ ResolverExamples.brain_catalog
               (lit "brain") (Some (Int 1))))) 1%Z eq_refl _).
  - intros l x H. exact H.
  - intros n l l' x [= <-] H. exact H.
  - lia.
Defined.

(** With the limit -1 and a database client that answers a negative
    [take] with that many rows from the end, the same query gets one
    suggestion: more than the limit. *)
Lemma negative_limit_is_no_bound :
  autocompleteCards Latin1.runtime (fun l => l)
    (fun n l =>
       match n with
       | Int z => Ok (skipn (length l - Z.to_nat (- z)) l)
       | NaN => Throw (JsError (lit "PrismaClientValidationError"))
       end)
    ResolverExamples.brain_catalog (lit "brain") (Some (Int (-1)))
  = Ok [ResolverExamples.candidate "o-stone" "Brainstone"].
Proof. reflexivity. Qed.

End ResolverExtras.

(** ** Bulk sync: whole runs *)

Module RunFacts.

Import Sync SyncView LocalsView JsStringFacts BatchFacts StoreFacts LineFacts
  StreamFacts ResumeFacts.

Section WithStream.

Variable rt : UnicodeRuntime.
Variable refuses : Constraints.
Variable env : Env.
Variable resume : option jsstring.
Variable rid : jsstring.

Local Abbreviation step := (processLine rt refuses env resume rid).

Lemma streamLoop_out_of_time (startTime : Z) (k : nat)
  (items : list StreamItem) (acc : Locals.t * Database) :
  (clock env k - startTime > MAX_RUNTIME_MS)%Z ->
  streamLoop rt refuses env startTime resume rid k items acc = (TimedOut, acc).
Proof.
  intros H.
  assert (Hk : (clock env k - startTime >? MAX_RUNTIME_MS)%Z = true)
    by (apply Z.gtb_lt; lia).
  destruct items; cbn [streamLoop]; now rewrite Hk.
Qed.

(** A time-out after [read] chunks: the lines of these chunks have been
    processed, nothing else. *)
Lemma streamLoop_timeout (startTime : Z) (read : list jsstring)
  (rest : list StreamItem) :
  forall (k : nat) (st : Locals.t) (db : Database),
  (forall j, k <= j < k + length read ->
     (clock env j - startTime <= MAX_RUNTIME_MS)%Z) ->
  (clock env (k + length read) - startTime > MAX_RUNTIME_MS)%Z ->
  exists b,
    streamLoop rt refuses env startTime resume rid k (map Chunk read ++ rest)
      (st, db)
    = (TimedOut,
       (set_buffer b
          (fst (fold_left step (stream_lines (Locals.buffer st) read)
                  (st, db))),
        snd (fold_left step (stream_lines (Locals.buffer st) read)
               (st, db)))).
Proof.
  induction read as [|text read IH]; intros k st db Hin Hout.
  - exists (Locals.buffer st). cbn [map app stream_lines fold_left fst snd].
    rewrite set_buffer_same. apply streamLoop_out_of_time.
    cbn [length] in Hout. now rewrite Nat.add_0_r in Hout.
  - cbn [map app streamLoop stream_lines length] in *.
    assert (Hk : (clock env k - startTime >? MAX_RUNTIME_MS)%Z = false).
    { rewrite Z.gtb_ltb. apply Z.ltb_ge. apply Hin. lia. }
    rewrite Hk. unfold processChunk.
    set (lines := split (Locals.buffer st ++ text) [NEWLINE]).
    change {| Locals.processed := Locals.processed st;
              Locals.failed := Locals.failed st;
              Locals.lastOracleId := Locals.lastOracleId st;
              Locals.shouldSkip := Locals.shouldSkip st;
              Locals.buffer := last lines [];
              Locals.batch := Locals.batch st |}
      with (set_buffer (last lines []) st).
    rewrite fold_set_buffer, fold_left_app.
    destruct (fold_left step (removelast lines) (st, db)) as [st1 db1].
    cbn [fst snd].
    destruct (IH (S k) (set_buffer (last lines []) st1) db1) as [b Hb].
    + intros j Hj. apply Hin. lia.
    + replace (S k + length read) with (k + S (length read)) by lia.
      exact Hout.
    + exists b. rewrite Hb. cbn [set_buffer Locals.buffer].
      change {| Locals.processed := Locals.processed st1;
                Locals.failed := Locals.failed st1;
                Locals.lastOracleId := Locals.lastOracleId st1;
                Locals.shouldSkip := Locals.shouldSkip st1;
                Locals.buffer := last lines [];
                Locals.batch := Locals.batch st1 |}
        with (set_buffer (last lines []) st1).
      rewrite fold_set_buffer. cbn [fst snd]. now rewrite set_buffer_twice.
Qed.

End WithStream.

Section WithEnvironment.

Variable rt : UnicodeRuntime.
Variable refuses : Constraints.
Variable env : Env.




(** A resumed run whose checkpoint is the external id of no record of the
    stream skips every record: nothing is upserted, the store of cards is
    as before, and the run is nevertheless reported as completed, with the
    count it had when it was paused. *)
Theorem unknown_checkpoint_skips_everything (type : SyncType) (force : bool)
  (db : Database) (rid : jsstring) (run : SyncRun.t) (X url : jsstring)
  (chunks : list jsstring) :
  rid <> [] ->
  syncRun_findUnique rid (syncRuns db) = Some run ->
  SyncRun.status run = PAUSED ->
  SyncRun.lastOracleId run = Some X -> X <> [] ->
  SyncRun.blobUrl run = Some url -> url <> [] ->
  streamBulkData env url = Ok (map Chunk chunks) ->
  (forall k, (clock env k - clock env 0 <= MAX_RUNTIME_MS)%Z) ->
  (forall c, In c (records env (stream_lines [] chunks)) ->
     ScryfallCard.oracle_id c <> X) ->
  exists db',
    startSync rt refuses env type force (Some rid) db
    = (Ok {| SyncProgress.syncRunId := rid;
             SyncProgress.status := COMPLETED;
             SyncProgress.processed := SyncRun.processed run;
             SyncProgress.totalRecords :=
               Some (SyncRun.processed run
                     + (SyncRun.failed run
                        + malformed env (stream_lines [] chunks)));
             SyncProgress.lastOracleId := None |}, db')
    /\ catalog db' = catalog db.
Proof.
  intros Hrid Hfind Hpaused Hcursor HX Hurl Hurl' Hstream Htime Hnone.
  pose proof (@find_id rid _ run Hfind) as Hid.
  unfold startSync. destruct rid as [|c0 rid0]; [congruence|].
  set (rid := c0 :: rid0) in *.
  rewrite Hfind, Hpaused. cbn [SyncStatus_eqb negb]. rewrite Hid.
  unfold processSyncRun. rewrite Hfind, Hurl.
  destruct url as [|u0 url0]; [congruence|]. set (url := u0 :: url0) in *.
  rewrite Hstream, Hcursor.
  set (db0 := syncRun_update rid (only_status PROCESSING None) db).
  set (st0 := {| Locals.processed := SyncRun.processed run;
                 Locals.failed := SyncRun.failed run;
                 Locals.lastOracleId := None;
                 Locals.shouldSkip := truthy (Some X);
                 Locals.buffer := [];
                 Locals.batch := [] |}).
  assert (Hskip : Locals.shouldSkip st0 = true).
  { simpl. destruct X; [congruence|reflexivity]. }
  destruct (@streamLoop_complete rt refuses env (Some X) rid (clock env 0)
              chunks Htime 1 st0 db0) as [b Hloop].
  rewrite Hloop. clear Hloop.
  change (Locals.buffer st0) with (@nil code_unit).
  rewrite (@skip_phase rt refuses env (Some X) rid X
             (stream_lines [] chunks) st0 db0 eq_refl Hskip).
  - eexists. split; reflexivity.
  - intros l c Hin Hl. apply Hnone.
    exact (@records_In env _ l c Hin Hl).
Qed.

(** A resumed run that runs out of time before it has read the record of
    its checkpoint pauses again, with nothing upserted, and persists the
    checkpoint NULL: the checkpoint it resumed from is lost. *)
Theorem checkpoint_lost_when_paused_while_skipping (type : SyncType)
  (force : bool) (db : Database) (rid : jsstring) (run : SyncRun.t)
  (X url : jsstring) (read : list jsstring) (rest : list StreamItem) :
  rid <> [] ->
  syncRun_findUnique rid (syncRuns db) = Some run ->
  SyncRun.status run = PAUSED ->
  SyncRun.lastOracleId run = Some X -> X <> [] ->
  SyncRun.blobUrl run = Some url -> url <> [] ->
  streamBulkData env url = Ok (map Chunk read ++ rest) ->
  (forall j, 1 <= j < 1 + length read ->
     (clock env j - clock env 0 <= MAX_RUNTIME_MS)%Z) ->
  (clock env (1 + length read) - clock env 0 > MAX_RUNTIME_MS)%Z ->
  (forall c, In c (records env (stream_lines [] read)) ->
     ScryfallCard.oracle_id c <> X) ->
  exists db',
    startSync rt refuses env type force (Some rid) db
    = (Ok {| SyncProgress.syncRunId := rid;
             SyncProgress.status := PAUSED;
             SyncProgress.processed := SyncRun.processed run;
             SyncProgress.totalRecords := SyncRun.totalRecords run;
             SyncProgress.lastOracleId := None |}, db')
    /\ catalog db' = catalog db
    /\ exists run',
         syncRun_findUnique rid (syncRuns db') = Some run'
         /\ SyncRun.status run' = PAUSED
         /\ SyncRun.lastOracleId run' = None
         /\ SyncRun.processed run' = SyncRun.processed run.
Proof.
  intros Hrid Hfind Hpaused Hcursor HX Hurl Hurl' Hstream Hin Hout Hnone.
  pose proof (@find_id rid _ run Hfind) as Hid.
  unfold startSync. destruct rid as [|c0 rid0]; [congruence|].
  set (rid := c0 :: rid0) in *.
  rewrite Hfind, Hpaused. cbn [SyncStatus_eqb negb]. rewrite Hid.
  unfold processSyncRun. rewrite Hfind, Hurl.
  destruct url as [|u0 url0]; [congruence|]. set (url := u0 :: url0) in *.
  rewrite Hstream, Hcursor.
  set (db0 := syncRun_update rid (only_status PROCESSING None) db).
  set (st0 := {| Locals.processed := SyncRun.processed run;
                 Locals.failed := SyncRun.failed run;
                 Locals.lastOracleId := None;
                 Locals.shouldSkip := truthy (Some X);
                 Locals.buffer := [];
                 Locals.batch := [] |}).
  assert (Hskip : Locals.shouldSkip st0 = true).
  { simpl. destruct X; [congruence|reflexivity]. }
  destruct (@streamLoop_timeout rt refuses env (Some X) rid (clock env 0)
              read rest 1 st0 db0 Hin Hout) as [b Hloop].
  rewrite Hloop. clear Hloop.
  change (Locals.buffer st0) with (@nil code_unit).
  rewrite (@skip_phase rt refuses env (Some X) rid X
             (stream_lines [] read) st0 db0 eq_refl Hskip).
  - eexists. split; [reflexivity|]. split; [reflexivity|].
    eexists. split.
    + cbn [fst snd]. apply syncRun_update_found. unfold db0.
      apply syncRun_update_found. exact Hfind.
    + repeat split.
  - intros l c Hl Hc. apply Hnone.
    exact (@records_In env _ l c Hl Hc).
Qed.

End WithEnvironment.

Local Abbreviation card_a := (Examples.card (lit "a") (lit "a") None).
Local Abbreviation card_b := (Examples.card (lit "b") (lit "b") None).
Local Abbreviation card_c := (Examples.card (lit "c") (lit "c") None).


(** On the toy stream, the run paused at "z" completes with the count it
    had and stores nothing. *)
Lemma unknown_checkpoint_skips_everything_witness :
  exists db',
    startSync Latin1.runtime no_constraints SyncExamples.second_invocation
      oracle_cards false (Some (lit "run1")) RunExamples.paused_at_z
    = (Ok {| SyncProgress.syncRunId := lit "run1";
             SyncProgress.status := COMPLETED;
             SyncProgress.processed := 1;
             SyncProgress.totalRecords := Some 1;
             SyncProgress.lastOracleId := None |}, db')
    /\ catalog db' = Examples.empty_catalog.
Proof.
  destruct (@unknown_checkpoint_skips_everything Latin1.runtime
              no_constraints SyncExamples.second_invocation oracle_cards
              false RunExamples.paused_at_z (lit "run1")
              RunExamples.paused_row (lit "z")
              (download_uri SyncExamples.blob)
              [RunExamples.first_chunk; RunExamples.second_chunk])
    as (db' & Hrun & Hcat).
  - discriminate.
  - reflexivity.
  - reflexivity.
  - reflexivity.
  - discriminate.
  - reflexivity.
  - discriminate.
  - reflexivity.
  - intros k. vm_compute. discriminate.
  - intros c H. vm_compute in H.
    destruct H as [<-|[<-|[<-|[]]]]; discriminate.
  - exists db'. split; [exact Hrun|exact Hcat].
Defined.

(** On the toy stream, the run paused at "z" that runs out of time after
    its first chunk is paused again with the checkpoint NULL. *)
Lemma checkpoint_lost_when_paused_while_skipping_witness :
  exists db' run',
    startSync Latin1.runtime no_constraints SyncExamples.first_invocation
      oracle_cards false (Some (lit "run1")) RunExamples.paused_at_z
    = (Ok {| SyncProgress.syncRunId := lit "run1";
             SyncProgress.status := PAUSED;
             SyncProgress.processed := 1;
             SyncProgress.totalRecords := None;
             SyncProgress.lastOracleId := None |}, db')
    /\ syncRun_findUnique (lit "run1") (syncRuns db') = Some run'
    /\ SyncRun.lastOracleId run' = None.
Proof.
  destruct (@checkpoint_lost_when_paused_while_skipping Latin1.runtime
              no_constraints SyncExamples.first_invocation oracle_cards
              false RunExamples.paused_at_z (lit "run1")
              RunExamples.paused_row (lit "z")
              (download_uri SyncExamples.blob)
              [RunExamples.first_chunk] [Chunk RunExamples.second_chunk])
    as (db' & Hrun & _ & run' & Hfind & _ & Hcur & _).
  - discriminate.
  - reflexivity.
  - reflexivity.
  - reflexivity.
  - discriminate.
  - reflexivity.
  - discriminate.
  - reflexivity.
  - intros j Hj. assert (j = 1) as -> by (simpl in Hj; lia).
    vm_compute. discriminate.
  - vm_compute. reflexivity.
  - intros c H. vm_compute in H. destruct H as [<-|[<-|[]]]; discriminate.
  - exists db', run'. split; [exact Hrun|]. split; [exact Hfind|exact Hcur].
Defined.

End RunFacts.

(** ** Bulk sync: chunks *)

Module ChunkFacts.

Import Sync SyncView LocalsView JsStringFacts LineFacts StreamFacts.

Lemma startsWith_empty (s : jsstring) : startsWith s [] = true.
Proof. now destruct s. Qed.

Lemma split_newline_cons (cur : jsstring) (c : code_unit) (r : jsstring) :
  split_from [NEWLINE] 0 cur (c :: r)
  = if N.eqb NEWLINE c then rev cur :: split_from [NEWLINE] 0 [] r
    else split_from [NEWLINE] 0 (c :: cur) r.
Proof.
  cbn [split_from startsWith length Nat.pred].
  now rewrite startsWith_empty, andb_true_r.
Qed.

Lemma split_from_nonempty (sep : jsstring) (s : jsstring) :
  forall skip cur, split_from sep skip cur s <> [].
Proof.
  induction s as [|c r IH]; intros skip cur; cbn [split_from];
    [discriminate|].
  destruct skip; [|apply IH].
  destruct (startsWith (c :: r) sep); [discriminate|apply IH].
Qed.

Lemma removelast_cons {A : Type} (x : A) (l : list A) :
  l <> [] -> removelast (x :: l) = x :: removelast l.
Proof. now destruct l. Qed.

Lemma last_cons {A : Type} (x d : A) (l : list A) :
  l <> [] -> last (x :: l) d = last l d.
Proof. now destruct l. Qed.

Lemma last_app_nonempty {A : Type} (d : A) (a b : list A) :
  b <> [] -> last (a ++ b) d = last b d.
Proof.
  intros Hb. induction a as [|x a IH]; [reflexivity|].
  rewrite <- app_comm_cons, last_cons; [exact IH|].
  destruct a; simpl; [exact Hb|discriminate].
Qed.

(** Splitting a text at newlines, after more text has arrived: the
    complete lines stay, the last piece is continued. *)
Lemma split_from_app (s t : jsstring) :
  forall cur,
  split_from [NEWLINE] 0 cur (s ++ t)
  = removelast (split_from [NEWLINE] 0 cur s)
    ++ split_from [NEWLINE] 0
         (rev (last (split_from [NEWLINE] 0 cur s) [])) t.
Proof.
  induction s as [|c r IH]; intros cur.
  - cbn [app split_from removelast last]. now rewrite rev_involutive.
  - rewrite <- app_comm_cons, !split_newline_cons.
    destruct (N.eqb NEWLINE c).
    + rewrite removelast_cons, last_cons by apply split_from_nonempty.
      rewrite <- app_comm_cons. f_equal. apply IH.
    + apply IH.
Qed.

Lemma split_from_line (b t : jsstring) :
  ~ In NEWLINE b ->
  forall cur,
  split_from [NEWLINE] 0 cur (b ++ t)
  = split_from [NEWLINE] 0 (rev b ++ cur) t.
Proof.
  induction b as [|c b IH]; intros Hb cur; [reflexivity|].
  rewrite <- app_comm_cons, split_newline_cons.
  destruct (N.eqb NEWLINE c) eqn:E.
  - apply N.eqb_eq in E. elim Hb. now left.
  - rewrite IH by (intros H; apply Hb; now right).
    cbn [rev]. now rewrite <- app_assoc.
Qed.

Lemma last_piece_is_a_line (s : jsstring) :
  forall cur,
  ~ In NEWLINE cur ->
  ~ In NEWLINE (last (split_from [NEWLINE] 0 cur s) []).
Proof.
  induction s as [|c r IH]; intros cur Hcur.
  - cbn [split_from last]. now rewrite <- in_rev.
  - rewrite split_newline_cons. destruct (N.eqb NEWLINE c) eqn:E.
    + rewrite last_cons by apply split_from_nonempty. apply IH. intros [].
    + apply IH. intros [Hc|H]; [|now apply Hcur].
      rewrite Hc, N.eqb_refl in E. discriminate.
Qed.

Lemma split_continued (s t : jsstring) :
  split (s ++ t) [NEWLINE]
  = removelast (split s [NEWLINE])
    ++ split (last (split s [NEWLINE]) [] ++ t) [NEWLINE].
Proof.
  unfold split. rewrite split_from_app. f_equal.
  rewrite split_from_line, app_nil_r; [reflexivity|].
  apply last_piece_is_a_line. intros [].
Qed.

Section WithEnvironment.

Variable rt : UnicodeRuntime.
Variable refuses : Constraints.
Variable env : Env.
Variable resume : option jsstring.
Variable rid : jsstring.

Local Abbreviation step := (processLine rt refuses env resume rid).

Lemma processChunk_lines (st : Locals.t) (db : Database) (text : jsstring) :
  processChunk rt refuses env resume rid (st, db) text
  = (set_buffer (last (split (Locals.buffer st ++ text) [NEWLINE]) [])
       (fst (fold_left step
               (removelast (split (Locals.buffer st ++ text) [NEWLINE]))
               (st, db))),
     snd (fold_left step
            (removelast (split (Locals.buffer st ++ text) [NEWLINE]))
            (st, db))).
Proof.
  unfold processChunk.
  set (lines := split (Locals.buffer st ++ text) [NEWLINE]).
  change {| Locals.processed := Locals.processed st;
            Locals.failed := Locals.failed st;
            Locals.lastOracleId := Locals.lastOracleId st;
            Locals.shouldSkip := Locals.shouldSkip st;
            Locals.buffer := last lines [];
            Locals.batch := Locals.batch st |}
    with (set_buffer (last lines []) st).
  apply fold_set_buffer.
Qed.

(** How the text of the stream is cut into chunks does not matter: reading
    a chunk [a] and then a chunk [b] leaves the local variables and the
    store as reading the one chunk [a ++ b] does, wherever the cut falls
    (also inside a line). *)
Theorem chunk_boundaries_do_not_matter (acc : Locals.t * Database)
  (a b : jsstring) :
  processChunk rt refuses env resume rid
    (processChunk rt refuses env resume rid acc a) b
  = processChunk rt refuses env resume rid acc (a ++ b).
Proof.
  destruct acc as [st db].
  rewrite (processChunk_lines st db a), (processChunk_lines st db (a ++ b)).
  rewrite processChunk_lines. cbn [set_buffer Locals.buffer].
  rewrite app_assoc, (split_continued (Locals.buffer st ++ a) b).
  set (la := split (Locals.buffer st ++ a) [NEWLINE]).
  set (lb := split (last la [] ++ b) [NEWLINE]).
  assert (Hlb : lb <> []) by apply split_from_nonempty.
  rewrite removelast_app, last_app_nonempty by exact Hlb.
  rewrite fold_left_app.
  destruct (fold_left step (removelast la) (st, db)) as [st1 db1].
  cbn [fst snd].
  change {| Locals.processed := Locals.processed st1;
            Locals.failed := Locals.failed st1;
            Locals.lastOracleId := Locals.lastOracleId st1;
            Locals.shouldSkip := Locals.shouldSkip st1;
            Locals.buffer := last la [];
            Locals.batch := Locals.batch st1 |}
    with (set_buffer (last la []) st1).
  rewrite fold_set_buffer. reflexivity.
Qed.

End WithEnvironment.

End ChunkFacts.

(** ** Bulk sync: what the loop keeps *)

Module LoopFacts.

Import Sync SyncView LocalsView LoopView JsStringFacts BatchFacts LineFacts
  StreamFacts ChunkFacts.

Section WithEnvironment.

Variable rt : UnicodeRuntime.
Variable refuses : Constraints.
Variable env : Env.
Variable resume : option jsstring.
Variable rid : jsstring.

Local Abbreviation step := (processLine rt refuses env resume rid).

Lemma step_invariant (st0 : Locals.t) (db0 : Database)
  (acc : Locals.t * Database) (line : jsstring) :
  loop_invariant st0 db0 acc -> loop_invariant st0 db0 (step acc line).
Proof.
  destruct acc as [st db]. unfold loop_invariant. cbn [fst snd].
  intros (Hb & Hp & Hf & Hs).
  destruct (readLine env line) as [| |c] eqn:Hl.
  - rewrite (@line_ignored rt refuses env resume rid _ line Hl). auto.
  - rewrite (@line_malformed rt refuses env resume rid _ _ line Hl).
    cbn [fst snd with_failed Locals.batch Locals.processed Locals.failed
      Locals.shouldSkip Locals.lastOracleId].
    repeat split; try tauto; lia.
  - rewrite (@line_record rt refuses env resume rid _ _ line c Hl).
    destruct (Locals.shouldSkip st) eqn:Hskip.
    + destruct (Hs eq_refl) as (B & L & C & P).
      destruct (same _ resume);
        cbn [fst snd stop_skipping Locals.batch Locals.processed
          Locals.failed Locals.shouldSkip Locals.lastOracleId];
        repeat split; auto; discriminate.
    + cbv zeta.
      destruct (Nat.leb BATCH_SIZE (length (Locals.batch st ++ [c])))
        eqn:Hfull;
        cbn [fst snd Locals.batch Locals.processed Locals.failed
          Locals.shouldSkip Locals.lastOracleId].
      * split; [apply Nat.ltb_lt; reflexivity|].
        split; [lia|]. split; [lia|]. discriminate.
      * apply Nat.leb_gt in Hfull. repeat split; auto; discriminate.
Qed.

Lemma fold_invariant (st0 : Locals.t) (db0 : Database)
  (lines : list jsstring) :
  forall acc,
  loop_invariant st0 db0 acc ->
  loop_invariant st0 db0 (fold_left step lines acc).
Proof.
  induction lines as [|l lines IH]; intros acc H; cbn [fold_left];
    [exact H|].
  now apply IH, step_invariant.
Qed.

Lemma chunk_invariant (st0 : Locals.t) (db0 : Database)
  (acc : Locals.t * Database) (text : jsstring) :
  loop_invariant st0 db0 acc ->
  loop_invariant st0 db0 (processChunk rt refuses env resume rid acc text).
Proof.
  destruct acc as [st db]. intros H. rewrite processChunk_lines.
  set (lines := removelast (split (Locals.buffer st ++ text) [NEWLINE])).
  pose proof (@fold_invariant st0 db0 lines (st, db) H) as HF.
  destruct (fold_left step lines (st, db)) as [st1 db1]. exact HF.
Qed.

Lemma flush_invariant (st0 : Locals.t) (db0 : Database)
  (acc : Locals.t * Database) :
  loop_invariant st0 db0 acc ->
  loop_invariant st0 db0 (flushRemaining rt refuses acc).
Proof.
  destruct acc as [st db]. unfold loop_invariant, flushRemaining.
  cbn [fst snd]. intros (Hb & Hp & Hf & Hs).
  destruct (Locals.batch st) as [|c cs] eqn:Hbatch.
  - cbn [fst snd]. rewrite ?Hbatch. auto.
  - destruct (SyncUpsert.upsertCardBatch rt refuses (catalog db) (c :: cs))
      as [[s f] cat].
    cbn [fst snd Locals.batch Locals.processed Locals.failed
      Locals.shouldSkip Locals.lastOracleId].
    rewrite ?Hbatch. split; [exact Hb|]. split; [lia|]. split; [lia|].
    intros Hskip. destruct (Hs Hskip) as [H _]. discriminate.
Qed.

Lemma streamLoop_invariant (st0 : Locals.t) (db0 : Database)
  (startTime : Z) (items : list StreamItem) :
  forall k acc,
  loop_invariant st0 db0 acc ->
  loop_invariant st0 db0
    (snd (streamLoop rt refuses env startTime resume rid k items acc)).
Proof.
  induction items as [|[text|message] items IH]; intros k acc H;
    cbn [streamLoop];
    destruct (clock env k - startTime >? MAX_RUNTIME_MS)%Z; cbn [snd];
    auto using flush_invariant, chunk_invariant.
Qed.

(** Whatever the stream holds and however the loop ends (end of the
    stream, time-out, failure of the stream): the pending batch stays below
    [BATCH_SIZE], the counters [processed] and [failed] never decrease, and
    a run that is still skipping at the end has batched nothing, has no
    checkpoint of its own, and has neither counted nor stored a record. *)
Theorem loop_keeps_its_invariant (startTime : Z) (k : nat)
  (items : list StreamItem) (st : Locals.t) (db : Database) :
  ready st ->
  loop_invariant st db
    (snd (streamLoop rt refuses env startTime resume rid k items (st, db))).
Proof.
  intros [Hb Hs]. apply streamLoop_invariant.
  unfold loop_invariant. cbn [fst snd]. repeat split; auto; apply Hs; auto.
Qed.

(** *** The rows of the table [syncRun] *)

Lemma update_other (other : jsstring) (d : Data.t) (db : Database) :
  other <> rid ->
  syncRun_findUnique other (syncRuns (syncRun_update rid d db))
  = syncRun_findUnique other (syncRuns db).
Proof.
  intros Hne. unfold syncRun_findUnique, syncRun_update. cbn [syncRuns].
  induction (syncRuns db) as [|r rs IH]; [reflexivity|].
  cbn [map find].
  destruct (JsString.eqb (SyncRun.id r) rid) eqn:E.
  - cbn [Data.apply SyncRun.id].
    replace (JsString.eqb (SyncRun.id r) other) with false; [exact IH|].
    symmetry. apply eqb_neq. apply eqb_eq in E. congruence.
  - now rewrite IH.
Qed.

Lemma row_kept_refl (db : Database) : row_kept rid db db.
Proof. split; [reflexivity|]. intros r Hr. exists r. auto. Qed.

Lemma row_kept_trans (a b c : Database) :
  row_kept rid a b -> row_kept rid b c -> row_kept rid a c.
Proof.
  intros [H1 H2] [H3 H4]. split.
  - intros other Hne. now rewrite H3, H1.
  - intros r Hr. destruct (H2 r Hr) as (r1 & Hr1 & A1 & A2 & A3 & A4).
    destruct (H4 r1 Hr1) as (r2 & Hr2 & B1 & B2 & B3 & B4).
    exists r2. repeat split; congruence.
Qed.

Lemma row_kept_update (d : Data.t) (db : Database) (cat : Catalog.t) :
  row_kept rid db
    (syncRun_update rid d {| catalog := cat; syncRuns := syncRuns db |}).
Proof.
  split.
  - intros other Hne. now rewrite update_other.
  - intros r Hr. exists (Data.apply d r). split; [|repeat split].
    now apply (@syncRun_update_found rid d
                 {| catalog := cat; syncRuns := syncRuns db |} r).
Qed.

Lemma row_kept_same (db db' : Database) :
  syncRuns db' = syncRuns db -> row_kept rid db db'.
Proof.
  intros H. unfold row_kept. rewrite H. split; [reflexivity|].
  intros r Hr. exists r. auto.
Qed.

Lemma step_rows (st : Locals.t) (db : Database) (line : jsstring) :
  row_kept rid db (snd (step (st, db) line)).
Proof.
  destruct (readLine env line) as [| |c] eqn:Hl.
  - rewrite (@line_ignored rt refuses env resume rid _ line Hl).
    apply row_kept_refl.
  - rewrite (@line_malformed rt refuses env resume rid _ _ line Hl).
    apply row_kept_refl.
  - rewrite (@line_record rt refuses env resume rid _ _ line c Hl).
    destruct (Locals.shouldSkip st).
    + destruct (same _ resume); apply row_kept_refl.
    + cbv zeta. destruct (Nat.leb BATCH_SIZE _); cbn [snd].
      * apply row_kept_update.
      * apply row_kept_refl.
Qed.

Lemma fold_rows (lines : list jsstring) :
  forall st db, row_kept rid db (snd (fold_left step lines (st, db))).
Proof.
  induction lines as [|l lines IH]; intros st db; cbn [fold_left].
  - apply row_kept_refl.
  - pose proof (step_rows st db l) as H.
    destruct (step (st, db) l) as [st1 db1]. cbn [snd] in H.
    exact (row_kept_trans H (IH st1 db1)).
Qed.

Lemma streamLoop_rows (startTime : Z) (items : list StreamItem) :
  forall k st db,
  row_kept rid db
    (snd (snd (streamLoop rt refuses env startTime resume rid k items
                 (st, db)))).
Proof.
  induction items as [|[text|message] items IH]; intros k st db;
    cbn [streamLoop];
    destruct (clock env k - startTime >? MAX_RUNTIME_MS)%Z; cbn [snd];
    try apply row_kept_refl.
  - apply row_kept_same.
    now destruct (@flush_spec rt refuses st db) as (_ & _ & _ & H).
  - rewrite processChunk_lines.
    eapply row_kept_trans; [|apply IH]. apply fold_rows.
Qed.

End WithEnvironment.

Section WithRun.

Variable rt : UnicodeRuntime.
Variable refuses : Constraints.
Variable env : Env.

(** What [processSyncRun] returns is what [getSyncStatus] reports
    afterwards for the status, the count and, for a paused run, the
    checkpoint; a run that throws is reported as failed.  The column
    [totalRecords] is never written: the status reports the value the row
    had before, also when the run returned a total.  The status of every
    other run is as before. *)
Theorem reported_progress_is_persisted (db db' : Database) (rid : jsstring)
  (run : SyncRun.t) (res : Result SyncProgress.t) :
  syncRun_findUnique rid (syncRuns db) = Some run ->
  truthy (SyncRun.blobUrl run) = true ->
  processSyncRun rt refuses env db rid = (res, db') ->
  (forall other, other <> rid ->
     SyncReport.getSyncStatus db' other = SyncReport.getSyncStatus db other)
  /\ exists q,
       SyncReport.getSyncStatus db' rid = Some q
       /\ SyncProgress.syncRunId q = rid
       /\ SyncProgress.totalRecords q = SyncRun.totalRecords run
       /\ match res with
          | Ok p =>
              SyncProgress.syncRunId p = rid
              /\ SyncProgress.status q = SyncProgress.status p
              /\ SyncProgress.processed q = SyncProgress.processed p
              /\ (SyncProgress.status p = PAUSED
                  /\ SyncProgress.lastOracleId q = SyncProgress.lastOracleId p
                  /\ SyncProgress.totalRecords p = SyncRun.totalRecords run
                  \/ SyncProgress.status p = COMPLETED
                     /\ SyncProgress.lastOracleId p = None
                     /\ exists n, SyncProgress.totalRecords p = Some n)
          | Throw _ => SyncProgress.status q = FAILED
          end.
Proof.
  intros Hfind Hurl. unfold processSyncRun. rewrite Hfind.
  destruct (SyncRun.blobUrl run) as [[|u0 url0]|]; try discriminate.
  set (url := u0 :: url0).
  set (db0 := syncRun_update rid (only_status PROCESSING None) db).
  set (st0 := {| Locals.processed := SyncRun.processed run;
                 Locals.failed := SyncRun.failed run;
                 Locals.lastOracleId := None;
                 Locals.shouldSkip := truthy (SyncRun.lastOracleId run);
                 Locals.buffer := [];
                 Locals.batch := [] |}).
  pose proof (@ResumeFacts.find_id rid (syncRuns db) run Hfind) as Hid.
  assert (H0 : row_kept rid db db0).
  { unfold db0. destruct db as [cat runs].
    exact (@row_kept_update rid (only_status PROCESSING None)
             {| catalog := cat; syncRuns := runs |} cat). }
  assert (Hend : forall (d : Data.t) (db1 : Database),
             row_kept rid db0 db1 ->
             (forall other, other <> rid ->
                SyncReport.getSyncStatus (syncRun_update rid d db1) other
                = SyncReport.getSyncStatus db other)
             /\ exists r1,
                  syncRun_findUnique rid (syncRuns db1) = Some r1
                  /\ SyncReport.getSyncStatus (syncRun_update rid d db1) rid
                     = Some {| SyncProgress.syncRunId := rid;
                               SyncProgress.status :=
                                 SyncRun.status (Data.apply d r1);
                               SyncProgress.processed :=
                                 SyncRun.processed (Data.apply d r1);
                               SyncProgress.totalRecords :=
                                 SyncRun.totalRecords run;
                               SyncProgress.lastOracleId :=
                                 SyncRun.lastOracleId (Data.apply d r1) |}).
  { intros d db1 H1. destruct (row_kept_trans H0 H1) as [Ho Hr]. split.
    - intros other Hne. unfold SyncReport.getSyncStatus.
      now rewrite update_other, Ho.
    - destruct (Hr run Hfind) as (r1 & Hr1 & I1 & _ & I3 & _).
      exists r1. split; [exact Hr1|]. unfold SyncReport.getSyncStatus.
      rewrite (@syncRun_update_found rid d db1 r1 Hr1).
      cbn [Data.apply SyncRun.id SyncRun.totalRecords].
      now rewrite I1, I3, Hid. }
  destruct (streamBulkData env url) as [items|e].
  - pose proof (@streamLoop_rows rt refuses env (SyncRun.lastOracleId run)
                  rid (clock env 0) items 1 st0 db0) as Hrows.
    destruct (streamLoop rt refuses env (clock env 0)
                (SyncRun.lastOracleId run) rid 1 items (st0, db0))
      as [[|k|e] [st1 db1]]; cbn [fst snd] in *; intros [= <- <-].
    + destruct (Hend (checkpoint (Some PAUSED) None st1) db1 Hrows)
        as [Ho (r1 & _ & Hq)].
      split; [exact Ho|]. eexists. split; [exact Hq|].
      cbn. repeat split. left. repeat split.
    + match goal with
      | |- context [syncRun_update rid ?d db1] =>
          destruct (Hend d db1 Hrows) as [Ho (r1 & _ & Hq)]
      end.
      split; [exact Ho|]. eexists. split; [exact Hq|].
      cbn. repeat split. right. repeat split. eauto.
    + destruct (Hend (checkpoint (Some FAILED) (Some (message_of e)) st1)
                  db1 Hrows) as [Ho (r1 & _ & Hq)].
      split; [exact Ho|]. eexists. split; [exact Hq|].
      cbn. repeat split.
  - intros [= <- <-]. cbn [fst snd].
    destruct (Hend (checkpoint (Some FAILED) (Some (message_of e)) st0)
                db0 (row_kept_refl rid db0)) as [Ho (r1 & _ & Hq)].
    split; [exact Ho|]. eexists. split; [exact Hq|].
    cbn. repeat split.
Qed.

End WithRun.

Lemma loop_keeps_its_invariant_witness :
  loop_invariant ResumeExample.resuming SyncExamples.paused_at_a
    (snd (streamLoop Latin1.runtime no_constraints
            SyncExamples.second_invocation 0%Z (Some (lit "a")) (lit "run1")
            1 SyncExamples.chunks
            (ResumeExample.resuming, SyncExamples.paused_at_a))).
Proof.
  apply loop_keeps_its_invariant. split.
  - apply Nat.ltb_lt. reflexivity.
  - intros _. split; reflexivity.
Defined.

(** After the resumed run of the toy stream, the status reports the run
    with the total null. *)
Lemma reported_progress_is_persisted_witness :
  exists q,
    SyncReport.getSyncStatus
      (snd (processSyncRun Latin1.runtime no_constraints
              SyncExamples.second_invocation SyncExamples.paused_at_a
              (lit "run1"))) (lit "run1") = Some q
    /\ SyncProgress.syncRunId q = lit "run1"
    /\ SyncProgress.totalRecords q = None.
Proof.
  destruct (@reported_progress_is_persisted Latin1.runtime no_constraints
              SyncExamples.second_invocation SyncExamples.paused_at_a
              (snd (processSyncRun Latin1.runtime no_constraints
                      SyncExamples.second_invocation SyncExamples.paused_at_a
                      (lit "run1")))
              (lit "run1")
              {| SyncRun.id := lit "run1"; SyncRun.type := oracle_cards;
                 SyncRun.status := PAUSED;
                 SyncRun.processed := 1; SyncRun.failed := 0;
                 SyncRun.totalRecords := None;
                 SyncRun.lastOracleId := Some (lit "a");
                 SyncRun.blobUrl := Some (download_uri SyncExamples.blob);
                 SyncRun.blobSize := Some 64%Z;
                 SyncRun.errorMessage := None;
                 SyncRun.startedAt := 0%Z;
                 SyncRun.completedAt := None |}
              (fst (processSyncRun Latin1.runtime no_constraints
                      SyncExamples.second_invocation SyncExamples.paused_at_a
                      (lit "run1"))))
    as (_ & q & Hq & Hid & Htotal & _).
  - reflexivity.
  - reflexivity.
  - apply surjective_pairing.
  - exists q. auto.
Defined.

End LoopFacts.

(** ** Bulk sync: starting, and the latest runs *)

Module StartFacts.

Import Sync SyncReport JsStringFacts ResumeFacts.

Lemma SyncType_eqb_eq (a b : SyncType) : SyncType_eqb a b = true <-> a = b.
Proof. destruct a, b; simpl; split; congruence. Qed.

Lemma SyncStatus_eqb_eq (a b : SyncStatus) :
  SyncStatus_eqb a b = true <-> a = b.
Proof. destruct a, b; simpl; split; congruence. Qed.

(** [lastCompleted] gives a completed run of the type with the latest
    completion, when the completed runs carry their completion time. *)
Lemma lastCompleted_spec (type : SyncType) (runs : list SyncRun.t) :
  forall best,
  (forall x, In x runs -> SyncRun.type x = type ->
     SyncRun.status x = COMPLETED -> SyncRun.completedAt x <> None) ->
  (forall b, best = Some b ->
     SyncRun.type b = type /\ SyncRun.status b = COMPLETED
     /\ SyncRun.completedAt b <> None) ->
  match lastCompleted type best runs with
  | None =>
      best = None
      /\ forall x, In x runs ->
           ~ (SyncRun.type x = type /\ SyncRun.status x = COMPLETED)
  | Some r0 =>
      SyncRun.type r0 = type /\ SyncRun.status r0 = COMPLETED
      /\ (best = Some r0 \/ In r0 runs)
      /\ exists t0,
           SyncRun.completedAt r0 = Some t0
           /\ (forall b tb, best = Some b ->
                 SyncRun.completedAt b = Some tb -> (tb <= t0)%Z)
           /\ (forall x t, In x runs -> SyncRun.type x = type ->
                 SyncRun.status x = COMPLETED ->
                 SyncRun.completedAt x = Some t -> (t <= t0)%Z)
  end.
Proof.
  induction runs as [|r runs IH]; intros best Hruns Hbest.
  - cbn [lastCompleted]. destruct best as [b|].
    + destruct (Hbest b eq_refl) as (H1 & H2 & H3).
      destruct (SyncRun.completedAt b) as [tb|] eqn:Hb; [|congruence].
      repeat split; auto. exists tb. repeat split; auto.
      * intros b' tb' [= <-] Hb'. rewrite Hb in Hb'. injection Hb' as <-.
        lia.
      * intros x t [].
    + split; [reflexivity|]. intros x [].
  - cbn [lastCompleted].
    assert (Hrest : forall x, In x runs -> SyncRun.type x = type ->
                      SyncRun.status x = COMPLETED ->
                      SyncRun.completedAt x <> None).
    { intros x Hx. apply Hruns. now right. }
    destruct (SyncType_eqb (SyncRun.type r) type) eqn:Et;
      [destruct (SyncStatus_eqb (SyncRun.status r) COMPLETED) eqn:Es|].
    + apply SyncType_eqb_eq in Et. apply SyncStatus_eqb_eq in Es.
      pose proof (Hruns r (or_introl eq_refl) Et Es) as Hr.
      destruct (SyncRun.completedAt r) as [t|] eqn:Hrt; [|congruence].
      cbn [andb].
      assert (Hmatch : forall b, Some r = Some b ->
                SyncRun.type b = type /\ SyncRun.status b = COMPLETED
                /\ SyncRun.completedAt b <> None).
      { intros b [= <-]. rewrite Hrt. repeat split; auto; discriminate. }
      destruct best as [b|].
      * destruct (Hbest b eq_refl) as (B1 & B2 & B3).
        destruct (SyncRun.completedAt b) as [tb|] eqn:Hb; [|congruence].
        destruct (tb <? t)%Z eqn:Elt.
        -- apply Z.ltb_lt in Elt. specialize (IH (Some r) Hrest Hmatch).
           destruct (lastCompleted type (Some r) runs) as [r0|];
             [|destruct IH; discriminate].
           destruct IH as (I1 & I2 & I3 & t0 & I4 & I5 & I6).
           pose proof (I5 r t eq_refl Hrt) as Hle.
           repeat split; auto.
           ++ destruct I3 as [[= <-]|I3]; right; [now left|now right].
           ++ exists t0. repeat split; auto.
              ** intros b' tb' [= <-] Hb'. rewrite Hb in Hb'.
                 injection Hb' as <-. lia.
              ** intros x tx [<-|Hx] X1 X2 X3; [|eauto].
                 rewrite Hrt in X3. injection X3 as <-. exact Hle.
        -- apply Z.ltb_ge in Elt. specialize (IH (Some b) Hrest Hbest).
           destruct (lastCompleted type (Some b) runs) as [r0|];
             [|destruct IH; discriminate].
           destruct IH as (I1 & I2 & I3 & t0 & I4 & I5 & I6).
           pose proof (I5 b tb eq_refl Hb) as Hle.
           repeat split; auto.
           ++ destruct I3; [now left|right; now right].
           ++ exists t0. repeat split; auto.
              intros x tx [<-|Hx] X1 X2 X3; [|eauto].
              rewrite Hrt in X3. injection X3 as <-. lia.
      * specialize (IH (Some r) Hrest Hmatch).
        destruct (lastCompleted type (Some r) runs) as [r0|];
          [|destruct IH; discriminate].
        destruct IH as (I1 & I2 & I3 & t0 & I4 & I5 & I6).
        pose proof (I5 r t eq_refl Hrt) as Hle.
        repeat split; auto.
        -- destruct I3 as [[= <-]|I3]; right; [now left|now right].
        -- exists t0. repeat split; auto.
           ++ discriminate.
           ++ intros x tx [<-|Hx] X1 X2 X3; [|eauto].
              rewrite Hrt in X3. injection X3 as <-. exact Hle.
    + cbn [andb]. specialize (IH best Hrest Hbest).
      assert (Hnot : ~ (SyncRun.type r = type
                        /\ SyncRun.status r = COMPLETED)).
      { intros [_ H]. apply SyncStatus_eqb_eq in H. congruence. }
      destruct (lastCompleted type best runs) as [r0|].
      * destruct IH as (I1 & I2 & I3 & t0 & I4 & I5 & I6).
        repeat split; auto.
        -- destruct I3; [now left|right; now right].
        -- exists t0. repeat split; auto.
           intros x tx [<-|Hx] X1 X2 X3; [|eauto]. elim Hnot. auto.
      * destruct IH as [I1 I2]. split; [exact I1|].
        intros x [<-|Hx]; auto.
    + cbn [andb]. specialize (IH best Hrest Hbest).
      assert (Hnot : ~ (SyncRun.type r = type
                        /\ SyncRun.status r = COMPLETED)).
      { intros [H _]. apply SyncType_eqb_eq in H. congruence. }
      destruct (lastCompleted type best runs) as [r0|].
      * destruct IH as (I1 & I2 & I3 & t0 & I4 & I5 & I6).
        repeat split; auto.
        -- destruct I3; [now left|right; now right].
        -- exists t0. repeat split; auto.
           intros x tx [<-|Hx] X1 X2 X3; [|eauto]. elim Hnot. auto.
      * destruct IH as [I1 I2]. split; [exact I1|].
        intros x [<-|Hx]; auto.
Qed.

Lemma latestStarted_spec (type : SyncType) (runs : list SyncRun.t) :
  forall best,
  (forall b, best = Some b -> SyncRun.type b = type) ->
  match latestStarted type best runs with
  | None => best = None /\ forall x, In x runs -> SyncRun.type x <> type
  | Some r0 =>
      SyncRun.type r0 = type
      /\ (best = Some r0 \/ In r0 runs)
      /\ (forall b, best = Some b ->
            (SyncRun.startedAt b <= SyncRun.startedAt r0)%Z)
      /\ (forall x, In x runs -> SyncRun.type x = type ->
            (SyncRun.startedAt x <= SyncRun.startedAt r0)%Z)
  end.
Proof.
  induction runs as [|r runs IH]; intros best Hbest; cbn [latestStarted].
  - destruct best as [b|].
    + repeat split; auto.
      * intros b' [= <-]. lia.
      * intros x [].
    + split; [reflexivity|]. intros x [].
  - destruct (SyncType_eqb (SyncRun.type r) type) eqn:Et; cbn [andb].
    + apply SyncType_eqb_eq in Et.
      assert (Hr : forall b, Some r = Some b -> SyncRun.type b = type)
        by (intros b [= <-]; exact Et).
      destruct best as [b|].
      * destruct (SyncRun.startedAt b <? SyncRun.startedAt r)%Z eqn:Elt.
        -- apply Z.ltb_lt in Elt. specialize (IH (Some r) Hr).
           destruct (latestStarted type (Some r) runs) as [r0|];
             [|destruct IH; discriminate].
           destruct IH as (I1 & I2 & I3 & I4).
           pose proof (I3 r eq_refl) as Hle. repeat split; auto.
           ++ destruct I2 as [[= <-]|I2]; right; [now left|now right].
           ++ intros b' [= <-]. lia.
           ++ intros x [<-|Hx] X1; auto.
        -- apply Z.ltb_ge in Elt. specialize (IH (Some b) Hbest).
           destruct (latestStarted type (Some b) runs) as [r0|];
             [|destruct IH; discriminate].
           destruct IH as (I1 & I2 & I3 & I4).
           pose proof (I3 b eq_refl) as Hle. repeat split; auto.
           ++ destruct I2; [now left|right; now right].
           ++ intros x [<-|Hx] X1; auto. lia.
      * specialize (IH (Some r) Hr).
        destruct (latestStarted type (Some r) runs) as [r0|];
          [|destruct IH; discriminate].
        destruct IH as (I1 & I2 & I3 & I4).
        pose proof (I3 r eq_refl) as Hle. repeat split; auto.
        -- destruct I2 as [[= <-]|I2]; right; [now left|now right].
        -- discriminate.
        -- intros x [<-|Hx] X1; auto.
    + specialize (IH best Hbest).
      assert (Hnot : SyncRun.type r <> type).
      { intros H. apply SyncType_eqb_eq in H. congruence. }
      destruct (latestStarted type best runs) as [r0|].
      * destruct IH as (I1 & I2 & I3 & I4). repeat split; auto.
        -- destruct I2; [now left|right; now right].
        -- intros x [<-|Hx] X1; auto. contradiction.
      * destruct IH as [I1 I2]. split; [exact I1|].
        intros x [<-|Hx]; auto.
Qed.

(** [getLatestSyncRun] answers null exactly when the table holds no run of
    the type; otherwise it reports a stored run of the type that no other
    run of the type was started after. *)
Theorem getLatestSyncRun_is_latest (db : Database) (type : SyncType) :
  match getLatestSyncRun db type with
  | None => forall x, In x (syncRuns db) -> SyncRun.type x <> type
  | Some p =>
      exists r,
        In r (syncRuns db) /\ SyncRun.type r = type
        /\ SyncProgress.syncRunId p = SyncRun.id r
        /\ SyncProgress.status p = SyncRun.status r
        /\ SyncProgress.processed p = SyncRun.processed r
        /\ SyncProgress.totalRecords p = SyncRun.totalRecords r
        /\ SyncProgress.lastOracleId p = SyncRun.lastOracleId r
        /\ forall x, In x (syncRuns db) -> SyncRun.type x = type ->
             (SyncRun.startedAt x <= SyncRun.startedAt r)%Z
  end.
Proof.
  unfold getLatestSyncRun.
  pose proof (@latestStarted_spec type (syncRuns db) None) as H.
  destruct (latestStarted type None (syncRuns db)) as [r0|].
  - destruct H as (H1 & H2 & _ & H4); [discriminate|].
    exists r0. destruct H2 as [H2|H2]; [discriminate|].
    repeat split; auto.
  - destruct H as [_ H]; [discriminate|]. exact H.
Qed.

Section WithEnvironment.

Variable rt : UnicodeRuntime.
Variable refuses : Constraints.
Variable env : Env.

(** An unforced [startSync] creates no run and reads no stream when a
    completed run of the type is at least as recent as the bulk data (the
    completed runs carrying their completion time): it reports a stored
    completed run of the type, and the store is as before. *)
Theorem up_to_date_sync_is_skipped (type : SyncType) (db : Database)
  (info : BulkDataInfo) (r : SyncRun.t) (t : Z) :
  (forall x, In x (syncRuns db) -> SyncRun.type x = type ->
     SyncRun.status x = COMPLETED -> SyncRun.completedAt x <> None) ->
  In r (syncRuns db) -> SyncRun.type r = type ->
  SyncRun.status r = COMPLETED -> SyncRun.completedAt r = Some t ->
  getBulkDataUrl env (bulkType type) = Ok info ->
  (dateOf env (updated_at info) <= t)%Z ->
  exists r0,
    In r0 (syncRuns db) /\ SyncRun.type r0 = type
    /\ SyncRun.status r0 = COMPLETED
    /\ startSync rt refuses env type false None db
       = (Ok {| SyncProgress.syncRunId := SyncRun.id r0;
                SyncProgress.status := COMPLETED;
                SyncProgress.processed := SyncRun.processed r0;
                SyncProgress.totalRecords := SyncRun.totalRecords r0;
                SyncProgress.lastOracleId := None |}, db).
Proof.
  intros Hall Hin Ht Hs Hc Hbulk Hdate.
  pose proof (@lastCompleted_spec type (syncRuns db) None Hall) as H.
  unfold startSync. cbv zeta.
  destruct (lastCompleted type None (syncRuns db)) as [r0|].
  - destruct H as (H1 & H2 & H3 & t0 & H4 & _ & H6); [discriminate|].
    destruct H3 as [H3|H3]; [discriminate|].
    exists r0. repeat split; auto.
    rewrite Hbulk, H4.
    pose proof (H6 r t Hin Ht Hs Hc) as Hle.
    replace (dateOf env (updated_at info) <=? t0)%Z with true;
      [reflexivity|].
    symmetry. apply Z.leb_le. lia.
  - destruct H as [_ H]; [discriminate|]. elim (H r Hin). auto.
Qed.

(** A resume is refused unless a run with the given id exists, is paused
    and has a blob url: otherwise [startSync] throws and the store is as
    before.  A resume that returns a progress reports the run it was asked
    to resume, as paused or as completed. *)
Theorem resume_needs_a_paused_run (type : SyncType) (force : bool)
  (db db' : Database) (rid : jsstring) (res : Result SyncProgress.t) :
  rid <> [] ->
  startSync rt refuses env type force (Some rid) db = (res, db') ->
  ((forall run, syncRun_findUnique rid (syncRuns db) = Some run ->
      SyncRun.status run = PAUSED -> truthy (SyncRun.blobUrl run) = false) ->
   db' = db /\ exists e, res = Throw e)
  /\ (forall p, res = Ok p ->
        SyncProgress.syncRunId p = rid
        /\ (SyncProgress.status p = PAUSED
            \/ SyncProgress.status p = COMPLETED)
        /\ exists run,
             syncRun_findUnique rid (syncRuns db) = Some run
             /\ SyncRun.status run = PAUSED
             /\ truthy (SyncRun.blobUrl run) = true).
Proof.
  intros Hrid. unfold startSync. destruct rid as [|c0 rid0]; [congruence|].
  set (rid := c0 :: rid0) in *.
  destruct (syncRun_findUnique rid (syncRuns db)) as [run|] eqn:Hfind.
  2:{ intros [= <- <-]. split; [eauto|discriminate]. }
  pose proof (@find_id rid _ run Hfind) as Hid.
  destruct (SyncStatus_eqb (SyncRun.status run) PAUSED) eqn:Es; cbn [negb].
  2:{ intros [= <- <-]. split; [eauto|discriminate]. }
  apply SyncStatus_eqb_eq in Es. rewrite Hid.
  unfold processSyncRun. rewrite Hfind.
  destruct (SyncRun.blobUrl run) as [[|u0 url0]|] eqn:Hurl.
  1,3: intros [= <- <-]; split; [eauto|discriminate].
  destruct (streamBulkData env (u0 :: url0)) as [items|e].
  2:{ intros [= <- <-]. split; [|discriminate].
      intros H. specialize (H run eq_refl Es). rewrite Hurl in H.
      discriminate H. }
  match goal with
  | |- context [streamLoop ?a1 ?a2 ?a3 ?a4 ?a5 ?a6 ?a7 ?a8 ?a9] =>
      destruct (streamLoop a1 a2 a3 a4 a5 a6 a7 a8 a9)
        as [[|ticks|err] [st1 db1]]
  end; intros [= <- <-]; split;
    try (intros H; specialize (H run eq_refl Es); rewrite Hurl in H;
         discriminate H);
    try discriminate; intros p [= <-]; cbn; repeat split; eauto;
    exists run; rewrite Hurl; auto.
Qed.

End WithEnvironment.

Lemma up_to_date_sync_is_skipped_witness :
  exists r0,
    startSync Latin1.runtime no_constraints SyncExamples.second_invocation
      oracle_cards false None StartExamples.completed_db
    = (Ok {| SyncProgress.syncRunId := SyncRun.id r0;
             SyncProgress.status := COMPLETED;
             SyncProgress.processed := SyncRun.processed r0;
             SyncProgress.totalRecords := SyncRun.totalRecords r0;
             SyncProgress.lastOracleId := None |},
       StartExamples.completed_db).
Proof.
  destruct (@up_to_date_sync_is_skipped Latin1.runtime no_constraints
              SyncExamples.second_invocation oracle_cards
              StartExamples.completed_db SyncExamples.blob
              StartExamples.completed_row 100000%Z)
    as (r0 & _ & _ & _ & H).
  - intros x Hx _ _. vm_compute in Hx. destruct Hx as [<-|[]]. discriminate.
  - vm_compute. left. reflexivity.
  - reflexivity.
  - reflexivity.
  - reflexivity.
  - reflexivity.
  - vm_compute. discriminate.
  - exists r0. exact H.
Defined.

Lemma resume_needs_a_paused_run_witness :
  snd (startSync Latin1.runtime no_constraints SyncExamples.second_invocation
         oracle_cards false (Some (lit "run2")) StartExamples.completed_db)
  = StartExamples.completed_db.
Proof.
  refine (proj1 (proj1 (@resume_needs_a_paused_run Latin1.runtime
            no_constraints SyncExamples.second_invocation oracle_cards false
            StartExamples.completed_db _ (lit "run2") _ _ _) _)).
  - discriminate.
  - apply surjective_pairing.
  - intros run Hrun Hpaused. vm_compute in Hrun. injection Hrun as <-.
    discriminate Hpaused.
Defined.

End StartFacts.

(** ** Bulk sync: rulings *)

Module RulingFacts.

Import SyncRulings JsStringFacts VariantFacts.

Local Abbreviation keyed k :=
  (fun p : jsstring * list ScryfallRuling.t => JsString.eqb (fst p) k).
Local Abbreviation sel k :=
  (filter (fun r => JsString.eqb (ScryfallRuling.oracle_id r) k)).
Local Abbreviation stored cat :=
  (fun k => match Store.card_findUnique k (Catalog.cards cat) with
            | Some _ => true
            | None => false
            end).

Lemma eqb_sym (a b : jsstring) : JsString.eqb a b = JsString.eqb b a.
Proof.
  destruct (JsString.eqb a b) eqn:E; symmetry.
  - apply eqb_eq in E. subst. apply eqb_refl.
  - apply eqb_neq. apply eqb_neq in E. congruence.
Qed.

(** *** The grouping *)

Lemma group_add_keys (k : jsstring) (r : ScryfallRuling.t)
  (groups : list (jsstring * list ScryfallRuling.t)) :
  map fst (group_add k r groups) = set_add (map fst groups) k.
Proof.
  unfold set_add. induction groups as [|[k' e] rest IH]; [reflexivity|].
  cbn [group_add map fst existsb]. rewrite (eqb_sym k k').
  destruct (JsString.eqb k' k); cbn [orb map fst]; [reflexivity|].
  rewrite IH. now destruct (existsb (JsString.eqb k) (map fst rest)).
Qed.

Lemma groups_keys (rulings : list ScryfallRuling.t) :
  map fst (rulingsByOracleId rulings)
  = set_spread (map ScryfallRuling.oracle_id rulings).
Proof.
  unfold rulingsByOracleId, set_spread.
  change (@nil jsstring)
    with (map fst (@nil (jsstring * list ScryfallRuling.t))).
  generalize (@nil (jsstring * list ScryfallRuling.t)).
  induction rulings as [|r rs IH]; intros g; [reflexivity|].
  cbn [fold_left map]. now rewrite IH, group_add_keys.
Qed.

Lemma group_add_other (k kr : jsstring) (r : ScryfallRuling.t)
  (groups : list (jsstring * list ScryfallRuling.t)) :
  k <> kr ->
  filter (keyed k) (group_add kr r groups) = filter (keyed k) groups.
Proof.
  intros Hne. induction groups as [|[k' e] rest IH]; cbn [group_add].
  - cbn [filter fst]. replace (JsString.eqb kr k) with false; [reflexivity|].
    symmetry. apply eqb_neq. congruence.
  - destruct (JsString.eqb k' kr) eqn:E; cbn [filter fst].
    + replace (JsString.eqb k' k) with false; [reflexivity|].
      symmetry. apply eqb_neq. apply eqb_eq in E. congruence.
    + now rewrite IH.
Qed.

Lemma group_add_hit (k : jsstring) (r : ScryfallRuling.t)
  (groups : list (jsstring * list ScryfallRuling.t)) :
  filter (keyed k) (group_add k r groups)
  = match filter (keyed k) groups with
    | [] => [(k, [r])]
    | (k0, g) :: rest => (k0, g ++ [r]) :: rest
    end.
Proof.
  induction groups as [|[k' e] rest IH]; cbn [group_add].
  - cbn [filter fst]. now rewrite eqb_refl.
  - destruct (JsString.eqb k' k) eqn:E; cbn [filter fst]; rewrite E.
    + reflexivity.
    + exact IH.
Qed.

(** Each external id among the rulings has one entry, which holds the
    rulings of that id in the order of the input. *)
Lemma groups_entries (rulings : list ScryfallRuling.t) (k : jsstring) :
  filter (keyed k) (rulingsByOracleId rulings)
  = match sel k rulings with
    | [] => []
    | g => [(k, g)]
    end.
Proof.
  induction rulings as [|r rs IH] using rev_ind; [reflexivity|].
  unfold rulingsByOracleId in *. rewrite fold_left_app. cbn [fold_left].
  rewrite filter_app. cbn [filter].
  destruct (JsString.eqb (ScryfallRuling.oracle_id r) k) eqn:E.
  - apply eqb_eq in E. subst k. rewrite group_add_hit, IH.
    destruct (sel (ScryfallRuling.oracle_id r) rs) as [|x xs];
      reflexivity.
  - rewrite app_nil_r, group_add_other, IH; [reflexivity|].
    apply eqb_neq in E. congruence.
Qed.

(** *** One group *)

Section WithConstraints.

Variable refuses : RulingConstraints.

Lemma createAll_shape (k : jsstring) (rs : list ScryfallRuling.t) :
  forall cat,
  exists n,
    Catalog.cards (snd (ruling_createAll refuses k rs cat))
    = Catalog.cards cat
    /\ Catalog.cardFaces (snd (ruling_createAll refuses k rs cat))
       = Catalog.cardFaces cat
    /\ Catalog.nextCardId (snd (ruling_createAll refuses k rs cat))
       = Catalog.nextCardId cat
    /\ Catalog.rulings (snd (ruling_createAll refuses k rs cat))
       = Catalog.rulings cat ++ map (ruling_row k) (firstn n rs)
    /\ ((forall c r, refuses c r = false) ->
        fst (ruling_createAll refuses k rs cat) = true /\ n = length rs).
Proof.
  induction rs as [|r rs IH]; intros cat; cbn [ruling_createAll].
  - exists 0. cbn. rewrite app_nil_r. repeat split; auto.
  - destruct (refuses cat (ruling_row k r)) eqn:E.
    + exists 0. cbn. rewrite app_nil_r.
      split; [reflexivity|]. split; [reflexivity|].
      split; [reflexivity|]. split; [reflexivity|].
      intros Hno. rewrite Hno in E. discriminate.
    + match goal with
      | |- context [ruling_createAll refuses k rs ?c] =>
          destruct (IH c) as (n & H1 & H2 & H3 & H4 & H5)
      end.
      exists (S n). rewrite H1, H2, H3, H4. cbn. rewrite <- app_assoc.
      repeat split; auto.
      * now apply H5.
      * f_equal. now apply H5.
Qed.

Lemma rulings_of_app (id : jsstring) (a b : list Ruling.t) :
  Store.rulings_of id (a ++ b)
  = Store.rulings_of id a ++ Store.rulings_of id b.
Proof. apply filter_app. Qed.

Lemma rulings_of_rows (id k : jsstring) (rs : list ScryfallRuling.t) :
  Store.rulings_of id (map (ruling_row k) rs)
  = if JsString.eqb k id then map (ruling_row k) rs else [].
Proof.
  unfold Store.rulings_of.
  induction rs as [|r rs IH]; cbn [map filter ruling_row Ruling.oracleId].
  - now destruct (JsString.eqb k id).
  - rewrite IH. now destruct (JsString.eqb k id).
Qed.

Lemma rulings_of_deleted (id k : jsstring) (rows : list Ruling.t) :
  Store.rulings_of id
    (filter (fun r => negb (JsString.eqb (Ruling.oracleId r) k)) rows)
  = if JsString.eqb k id then [] else Store.rulings_of id rows.
Proof.
  unfold Store.rulings_of. induction rows as [|r rows IH]; cbn [filter].
  - now destruct (JsString.eqb k id).
  - destruct (JsString.eqb (Ruling.oracleId r) k) eqn:E1; cbn [negb filter].
    + rewrite IH. destruct (JsString.eqb k id) eqn:E2; [reflexivity|].
      replace (JsString.eqb (Ruling.oracleId r) id) with false;
        [reflexivity|].
      symmetry. apply eqb_neq. apply eqb_eq in E1. apply eqb_neq in E2.
      congruence.
    + rewrite IH. destruct (JsString.eqb k id) eqn:E2; [|reflexivity].
      replace (JsString.eqb (Ruling.oracleId r) id) with false;
        [reflexivity|].
      symmetry. apply eqb_neq. apply eqb_eq in E2. apply eqb_neq in E1.
      congruence.
Qed.

Lemma step_cards (acc : (nat * nat) * Catalog.t)
  (p : jsstring * list ScryfallRuling.t) :
  Catalog.cards (snd (syncGroup refuses acc p)) = Catalog.cards (snd acc)
  /\ Catalog.cardFaces (snd (syncGroup refuses acc p))
     = Catalog.cardFaces (snd acc)
  /\ Catalog.nextCardId (snd (syncGroup refuses acc p))
     = Catalog.nextCardId (snd acc).
Proof.
  destruct acc as [[s f] cat], p as [k g]. unfold syncGroup. cbn [snd].
  destruct (Store.card_findUnique k (Catalog.cards cat)); [|auto].
  destruct (createAll_shape k g (ruling_deleteMany k cat))
    as (n & H1 & H2 & H3 & _).
  destruct (ruling_createAll refuses k g (ruling_deleteMany k cat))
    as [[|] cat']; cbn [snd] in *; auto.
Qed.

Lemma step_counts (acc : (nat * nat) * Catalog.t)
  (p : jsstring * list ScryfallRuling.t) :
  fst (fst (syncGroup refuses acc p)) + snd (fst (syncGroup refuses acc p))
  = fst (fst acc) + snd (fst acc)
    + (if stored (snd acc) (fst p) then 1 else 0)
  /\ ((forall c r, refuses c r = false) ->
      snd (fst (syncGroup refuses acc p)) = snd (fst acc)).
Proof.
  destruct acc as [[s f] cat], p as [k g]. unfold syncGroup. cbn [fst snd].
  destruct (Store.card_findUnique k (Catalog.cards cat)).
  - destruct (createAll_shape k g (ruling_deleteMany k cat))
      as (n & _ & _ & _ & _ & H).
    destruct (ruling_createAll refuses k g (ruling_deleteMany k cat))
      as [[|] cat']; cbn [fst snd] in *; split; try lia; auto.
    intros Hno. destruct (H Hno). discriminate.
  - cbn [fst snd]. split; [lia|auto].
Qed.

Lemma step_other (id : jsstring) (acc : (nat * nat) * Catalog.t)
  (p : jsstring * list ScryfallRuling.t) :
  fst p <> id \/ stored (snd acc) (fst p) = false ->
  Store.rulings_of id (Catalog.rulings (snd (syncGroup refuses acc p)))
  = Store.rulings_of id (Catalog.rulings (snd acc)).
Proof.
  destruct acc as [[s f] cat], p as [k g]. unfold syncGroup. cbn [fst snd].
  intros H.
  destruct (Store.card_findUnique k (Catalog.cards cat)); [|reflexivity].
  destruct H as [Hne|H]; [|discriminate].
  destruct (createAll_shape k g (ruling_deleteMany k cat))
    as (n & _ & _ & _ & H4 & _).
  destruct (ruling_createAll refuses k g (ruling_deleteMany k cat))
    as [[|] cat']; cbn [snd] in *; rewrite H4;
    cbn [ruling_deleteMany Catalog.rulings];
    rewrite rulings_of_app, rulings_of_rows, rulings_of_deleted;
    (replace (JsString.eqb k id) with false
       by (symmetry; now apply eqb_neq));
    now rewrite app_nil_r.
Qed.

Lemma step_hit (k : jsstring) (g : list ScryfallRuling.t)
  (acc : (nat * nat) * Catalog.t) :
  (forall c r, refuses c r = false) ->
  stored (snd acc) k = true ->
  Store.rulings_of k (Catalog.rulings (snd (syncGroup refuses acc (k, g))))
  = map (ruling_row k) g.
Proof.
  destruct acc as [[s f] cat]. unfold syncGroup. cbn [fst snd].
  intros Hno Hcard.
  destruct (Store.card_findUnique k (Catalog.cards cat)); [|discriminate].
  destruct (createAll_shape k g (ruling_deleteMany k cat))
    as (n & _ & _ & _ & H4 & H5).
  destruct (H5 Hno) as [_ ->]. rewrite firstn_all in H4.
  destruct (ruling_createAll refuses k g (ruling_deleteMany k cat))
    as [[|] cat']; cbn [snd] in *; rewrite H4;
    cbn [ruling_deleteMany Catalog.rulings];
    now rewrite rulings_of_app, rulings_of_rows, rulings_of_deleted,
      eqb_refl.
Qed.

(** *** The loop over the groups *)

Lemma fold_cards (groups : list (jsstring * list ScryfallRuling.t)) :
  forall acc,
  Catalog.cards (snd (fold_left (syncGroup refuses) groups acc))
  = Catalog.cards (snd acc)
  /\ Catalog.cardFaces (snd (fold_left (syncGroup refuses) groups acc))
     = Catalog.cardFaces (snd acc)
  /\ Catalog.nextCardId (snd (fold_left (syncGroup refuses) groups acc))
     = Catalog.nextCardId (snd acc).
Proof.
  induction groups as [|p groups IH]; intros acc; cbn [fold_left]; [auto|].
  destruct (IH (syncGroup refuses acc p)) as (H1 & H2 & H3).
  destruct (step_cards acc p) as (S1 & S2 & S3).
  rewrite H1, H2, H3. auto.
Qed.

Lemma fold_counts (groups : list (jsstring * list ScryfallRuling.t)) :
  forall acc,
  fst (fst (fold_left (syncGroup refuses) groups acc))
  + snd (fst (fold_left (syncGroup refuses) groups acc))
  = fst (fst acc) + snd (fst acc)
    + length (filter (stored (snd acc)) (map fst groups))
  /\ ((forall c r, refuses c r = false) ->
      snd (fst (fold_left (syncGroup refuses) groups acc)) = snd (fst acc)).
Proof.
  induction groups as [|p groups IH]; intros acc; cbn [fold_left map filter].
  - cbn [length]. split; [lia|auto].
  - destruct (IH (syncGroup refuses acc p)) as [H1 H2].
    destruct (step_counts acc p) as [S1 S2].
    destruct (step_cards acc p) as (C1 & _).
    rewrite C1 in H1. rewrite H1, S1. split.
    + destruct (Store.card_findUnique (fst p) (Catalog.cards (snd acc)));
        cbn [length]; lia.
    + intros Hno. now rewrite H2, S2.
Qed.

Lemma fold_other (id : jsstring)
  (groups : list (jsstring * list ScryfallRuling.t)) :
  forall acc,
  (forall p, In p groups -> fst p = id -> stored (snd acc) id = false) ->
  Store.rulings_of id
    (Catalog.rulings (snd (fold_left (syncGroup refuses) groups acc)))
  = Store.rulings_of id (Catalog.rulings (snd acc)).
Proof.
  induction groups as [|p groups IH]; intros acc H; cbn [fold_left];
    [reflexivity|].
  destruct (step_cards acc p) as (C1 & _).
  rewrite IH.
  - apply step_other. destruct (eqb_eq (fst p) id) as [_ Hd].
    destruct (JsString.eqb (fst p) id) eqn:E.
    + apply eqb_eq in E. right. rewrite E. apply (H p); [now left|exact E].
    + left. now apply eqb_neq.
  - intros q Hq Hid. rewrite C1. apply (H q); [now right|exact Hid].
Qed.

Lemma filter_nil_In {A : Type} (f : A -> bool) (l : list A) (x : A) :
  filter f l = [] -> In x l -> f x = false.
Proof.
  induction l as [|a l IH]; cbn [filter]; [intros _ []|].
  destruct (f a) eqn:E; [discriminate|].
  intros H [<-|Hx]; auto.
Qed.

Lemma fold_hit (id : jsstring) (g : list ScryfallRuling.t)
  (groups : list (jsstring * list ScryfallRuling.t)) :
  (forall c r, refuses c r = false) ->
  forall acc,
  filter (keyed id) groups = [(id, g)] ->
  stored (snd acc) id = true ->
  Store.rulings_of id
    (Catalog.rulings (snd (fold_left (syncGroup refuses) groups acc)))
  = map (ruling_row id) g.
Proof.
  intros Hno.
  induction groups as [|p groups IH]; intros acc Hf Hcard;
    cbn [fold_left filter] in *; [discriminate|].
  destruct (step_cards acc p) as (C1 & _).
  destruct (JsString.eqb (fst p) id) eqn:E.
  - injection Hf as -> Hrest. rewrite fold_other.
    + now apply step_hit.
    + intros q Hq Hid. pose proof (filter_nil_In _ _ q Hrest Hq) as Hk.
      cbn beta in Hk. rewrite Hid, eqb_refl in Hk. discriminate.
  - apply IH; [exact Hf|]. now rewrite C1.
Qed.

(** [syncRulings] touches neither cards nor faces, and counts one success
    or one failure for each distinct external id among the rulings that
    belongs to a stored card; the ids of unknown cards are skipped and
    counted as neither.  When the store refuses no ruling there is no
    failure. *)
Theorem syncRulings_counts_stored_cards (cat : Catalog.t)
  (rulings : list ScryfallRuling.t) :
  let r := syncRulings refuses cat rulings in
  Catalog.cards (snd r) = Catalog.cards cat
  /\ Catalog.cardFaces (snd r) = Catalog.cardFaces cat
  /\ fst (fst r) + snd (fst r)
     = length (filter (stored cat)
                 (set_spread (map ScryfallRuling.oracle_id rulings)))
  /\ ((forall c x, refuses c x = false) -> snd (fst r) = 0).
Proof.
  unfold syncRulings. cbv zeta.
  destruct (fold_cards (rulingsByOracleId rulings) (0, 0, cat))
    as (H1 & H2 & _).
  destruct (fold_counts (rulingsByOracleId rulings) (0, 0, cat))
    as [H3 H4].
  rewrite groups_keys in H3. auto.
Qed.

(** After [syncRulings], when the store refuses no ruling: a stored card
    that has rulings in the input has exactly these rulings, in the order
    of the input, whatever it had before.  With or without refusals, the
    rulings of a card that is not stored, or that has no ruling in the
    input, are as before: rulings of unknown cards are never stored. *)
Theorem syncRulings_replaces_per_card (cat : Catalog.t)
  (rulings : list ScryfallRuling.t) (id : jsstring) :
  let after := Catalog.rulings (snd (syncRulings refuses cat rulings)) in
  ((forall c x, refuses c x = false) ->
   In id (map ScryfallRuling.oracle_id rulings) ->
   stored cat id = true ->
   Store.rulings_of id after = map (ruling_row id) (sel id rulings))
  /\ (~ In id (map ScryfallRuling.oracle_id rulings)
      \/ stored cat id = false ->
      Store.rulings_of id after = Store.rulings_of id (Catalog.rulings cat)).
Proof.
  unfold syncRulings. cbv zeta. split.
  - intros Hno Hin Hcard. apply fold_hit; [exact Hno| |exact Hcard].
    rewrite groups_entries.
    destruct (sel id rulings) as [|x xs] eqn:Hsel; [|reflexivity].
    exfalso. apply in_map_iff in Hin as (r & Hr & Hin).
    pose proof (filter_nil_In _ _ r Hsel Hin) as Hk. cbn beta in Hk.
    rewrite Hr, eqb_refl in Hk. discriminate.
  - intros H. apply fold_other. intros p Hp Hid. cbn [snd].
    destruct H as [Hnot|H]; [|exact H].
    exfalso. apply Hnot.
    assert (Hk : In id (map fst (rulingsByOracleId rulings))).
    { rewrite <- Hid. now apply in_map. }
    rewrite groups_keys, set_spread_first_seen, first_seen_In in Hk.
    tauto.
Qed.

End WithConstraints.

Lemma syncRulings_counts_stored_cards_witness :
  snd (fst (syncRulings no_ruling_constraints ResolverExamples.brain_catalog
              RulingExamples.sample)) = 0.
Proof.
  apply (proj2 (proj2 (proj2
           (@syncRulings_counts_stored_cards no_ruling_constraints
              ResolverExamples.brain_catalog RulingExamples.sample)))).
  intros c x. reflexivity.
Defined.

Lemma syncRulings_replaces_per_card_witness :
  map Ruling.comment
    (Store.rulings_of (lit "o-storm")
       (Catalog.rulings
          (snd (syncRulings no_ruling_constraints
                  ResolverExamples.brain_catalog RulingExamples.sample))))
  = [lit "first"; lit "second"].
Proof.
  rewrite (proj1 (@syncRulings_replaces_per_card no_ruling_constraints
                    ResolverExamples.brain_catalog RulingExamples.sample
                    (lit "o-storm"))).
  - reflexivity.
  - reflexivity.
  - left. reflexivity.
  - reflexivity.
Defined.

End RulingFacts.

(** ** Look-ups by external id *)

Module LookupFacts.

Import Resolver Lookup JsStringFacts VariantFacts.

(** [getCardsByOracleIds] and [getCardByOracleId] agree: the cards that
    the first returns are stored cards whose external id was asked for,
    with their faces and rulings; every card that the second finds for an
    id of the list is among them; an id that the second does not find
    contributes nothing. *)
Theorem getCardsByOracleIds_agrees (cat : Catalog.t)
  (oracleIds : list jsstring) :
  (forall cw, In cw (getCardsByOracleIds cat oracleIds) ->
     In (Card.oracleId (row cw)) oracleIds
     /\ In (row cw) (Catalog.cards cat)
     /\ cw = with_relations cat (row cw))
  /\ (forall id cw, In id oracleIds ->
        getCardByOracleId cat id = Some cw ->
        In cw (getCardsByOracleIds cat oracleIds))
  /\ (forall id, getCardByOracleId cat id = None ->
        getCardsByOracleIds cat [id] = []).
Proof.
  unfold getCardsByOracleIds, getCardByOracleId, Store.card_findUnique.
  split; [|split].
  - intros cw Hcw. apply in_map_iff in Hcw as (c & <- & Hc).
    apply filter_In in Hc as [Hin Hids].
    apply existsb_eqb_In in Hids. cbn [row]. auto.
  - intros id cw Hid Hfind.
    destruct (find _ (Catalog.cards cat)) as [c|] eqn:Hc; [|discriminate].
    injection Hfind as <-. apply find_some in Hc as [Hin Heq].
    apply eqb_eq in Heq. apply in_map, filter_In. split; [exact Hin|].
    apply existsb_eqb_In. now rewrite Heq.
  - intros id Hfind.
    destruct (find _ (Catalog.cards cat)) as [c|] eqn:Hc; [discriminate|].
    assert (Hnone : forall c, In c (Catalog.cards cat) ->
              JsString.eqb (Card.oracleId c) id = false)
      by (intros c Hin; exact (find_none _ _ Hc c Hin)).
    clear Hc Hfind.
    induction (Catalog.cards cat) as [|c cs IH]; [reflexivity|].
    cbn [filter existsb]. rewrite (Hnone c (or_introl eq_refl)).
    cbn [orb]. apply IH. intros c' Hc'. apply Hnone. now right.
Qed.

End LookupFacts.
